(** * Catalog harvesting engine of the Bravo / Wolt scrapers

    A shallow embedding of the category flattener, the item fetcher, the
    identity-keyed product store, the harvest loop, the discovery sweep and
    the completeness check of [scripts/wolt_scraper_complete.py], of the
    variants in [wolt_complete_scraper.py] and [wolt_bravo_scraper.py], and of
    the price normalisation of [scripts/wolt_marketing_analysis.py].

    Conventions.
    - A Python value that is either [None] or a [str] is an [option string].
    - A JSON object field that the code reads with [dict.get] is a [jfield]:
      the key can be missing, hold [null], or hold a value.
    - The HTTP session is an external collaborator.  Every function that
      performs a request receives the [response] the session produced for it.
    - The pricing statistics take the prices as exact rationals ([Q]).  The
      discount computation, where rounding decides the outcome, is also
      given on IEEE binary64 numbers ([spec_float]), as Python computes
      it. *)

From Stdlib Require Import ZArith QArith Lia List String Ascii Bool PrimFloat
  SpecFloat.
From stdpp Require Import base option list strings gmap fin_maps countable.

Import ListNotations.
Local Open Scope string_scope.

(** ** JSON fields and Python values *)

Inductive jfield (A : Type) : Type :=
| Missing : jfield A
| Null : jfield A
| Val : A -> jfield A.
Arguments Missing {A}.
Arguments Null {A}.
Arguments Val {A} _.

(** [d.get(k)]: [None] when the key is missing or holds [null]. *)
Definition get {A} (f : jfield A) : option A :=
  match f with
  | Val a => Some a
  | _ => None
  end.

(** [d.get(k, dflt)]: the default replaces a missing key only. *)
Definition get_default {A} (f : jfield A) (dflt : A) : option A :=
  match f with
  | Missing => Some dflt
  | Null => None
  | Val a => Some a
  end.

(** Truthiness of a [str]-or-[None] value. *)
Definition truthy_str (v : option string) : bool :=
  match v with
  | Some s => negb (String.eqb s "")
  | None => false
  end.

(** What an f-string prints for a [str]-or-[None] value. *)
Definition py_str (v : option string) : string :=
  match v with
  | Some s => s
  | None => "None"
  end.

(** [s.count(c)] for a one-character needle. *)
Fixpoint count_char (c : ascii) (s : string) : nat :=
  match s with
  | EmptyString => 0
  | String a r => (if Ascii.eqb a c then 1 else 0) + count_char c r
  end.

Definition slash : ascii := "/"%char.

(** ** Category tree flattener *)

(** A node of the nested category document.  [raw_images] lists, for every
    entry of ['images'], what its ['url'] key holds; a missing
    ['subcategories'] or ['item_ids'] key is the empty list. *)
#[warnings="-register-all"]
Inductive raw_category : Type :=
| RawCategory (raw_id raw_name raw_slug raw_description : jfield string)
              (raw_images : list (jfield string))
              (raw_item_ids : list string)
              (raw_subcategories : list raw_category).

Definition raw_id (c : raw_category) : jfield string :=
  match c with RawCategory i _ _ _ _ _ _ => i end.
Definition raw_name (c : raw_category) : jfield string :=
  match c with RawCategory _ n _ _ _ _ _ => n end.
Definition raw_slug (c : raw_category) : jfield string :=
  match c with RawCategory _ _ s _ _ _ _ => s end.
Definition raw_description (c : raw_category) : jfield string :=
  match c with RawCategory _ _ _ d _ _ _ => d end.
Definition raw_images (c : raw_category) : list (jfield string) :=
  match c with RawCategory _ _ _ _ im _ _ => im end.
Definition raw_item_ids (c : raw_category) : list string :=
  match c with RawCategory _ _ _ _ _ ids _ => ids end.
Definition raw_subcategories (c : raw_category) : list raw_category :=
  match c with RawCategory _ _ _ _ _ _ subs => subs end.

(** Induction over category documents, with the hypothesis available for
    every subcategory. *)
Section RawCategoryInduction.
Variable P : raw_category -> Prop.
Hypothesis step : forall i n s d im ids subs,
  Forall P subs -> P (RawCategory i n s d im ids subs).

Fixpoint raw_category_rect' (c : raw_category) : P c :=
  match c with
  | RawCategory i n s d im ids subs =>
      step i n s d im ids subs
        ((fix all (l : list raw_category) : Forall P l :=
            match l with
            | [] => Forall_nil P
            | x :: r => Forall_cons P x r (raw_category_rect' x) (all r)
            end) subs)
  end.
End RawCategoryInduction.

(** The [cat_info] dictionary built for every node. *)
Record Category : Type := mkCategory {
  cat_id : option string;
  cat_name : option string;
  cat_slug : option string;
  cat_description : option string;
  cat_path : option string;
  cat_level : nat;
  cat_parent_path : option string;
  cat_image_url : option string;
  cat_has_subcategories : bool
}.

(** [f"{parent_path}/{name}" if parent_path else name] *)
Definition make_path (parent_path name : option string) : option string :=
  if truthy_str parent_path
  then Some (py_str parent_path ++ "/" ++ py_str name)
  else name.

(** [cat.get('images', [{}])[0].get('url') if cat.get('images') else None] *)
Definition first_image_url (images : list (jfield string)) : option string :=
  match images with
  | [] => None
  | u :: _ => get u
  end.

Definition cat_info (parent_path : option string) (level : nat)
    (cat : raw_category) : Category :=
  {| cat_id := get (raw_id cat);
     cat_name := get (raw_name cat);
     cat_slug := get (raw_slug cat);
     cat_description := get_default (raw_description cat) "";
     cat_path := make_path parent_path (get (raw_name cat));
     cat_level := level;
     cat_parent_path := parent_path;
     cat_image_url := first_image_url (raw_images cat);
     cat_has_subcategories :=
       negb (Nat.eqb (List.length (raw_subcategories cat)) 0) |}.

(** One iteration of the [for cat in categories] loop: the node's record,
    then the records of its subcategories one level deeper. *)
Fixpoint flatten_category (parent_path : option string) (level : nat)
    (cat : raw_category) {struct cat} : list Category :=
  match cat with
  | RawCategory _ name _ _ _ _ subs =>
      let path := make_path parent_path (get name) in
      cat_info parent_path level cat
        :: flat_map (flatten_category path (S level)) subs
  end.

(** [WoltComprehensiveScraper._flatten_categories] *)
Definition _flatten_categories (categories : list raw_category)
    (parent_path : option string) (level : nat) : list Category :=
  flat_map (flatten_category parent_path level) categories.

(** The call made by [get_categories]. *)
Definition flatten_document (categories : list raw_category) : list Category :=
  _flatten_categories categories (Some "") 0.

(** *** The variant of [wolt_bravo_scraper.py] *)

Record BravoCategory : Type := mkBravoCategory {
  bcat_id : option string;
  bcat_name : option string;
  bcat_slug : option string;
  bcat_description : option string;
  bcat_path : option string;
  bcat_level : nat;
  bcat_has_subcategories : bool;
  bcat_item_ids : list string;
  bcat_image_url : option string
}.

(** One iteration of the loop of [WoltBravoScraper.extract_all_categories].
    The level is [parent_path.count('/')]; on a [None] parent path that call
    raises [AttributeError], which nothing catches: the result is [None].
    The side table [category_map] does not influence the returned list and is
    left out. *)
Fixpoint extract_category (parent_path : option string)
    (cat : raw_category) {struct cat} : option (list BravoCategory) :=
  match cat with
  | RawCategory i name s d im ids subs =>
      match parent_path with
      | None => None
      | Some pp =>
          let path := make_path parent_path (get name) in
          let info :=
            {| bcat_id := get i;
               bcat_name := get name;
               bcat_slug := get s;
               bcat_description := get_default d "";
               bcat_path := path;
               bcat_level := count_char slash pp;
               bcat_has_subcategories := negb (Nat.eqb (List.length subs) 0);
               bcat_item_ids := ids;
               bcat_image_url := first_image_url im |} in
          match
            (fix extract_list (l : list raw_category) :=
               match l with
               | [] => Some []
               | c :: r =>
                   match extract_category path c with
                   | None => None
                   | Some here =>
                       match extract_list r with
                       | None => None
                       | Some rest => Some (here ++ rest)%list
                       end
                   end
               end) subs
          with
          | None => None
          | Some below => Some (info :: below)
          end
      end
  end.

Fixpoint extract_all_categories (categories : list raw_category)
    (parent_path : option string) : option (list BravoCategory) :=
  match categories with
  | [] => Some []
  | c :: r =>
      match extract_category parent_path c with
      | None => None
      | Some here =>
          match extract_all_categories r parent_path with
          | None => None
          | Some rest => Some (here ++ rest)%list
          end
      end
  end.

(** ** Items and the product store *)

(** The values an item field can hold, as far as the harvest looks at them:
    [None], a string or an integer. *)
Inductive pyval : Type :=
| PNone
| PStr (s : string)
| PInt (z : Z).

#[global] Instance pyval_eq_dec : EqDecision pyval.
Proof. solve_decision. Defined.

Definition pyval_encode (v : pyval) : unit + (string + Z) :=
  match v with
  | PNone => inl tt
  | PStr s => inr (inl s)
  | PInt z => inr (inr z)
  end.

Definition pyval_decode (x : unit + (string + Z)) : pyval :=
  match x with
  | inl _ => PNone
  | inr (inl s) => PStr s
  | inr (inr z) => PInt z
  end.

#[global] Instance pyval_countable : Countable pyval.
Proof.
  apply (inj_countable' pyval_encode pyval_decode).
  intros []; reflexivity.
Defined.

(** [bool(v)] *)
Definition truthy (v : pyval) : bool :=
  match v with
  | PNone => false
  | PStr s => negb (String.eqb s "")
  | PInt z => negb (Z.eqb z 0)
  end.

Definition of_str (v : option string) : pyval :=
  match v with
  | Some s => PStr s
  | None => PNone
  end.

(** A raw item is the JSON object of the response: a finite map from field
    names to values. *)
Abbreviation Item := (gmap string pyval).

(** [item.get(k)] *)
Definition item_get (item : Item) (k : string) : pyval :=
  default PNone (item !! k).

(** The product accumulator [self.all_products], keyed by item id. *)
Abbreviation Store := (gmap pyval Item).

(** ** Item fetcher *)

(** What the session call and the decoding of its body come to: a 2xx
    response whose body holds the given items (an absent ['items'] key is the
    empty list), an HTTP error status raised by [raise_for_status], or any
    other exception raised inside the [try] block of the fetcher (timeout,
    connection error, body that does not parse or is not an object with a
    list of objects under ['items']).  The ids of the items of a 2xx body
    are [None], strings or integers here; [listing] below adds the bodies
    with other ids. *)
Inductive response : Type :=
| RespOk (items : list Item)
| RespHttpError (status_code : nat)
| RespFailure.

(** The annotation loop of [get_category_items]. *)
Definition annotate (category_slug category_name : option string)
    (item : Item) : Item :=
  <["_category_name" := of_str category_name]>
    (<["_category_slug" := of_str category_slug]> item).

(** [WoltComprehensiveScraper.get_category_items] *)
Definition get_category_items (category_slug category_name : option string)
    (r : response) : list Item :=
  match r with
  | RespOk items => map (annotate category_slug category_name) items
  | RespHttpError status_code =>
      if Nat.eqb status_code 404 then [] else []
  | RespFailure => []
  end.

(** [WoltComprehensiveScraper.search_items] and
    [WoltCompleteScraper.search_items]: every exception gives the empty
    list. *)
Definition search_items (r : response) : list Item :=
  match r with
  | RespOk items => items
  | _ => []
  end.

(** ** Product store *)

(** The body of the deduplicating loop, shared by [scrape_all_products] and
    [supplement_with_search]: an item without a truthy id is skipped, an id
    already in the store is left alone, a new id is inserted and counted. *)
Definition merge_item (acc : Store * nat) (item : Item) : Store * nat :=
  let '(products, new_items) := acc in
  let item_id := item_get item "id" in
  if truthy item_id then
    match products !! item_id with
    | Some _ => (products, new_items)
    | None => (<[item_id := item]> products, S new_items)
    end
  else (products, new_items).

Definition merge_items (products : Store) (items : list Item) : Store * nat :=
  fold_left merge_item items (products, 0).

(** ** Harvest orchestrator *)

(** An entry of [self.category_stats]. *)
Record CategoryStat : Type := mkCategoryStat {
  stat_name : option string;
  stat_path : option string;
  item_count : nat;
  new_items : nat
}.

(** The scraper's state.  [self.category_stats] is a dictionary: its entries
    are [category_stats], and [stats_order] lists its keys in the order the
    dictionary holds them, the order of first insertion. *)
Record Scraper : Type := mkScraper {
  all_categories : list Category;
  all_products : Store;
  category_stats : gmap (option string) CategoryStat;
  stats_order : list (option string)
}.

(** The keys of a dictionary after [d[key] = value]: a key already present
    keeps its place, a new key goes to the end. *)
Definition keys_after_set {V : Type} (entries : gmap (option string) V)
    (order : list (option string)) (key : option string)
    : list (option string) :=
  match entries !! key with
  | Some _ => order
  | None => (order ++ [key])%list
  end.

(** The local counters of [scrape_all_products]. *)
Record Tally : Type := mkTally {
  total_requests : nat;
  successful_requests : nat;
  categories_with_items : nat
}.

(** One iteration of the category loop of [scrape_all_products].  The
    progress line slices [name[:60]] before the request is made; on a
    category whose name is [None] that raises [TypeError], which nothing
    catches: the result is [None].  The membership test
    [item_id not in self.all_products] hashes the id, which succeeds on
    every id of an [Item]; [scrape_listing] below covers the ids it fails
    on. *)
Definition scrape_category (st : Scraper * Tally)
    (visit : Category * response) : option (Scraper * Tally) :=
  let '(self, t) := st in
  let '(category, r) := visit in
  let slug := cat_slug category in
  let name := cat_name category in
  match name with
  | None => None
  | Some _ =>
      let items := get_category_items slug name r in
      match items with
      | [] =>
          Some (self,
                {| total_requests := S (total_requests t);
                   successful_requests := successful_requests t;
                   categories_with_items := categories_with_items t |})
      | _ :: _ =>
          let '(products, new) := merge_items (all_products self) items in
          Some ({| all_categories := all_categories self;
                   all_products := products;
                   category_stats :=
                     <[slug := {| stat_name := name;
                                  stat_path := cat_path category;
                                  item_count := List.length items;
                                  new_items := new |}]>
                       (category_stats self);
                   stats_order :=
                     keys_after_set (category_stats self) (stats_order self)
                       slug |},
                {| total_requests := S (total_requests t);
                   successful_requests := S (successful_requests t);
                   categories_with_items := S (categories_with_items t) |})
      end
  end.

Fixpoint scrape_loop (st : Scraper * Tally)
    (visits : list (Category * response)) : option (Scraper * Tally) :=
  match visits with
  | [] => Some st
  | visit :: rest =>
      match scrape_category st visit with
      | None => None
      | Some st' => scrape_loop st' rest
      end
  end.

Definition tally0 : Tally :=
  {| total_requests := 0; successful_requests := 0;
     categories_with_items := 0 |}.

(** The requests of one run, in order: the [i]-th category of the list is
    paired with the response [session i] the session gives to the [i]-th
    request. *)
Definition visits_of (categories : list Category) (session : nat -> response)
    : list (Category * response) :=
  combine categories (map session (seq 0 (List.length categories))).

(** [WoltComprehensiveScraper.scrape_all_products]: the scraper after the
    run, the counters, and the returned dictionary. *)
Definition scrape_all_products (self : Scraper) (session : nat -> response)
    : option (Scraper * Tally * Store) :=
  match all_categories self with
  | [] => Some (self, tally0, ∅)
  | _ :: _ =>
      match scrape_loop (self, tally0)
              (visits_of (all_categories self) session) with
      | None => None
      | Some (self', t) => Some (self', t, all_products self')
      end
  end.

(** *** Listings with unrestricted item ids *)

(** The item fetcher above takes the ids of a 2xx body to be [None],
    strings or integers.  A body can hold any JSON value there: [Listing r]
    is an answer of the kind modelled above, [UnhashableId] a 2xx response
    one of whose items has a non-empty list or object as its ['id']. *)
Inductive listing : Type :=
| Listing (r : response)
| UnhashableId.

(** One iteration of the category loop on such an answer.  On
    [UnhashableId], [get_category_items] returns the annotated items, the
    list is not empty, and the deduplicating loop comes to evaluate
    [item_id not in self.all_products] on the unhashable id: [TypeError],
    which nothing catches. *)
Definition scrape_listing (st : Scraper * Tally)
    (visit : Category * listing) : option (Scraper * Tally) :=
  match visit.2 with
  | Listing r => scrape_category st (visit.1, r)
  | UnhashableId => None
  end.

Fixpoint scrape_listings (st : Scraper * Tally)
    (visits : list (Category * listing)) : option (Scraper * Tally) :=
  match visits with
  | [] => Some st
  | visit :: rest =>
      match scrape_listing st visit with
      | None => None
      | Some st' => scrape_listings st' rest
      end
  end.

(** [scrape_all_products] on a session that answers with such listings. *)
Definition scrape_all_listings (self : Scraper) (session : nat -> listing)
    : option (Scraper * Tally * Store) :=
  match all_categories self with
  | [] => Some (self, tally0, ∅)
  | _ :: _ =>
      match scrape_listings (self, tally0)
              (combine (all_categories self)
                 (map session (seq 0 (List.length (all_categories self)))))
      with
      | None => None
      | Some (self', t) => Some (self', t, all_products self')
      end
  end.

(** ** Discovery sweep *)

Definition search_queries : list string :=
  [" "; "*"; "a"; "b"; "c"; "d"; "e"; "s"; "m"; "k"].

(** The query loop of [supplement_with_search] over the queries still to
    issue, each paired with the response the session gives if it is issued.
    The second component lists the progress lines printed: one per issued
    query, with its number of new items. *)
Fixpoint sweep_loop (products : Store) (exchanges : list (string * response))
    : Store * list (string * nat) :=
  match exchanges with
  | [] => (products, [])
  | (query, r) :: rest =>
      let '(products', new) := merge_items products (search_items r) in
      if Nat.eqb new 0 then (products', [(query, new)])
      else
        let '(final, issued) := sweep_loop products' rest in
        (final, (query, new) :: issued)
  end.

(** [WoltComprehensiveScraper.supplement_with_search]: the scraper after the
    sweep, the issued queries and the number [added]. *)
Definition supplement_with_search (self : Scraper) (session : nat -> response)
    : Scraper * list (string * nat) * Z :=
  let initial_count := size (all_products self) in
  let '(products, issued) :=
    sweep_loop (all_products self)
      (combine search_queries
         (map session (seq 0 (List.length search_queries)))) in
  ({| all_categories := all_categories self;
      all_products := products;
      category_stats := category_stats self;
      stats_order := stats_order self |},
   issued,
   (Z.of_nat (size products) - Z.of_nat initial_count)%Z).

(** ** Completeness verifier *)

(** Which of the two final messages [verify_completeness] prints: the
    warning about categories at the 500 item limit, or the line saying that
    coverage appears complete. *)
Inductive verdict : Type := Suspect | Confident.

Definition page_cap : nat := 500.

(** What [verify_completeness] computes and prints; the method itself
    returns nothing.  [large_categories] is the local dictionary of that
    name, of which the warning prints the size; [listed_categories] are the
    entries the warning names, one line each. *)
Record Completeness : Type := mkCompleteness {
  total_categories : nat;
  with_items : nat;
  empty_categories : Z;
  total_unique_products : nat;
  large_categories : gmap (option string) CategoryStat;
  listed_categories : list (option string * CategoryStat);
  completeness_verdict : verdict
}.

Definition reaches_cap (entry : option string * CategoryStat) : Prop :=
  page_cap <= item_count entry.2.

#[global] Instance reaches_cap_dec entry : Decision (reaches_cap entry).
Proof. unfold reaches_cap. apply _. Defined.

(** [list(large_categories.items())]: the dictionary comprehension goes
    through [self.category_stats] in its order and keeps the entries whose
    ['item_count'] is at least 500. *)
Definition large_items (entries : gmap (option string) CategoryStat)
    (order : list (option string)) : list (option string * CategoryStat) :=
  omap (fun slug =>
          match entries !! slug with
          | Some stats =>
              if decide (reaches_cap (slug, stats)) then Some (slug, stats)
              else None
          | None => None
          end) order.

(** [WoltComprehensiveScraper.verify_completeness].  The warning states the
    size of [large_categories] and then names the first five of its items,
    [list(large_categories.items())[:5]]. *)
Definition verify_completeness (self : Scraper) : Completeness :=
  let total := List.length (all_categories self) in
  let withi := size (category_stats self) in
  let large := filter reaches_cap (category_stats self) in
  {| total_categories := total;
     with_items := withi;
     empty_categories := (Z.of_nat total - Z.of_nat withi)%Z;
     total_unique_products := size (all_products self);
     large_categories := large;
     listed_categories :=
       take 5 (large_items (category_stats self) (stats_order self));
     completeness_verdict :=
       if decide (large = ∅) then Confident else Suspect |}.

(** ** The batch loop of [wolt_complete_scraper.py] *)

Module WoltCompleteScraper.

(** The [cat_info] dictionary of this script: the one of
    [wolt_scraper_complete.py] without the ['has_subcategories'] key. *)
Record CompleteCategory : Type := mkCompleteCategory {
  ccat_id : option string;
  ccat_name : option string;
  ccat_slug : option string;
  ccat_description : option string;
  ccat_path : option string;
  ccat_level : nat;
  ccat_parent_path : option string;
  ccat_image_url : option string
}.

Fixpoint flatten_category (parent_path : option string) (level : nat)
    (cat : raw_category) {struct cat} : list CompleteCategory :=
  match cat with
  | RawCategory i name s d im _ subs =>
      let path := make_path parent_path (get name) in
      {| ccat_id := get i;
         ccat_name := get name;
         ccat_slug := get s;
         ccat_description := get_default d "";
         ccat_path := path;
         ccat_level := level;
         ccat_parent_path := parent_path;
         ccat_image_url := first_image_url im |}
        :: flat_map (flatten_category path (S level)) subs
  end.

(** [WoltCompleteScraper._flatten_categories] *)
Definition _flatten_categories (categories : list raw_category)
    (parent_path : option string) (level : nat) : list CompleteCategory :=
  flat_map (flatten_category parent_path level) categories.

(** The duplicate filter of one batch: [product_ids] and [new_items]. *)
Definition filter_item (acc : gset pyval * list Item) (item : Item)
    : gset pyval * list Item :=
  let '(product_ids, new_items) := acc in
  let item_id := item_get item "id" in
  if truthy item_id && bool_decide (item_id ∉ product_ids)
  then ({[item_id]} ∪ product_ids, (new_items ++ [item])%list)
  else (product_ids, new_items).

Definition filter_duplicates (product_ids : gset pyval) (items : list Item)
    : gset pyval * list Item :=
  fold_left filter_item items (product_ids, []).

Record BatchState : Type := mkBatchState {
  batch_num : nat;
  product_ids : gset pyval;
  all_products : list Item
}.

Definition batch0 : BatchState :=
  {| batch_num := 0; product_ids := ∅; all_products := [] |}.

(** One turn of the [while True] loop of strategy 1 of
    [WoltCompleteScraper.scrape_all_products].  [session n] is the response
    to the request of batch [n]; every request is the same empty query with
    limit 500.  [inr] is a [break], [inl] goes round again. *)
Definition batch_step (session : nat -> response) (st : BatchState)
    : BatchState + BatchState :=
  let n := S (batch_num st) in
  let items := search_items (session n) in
  match items with
  | [] =>
      inr {| batch_num := n; product_ids := product_ids st;
             all_products := all_products st |}
  | _ :: _ =>
      let '(ids, new_items) := filter_duplicates (product_ids st) items in
      let st' := {| batch_num := n; product_ids := ids;
                    all_products := (all_products st ++ new_items)%list |} in
      if Nat.ltb (List.length items) 500 then inr st' else inl st'
  end.

(** The loop, run for at most [fuel] turns: [None] when it is still going
    round after that many. *)
Fixpoint batch_loop (fuel : nat) (session : nat -> response)
    (st : BatchState) : option BatchState :=
  match fuel with
  | 0 => None
  | S fuel' =>
      match batch_step session st with
      | inr final => Some final
      | inl st' => batch_loop fuel' session st'
      end
  end.

(** The loop terminates when some number of turns is enough. *)
Definition terminates (session : nat -> response) : Prop :=
  exists fuel final, batch_loop fuel session batch0 = Some final.

End WoltCompleteScraper.

(** ** Price normalisation and pricing statistics *)

Module BravoMarketingAnalyzer.

Local Open Scope Q_scope.

(** The fields of a stored product that the pricing code reads.  Prices
    are integers in minor currency units. *)
Record RawProduct : Type := mkRawProduct {
  p_id : jfield string;
  p_name : jfield string;
  p_price : jfield Z;
  p_original_price : jfield Z;
  p_category_name : jfield string;
  p_category_slug : jfield string;
  p_purchasable_balance : jfield Z
}.

(** The normalised record, without the fields that only copy or default a
    raw field (image, barcode, unit, alcohol, tags, dietary preferences). *)
Record Product : Type := mkProduct {
  id : option string;
  name : option string;
  price : Q;
  original_price : option Q;
  discount_percent : option Q;
  category : option string;
  category_slug : option string;
  in_stock : bool;
  stock_qty : Z
}.

(** [cents / 100], as the exact quotient; [int_div_100] below is the
    binary64 number Python computes. *)
Definition to_azn (cents : Z) : Q := inject_Z cents / 100.

(** Truthiness of a number. *)
Definition truthy_num (q : Q) : bool := negb (Qeq_bool q 0).

(** [price_cents / 100 if price_cents else 0] with
    [price_cents = p.get('price', 0)]: a missing, null or zero amount gives
    the price 0. *)
Definition price_of (p : RawProduct) : Q :=
  match get_default (p_price p) 0%Z with
  | Some price_cents =>
      if Z.eqb price_cents 0 then 0 else to_azn price_cents
  | None => 0
  end.

(** [original_price_cents / 100 if original_price_cents else None] *)
Definition original_price_of (p : RawProduct) : option Q :=
  match get (p_original_price p) with
  | Some original_price_cents =>
      if Z.eqb original_price_cents 0 then None
      else Some (to_azn original_price_cents)
  | None => None
  end.

(** [if original_price and price and original_price > price], on exact
    quotients; [b64_discount_of] below is the computation on binary64
    numbers. *)
Definition discount_of (original_price : option Q) (price : Q) : option Q :=
  match original_price with
  | Some o =>
      if truthy_num o && truthy_num price && negb (Qle_bool o price)
      then Some (((o - price) / o) * 100)
      else None
  | None => None
  end.

Definition normalize_product (p : RawProduct) : Product :=
  let price := price_of p in
  let original_price := original_price_of p in
  let purchasable_balance := default 0%Z (get (p_purchasable_balance p)) in
  {| id := get (p_id p);
     name := get_default (p_name p) ""%string;
     price := price;
     original_price := original_price;
     discount_percent := discount_of original_price price;
     category := get_default (p_category_name p) "Unknown"%string;
     category_slug := get_default (p_category_slug p) ""%string;
     in_stock := Z.ltb 0 purchasable_balance;
     stock_qty := purchasable_balance |}.

(** [BravoMarketingAnalyzer.normalize_products] *)
Definition normalize_products (products : list RawProduct) : list Product :=
  map normalize_product products.

(** [min], [max], [sum] and [sorted] on a list of numbers. *)
Definition py_min (x : Q) (l : list Q) : Q :=
  fold_left (fun m y => if Qle_bool m y then m else y) l x.
Definition py_max (x : Q) (l : list Q) : Q :=
  fold_left (fun m y => if Qle_bool y m then m else y) l x.
Definition py_sum (l : list Q) : Q := fold_left Qplus l 0.

Fixpoint insert_sorted (x : Q) (l : list Q) : list Q :=
  match l with
  | [] => [x]
  | y :: r => if Qle_bool x y then x :: l else y :: insert_sorted x r
  end.
Definition sorted (l : list Q) : list Q := fold_right insert_sorted [] l.

(** The list [prices] of [pricing_analysis]. *)
Definition priced (products : list Product) : list Q :=
  map price (List.filter (fun p => negb (Qle_bool (price p) 0)) products).

Record PricingSummary : Type := mkPricingSummary {
  with_prices : nat;
  of_products : nat;
  avg_price : Q;
  median_price : Q;
  min_price : Q;
  max_price : Q
}.

(** The overall figures printed by [pricing_analysis]; [None] when it
    reports that no pricing data is available. *)
Definition pricing_analysis (products : list Product)
    : option PricingSummary :=
  match priced products with
  | [] => None
  | x :: rest =>
      let prices := x :: rest in
      Some {| with_prices := List.length prices;
              of_products := List.length products;
              avg_price := py_sum prices / inject_Z (Z.of_nat (List.length prices));
              median_price := nth (Nat.div (List.length prices) 2) (sorted prices) 0;
              min_price := py_min x rest;
              max_price := py_max x rest |}
  end.

(** The same discount expression on IEEE binary64 numbers, as Python
    evaluates it; the amounts in minor units are given as the binary64
    numbers that represent them exactly (integers below [2^53]). *)
Definition float_azn (cents : float) : float := (cents / 100)%float.

Definition float_discount (original_cents price_cents : float) : float :=
  (((float_azn original_cents - float_azn price_cents)
    / float_azn original_cents) * 100)%float.

(** Sample products used in the examples below. *)

Definition free_item : RawProduct :=
  {| p_id := Val "g1"%string; p_name := Val "Gift bag"%string;
     p_price := Val 0%Z; p_original_price := Val 600%Z;
     p_category_name := Missing; p_category_slug := Missing;
     p_purchasable_balance := Val 3%Z |}.

Definition discounted_item : RawProduct :=
  {| p_id := Val "m1"%string; p_name := Val "Milk"%string;
     p_price := Val 450%Z; p_original_price := Val 600%Z;
     p_category_name := Val "Dairy"%string;
     p_category_slug := Val "dairy"%string;
     p_purchasable_balance := Val 12%Z |}.

Definition regular_item : RawProduct :=
  {| p_id := Val "b1"%string; p_name := Val "Bread"%string;
     p_price := Val 120%Z; p_original_price := Missing;
     p_category_name := Val "Bakery"%string;
     p_category_slug := Val "bakery"%string;
     p_purchasable_balance := Null |}.

Definition unpriced_item : RawProduct :=
  {| p_id := Val "u1"%string; p_name := Val "Seasonal box"%string;
     p_price := Missing; p_original_price := Missing;
     p_category_name := Missing; p_category_slug := Missing;
     p_purchasable_balance := Missing |}.

Definition zero_priced_item : RawProduct :=
  {| p_id := Val "z1"%string; p_name := Val "Free sample"%string;
     p_price := Val 0%Z; p_original_price := Missing;
     p_category_name := Missing; p_category_slug := Missing;
     p_purchasable_balance := Missing |}.

(** *** The amounts as binary64 numbers *)

(** Python's [float] is the IEEE 754 binary64 format, here [spec_float] with
    53 bits of precision and exponents up to 1024; its operations round to
    nearest, ties to even. *)
Definition b64_sub : spec_float -> spec_float -> spec_float := SFsub 53 1024.
Definition b64_mul : spec_float -> spec_float -> spec_float := SFmul 53 1024.
Definition b64_div : spec_float -> spec_float -> spec_float := SFdiv 53 1024.

(** An integer as operand of a true division: [/] on two integers gives the
    binary64 number nearest to the exact quotient, whatever the size of the
    integers. *)
Definition exact_int (z : Z) : spec_float :=
  match z with
  | Z0 => S754_zero false
  | Zpos m => S754_finite false m 0
  | Zneg m => S754_finite true m 0
  end.

(** [cents / 100] on an integer.  [None] stands for the [OverflowError]
    that Python raises when the quotient is too large for a float. *)
Definition int_div_100 (cents : Z) : option spec_float :=
  match b64_div (exact_int cents) (exact_int 100) with
  | S754_infinity _ => None
  | S754_nan => None
  | quotient => Some quotient
  end.

(** The float [100.0] that the integer of [* 100] is converted to. *)
Definition b64_hundred : spec_float := binary_normalize 53 1024 100 0 false.

(** Truthiness of a float: every number but [0.0] and [-0.0]. *)
Definition b64_truthy (x : spec_float) : bool :=
  match x with
  | S754_zero _ => false
  | _ => true
  end.

(** The pricing fields of the normalised record, as the numbers the code
    computes. *)
Record Amounts : Type := mkAmounts {
  amount_price : spec_float;
  amount_original_price : option spec_float;
  amount_discount_percent : option spec_float
}.

(** [price_cents / 100 if price_cents else 0] with
    [price_cents = p.get('price', 0)].  The integer [0] of the [else]
    branch is written as the float zero, which tests and compares the
    same. *)
Definition b64_price_of (p : RawProduct) : option spec_float :=
  match get_default (p_price p) 0%Z with
  | Some price_cents =>
      if Z.eqb price_cents 0 then Some (S754_zero false)
      else int_div_100 price_cents
  | None => Some (S754_zero false)
  end.

(** [original_price_cents / 100 if original_price_cents else None] *)
Definition b64_original_price_of (p : RawProduct)
    : option (option spec_float) :=
  match get (p_original_price p) with
  | Some original_price_cents =>
      if Z.eqb original_price_cents 0 then Some None
      else
        match int_div_100 original_price_cents with
        | Some original_price => Some (Some original_price)
        | None => None
        end
  | None => Some None
  end.

(** [if original_price and price and original_price > price:
       discount_pct = ((original_price - price) / original_price) * 100] *)
Definition b64_discount_of (original_price : option spec_float)
    (price : spec_float) : option spec_float :=
  match original_price with
  | Some o =>
      if b64_truthy o && b64_truthy price && SFltb price o
      then Some (b64_mul (b64_div (b64_sub o price) o) b64_hundred)
      else None
  | None => None
  end.

(** The pricing part of one iteration of [normalize_products]; [None] when
    a division raises. *)
Definition b64_normalize_product (p : RawProduct) : option Amounts :=
  match b64_price_of p with
  | Some price =>
      match b64_original_price_of p with
      | Some original_price =>
          Some {| amount_price := price;
                  amount_original_price := original_price;
                  amount_discount_percent :=
                    b64_discount_of original_price price |}
      | None => None
      end
  | None => None
  end.

(** The decimal value of a finite binary64 number, as a fraction. *)
Definition b64_value (x : spec_float) : option Q :=
  match x with
  | S754_zero _ => Some 0
  | S754_finite s m e =>
      let mantissa := if s then Z.neg m else Z.pos m in
      Some (match e with
            | Z.neg e' => inject_Z mantissa / inject_Z (Z.pow_pos 2 e')
            | _ => inject_Z (mantissa * 2 ^ e)
            end)
  | _ => None
  end.

(** Two amounts that differ by one minor unit and are the same number after
    the division. *)
Definition huge_item : RawProduct :=
  {| p_id := Val "h1"%string; p_name := Val "Estate"%string;
     p_price := Val 100000000000000000%Z;
     p_original_price := Val 100000000000000001%Z;
     p_category_name := Missing; p_category_slug := Missing;
     p_purchasable_balance := Missing |}.

(** The figures of [pricing_analysis] that are computed from the prices. *)
Definition price_figures (s : PricingSummary) : nat * Q * Q * Q * Q :=
  (with_prices s, avg_price s, median_price s, min_price s, max_price s).

(** *** The price distribution and the discount list of [pricing_analysis] *)

(** The dictionary [ranges], in insertion order, every count at 0. *)
Definition range_labels : list string :=
  ["Under 0.50 AZN"; "0.50-1 AZN"; "1-3 AZN"; "3-5 AZN"; "5-10 AZN";
   "10-20 AZN"; "20-50 AZN"; "Over 50 AZN"]%string.

Definition ranges0 : list (string * nat) :=
  map (fun label => (label, 0%nat)) range_labels.

(** [a < b] on numbers. *)
Definition Qltb (a b : Q) : bool := negb (Qle_bool b a).

(** The [if]/[elif] chain over a price: the key whose count goes up. *)
Definition range_of (price : Q) : string :=
  if Qltb price (1 # 2) then "Under 0.50 AZN"%string
  else if Qltb price 1 then "0.50-1 AZN"%string
  else if Qltb price 3 then "1-3 AZN"%string
  else if Qltb price 5 then "3-5 AZN"%string
  else if Qltb price 10 then "5-10 AZN"%string
  else if Qltb price 20 then "10-20 AZN"%string
  else if Qltb price 50 then "20-50 AZN"%string
  else "Over 50 AZN"%string.

(** [ranges[label] += 1] on a key of the dictionary. *)
Definition bump (label : string) (ranges : list (string * nat))
    : list (string * nat) :=
  map (fun entry : string * nat =>
         if String.eqb (fst entry) label then (fst entry, S (snd entry))
         else entry) ranges.

(** The loop [for price in prices] over the chain. *)
Definition price_distribution (prices : list Q) : list (string * nat) :=
  fold_left (fun ranges price => bump (range_of price) ranges) prices ranges0.

(** The lines printed under "Price Distribution": the ranges with a count
    above 0, in the order of the dictionary. *)
Definition printed_ranges (prices : list Q) : list (string * nat) :=
  List.filter (fun entry : string * nat => Nat.ltb 0 (snd entry))
    (price_distribution prices).

(** [[p for p in products if p['discount_percent']]] *)
Definition discounted (products : list Product) : list Product :=
  List.filter (fun p => match discount_percent p with
                        | Some d => truthy_num d
                        | None => false
                        end) products.

(** The amount in minor units of a product that has a positive amount. *)
Definition positive_cents (p : RawProduct) : option Z :=
  match p_price p with
  | Val c => if Z.ltb 0 c then Some c else None
  | _ => None
  end.

(** The range of an amount in minor units, by its thresholds. *)
Definition range_of_cents (c : Z) : string :=
  if Z.ltb c 50 then "Under 0.50 AZN"%string
  else if Z.ltb c 100 then "0.50-1 AZN"%string
  else if Z.ltb c 300 then "1-3 AZN"%string
  else if Z.ltb c 500 then "3-5 AZN"%string
  else if Z.ltb c 1000 then "5-10 AZN"%string
  else if Z.ltb c 2000 then "10-20 AZN"%string
  else if Z.ltb c 5000 then "20-50 AZN"%string
  else "Over 50 AZN"%string.

(** How many prices of the list fall in the range with this label. *)
Definition in_range (label : string) (prices : list Q) : nat :=
  List.length (List.filter (fun price => String.eqb (range_of price) label)
                 prices).

(** The products with a computed discount. *)
Definition with_discount (products : list Product) : list Product :=
  List.filter (fun p => match discount_percent p with
                        | Some _ => true
                        | None => false
                        end) products.

End BravoMarketingAnalyzer.

(** ** Reference notions used by the statements *)

(** Pre-order enumeration of the nodes of a category document, written from
    the description of the flattener's output: a node, then its whole
    subtree, siblings in source order. *)
Fixpoint spec_preorder (c : raw_category) : list raw_category :=
  match c with
  | RawCategory _ _ _ _ _ _ subs => c :: flat_map spec_preorder subs
  end.

Definition spec_preorder_nodes (cats : list raw_category)
    : list raw_category :=
  flat_map spec_preorder cats.

(** The record emitted for a node carries the node's own fields. *)
Definition emitted_for (n : raw_category) (r : Category) : Prop :=
  cat_id r = get (raw_id n) /\
  cat_name r = get (raw_name n) /\
  cat_slug r = get (raw_slug n) /\
  cat_description r = get_default (raw_description n) "" /\
  cat_image_url r = first_image_url (raw_images n) /\
  cat_has_subcategories r
    = negb (Nat.eqb (List.length (raw_subcategories n)) 0).

(** In the emitted sequence [out], every record at depth [lvl] has parent
    path [pp], and every deeper record has its immediate ancestor before it:
    the nearest earlier record one level up, whose path is the record's
    parent path. *)
Definition nested_under (pp : option string) (lvl : nat)
    (out : list Category) : Prop :=
  forall i r, out !! i = Some r ->
    lvl <= cat_level r /\
    (cat_level r = lvl -> cat_parent_path r = pp) /\
    (lvl < cat_level r ->
       exists j q, j < i /\ out !! j = Some q /\
         S (cat_level q) = cat_level r /\
         cat_path q = cat_parent_path r /\
         forall m x, j < m < i -> out !! m = Some x ->
           cat_level q < cat_level x).

(** Every name in the document is a non-empty string without a slash. *)
Fixpoint plain_names (c : raw_category) : bool :=
  match c with
  | RawCategory _ n _ _ _ _ subs =>
      match n with
      | Val s => negb (String.eqb s "") && Nat.eqb (count_char slash s) 0
      | _ => false
      end && forallb plain_names subs
  end.

(** The nodes of a document in pre-order, each with its ancestors from the
    root down, written from the description of the tree: the nesting depth
    of a node is the number of its ancestors, and its parent is the last of
    them. *)
Fixpoint spec_lineage (ancestors : list raw_category) (c : raw_category)
    {struct c} : list (list raw_category * raw_category) :=
  match c with
  | RawCategory _ _ _ _ _ _ subs =>
      (ancestors, c) :: flat_map (spec_lineage (ancestors ++ [c])%list) subs
  end.

Definition spec_lineages (cats : list raw_category)
    : list (list raw_category * raw_category) :=
  flat_map (spec_lineage []) cats.

(** The path of the last node of a chain that starts at a root: the names
    along the chain, joined as the flattener joins a name to a parent
    path. *)
Definition path_along (chain : list raw_category) : option string :=
  fold_left (fun pp a => make_path pp (get (raw_name a))) chain (Some "").

(** The record [r] sits where the node [entry.2] with ancestors [entry.1]
    sits in the document: its level is the number of ancestors, its parent
    path is the path of the last ancestor, and its path is the node's own. *)
Definition placed (entry : list raw_category * raw_category) (r : Category)
    : Prop :=
  cat_level r = List.length entry.1 /\
  cat_parent_path r = path_along entry.1 /\
  cat_path r = path_along (entry.1 ++ [entry.2])%list.

(** ** Auxiliary notions and sample data for the statements *)

(** The level passed down is the number of slashes of the parent path plus
    one, or zero when the parent path is empty. *)
Definition depth_of_parent (pp : option string) (lvl : nat) : Prop :=
  match pp with
  | Some s => if String.eqb s "" then lvl = 0 else lvl = S (count_char slash s)
  | None => False
  end.

(** A record of [wolt_scraper_complete.py] without its
    ['has_subcategories'] key. *)
Definition without_has_subcategories (r : Category)
    : WoltCompleteScraper.CompleteCategory :=
  {| WoltCompleteScraper.ccat_id := cat_id r;
     WoltCompleteScraper.ccat_name := cat_name r;
     WoltCompleteScraper.ccat_slug := cat_slug r;
     WoltCompleteScraper.ccat_description := cat_description r;
     WoltCompleteScraper.ccat_path := cat_path r;
     WoltCompleteScraper.ccat_level := cat_level r;
     WoltCompleteScraper.ccat_parent_path := cat_parent_path r;
     WoltCompleteScraper.ccat_image_url := cat_image_url r |}.

(** The level of a record is the number of slashes of its path. *)
Definition level_counts_slashes (r : Category) : Prop :=
  exists p, cat_path r = Some p /\ count_char slash p = cat_level r.

(** Sample documents. *)
Definition nameless_node : raw_category :=
  RawCategory Missing Missing (Val "misc") Missing [] [] [].

Definition slash_named_root : raw_category :=
  RawCategory (Val "1") (Val "Fruit/Veg") (Val "fruit-veg") Missing [] [] [].

Definition two_level_document : list raw_category :=
  [RawCategory (Val "1") (Val "Drinks") (Val "drinks") Missing [] []
     [RawCategory (Val "2") (Val "Juice") (Val "juice") Missing [] [] [];
      RawCategory (Val "3") (Val "Water") (Val "water") Missing [] [] []];
   RawCategory (Val "4") (Val "Bakery") (Val "bakery") Missing [] [] []].

(** The item list [get_category_items] hands to the loop on a visit. *)
Definition items_of (visit : Category * response) : list Item :=
  get_category_items (cat_slug visit.1) (cat_name visit.1) visit.2.

(** The statistics entry written for a visit with items. *)
Definition stat_of (products : Store) (visit : Category * response)
    : CategoryStat :=
  {| stat_name := cat_name visit.1;
     stat_path := cat_path visit.1;
     item_count := List.length (items_of visit);
     new_items := (merge_items products (items_of visit)).2 |}.

(** The scraper after one visit of a named category. *)
Definition after_visit (self : Scraper) (visit : Category * response)
    : Scraper :=
  {| all_categories := all_categories self;
     all_products := (merge_items (all_products self) (items_of visit)).1;
     category_stats :=
       match items_of visit with
       | [] => category_stats self
       | _ :: _ =>
           <[cat_slug visit.1 := stat_of (all_products self) visit]>
             (category_stats self)
       end;
     stats_order :=
       match items_of visit with
       | [] => stats_order self
       | _ :: _ =>
           keys_after_set (category_stats self) (stats_order self)
             (cat_slug visit.1)
       end |}.

(** Sample items, categories and scrapers. *)
Definition milk : Item :=
  {["id" := PStr "m1"; "name" := PStr "Milk"; "price" := PInt 450]}.
Definition milk_promo : Item :=
  {["id" := PStr "m1"; "name" := PStr "Milk 1L promo"; "price" := PInt 399]}.
Definition named_category (slug name : string) : Category :=
  {| cat_id := Some slug; cat_name := Some name; cat_slug := Some slug;
     cat_description := Some ""; cat_path := Some name; cat_level := 0;
     cat_parent_path := Some ""; cat_image_url := None;
     cat_has_subcategories := false |}.
Definition empty_scraper (categories : list Category) : Scraper :=
  {| all_categories := categories; all_products := ∅; category_stats := ∅;
     stats_order := [] |}.

(** The request of the visit was answered with a 2xx response. *)
Definition succeeded (visit : Category * response) : bool :=
  match visit.2 with
  | RespOk _ => true
  | _ => false
  end.

Definition product (id : string) : Item := {["id" := PStr id]}.

Definition three_categories : list Category :=
  [named_category "a" "A"; named_category "b" "B"; named_category "c" "C"].

(** A answers with five items, the request for B times out, C answers with
    three items. *)
Definition one_failure_session (i : nat) : response :=
  match i with
  | 0 => RespOk (map product ["a1"; "a2"; "a3"; "a4"; "a5"])
  | 2 => RespOk (map product ["c1"; "c2"; "c3"])
  | _ => RespFailure
  end.

(** A category without a name, as the flattener emits it for a node that
    has none. *)
Definition nameless_category (slug : string) : Category :=
  {| cat_id := Some slug; cat_name := None; cat_slug := Some slug;
     cat_description := Some ""; cat_path := None; cat_level := 0;
     cat_parent_path := Some ""; cat_image_url := None;
     cat_has_subcategories := false |}.

(** A answers with five items, the body of B's answer holds an item whose
    id is a list, C would answer with three items. *)
Definition unhashable_id_session (i : nat) : listing :=
  match i with
  | 0 => Listing (RespOk (map product ["a1"; "a2"; "a3"; "a4"; "a5"]))
  | 1 => UnhashableId
  | _ => Listing (RespOk (map product ["c1"; "c2"; "c3"]))
  end.

(** The same three categories, B without a name. *)
Definition nameless_in_the_middle : list Category :=
  [named_category "a" "A"; nameless_category "b"; named_category "c" "C"].

(** The visit can be carried out: the category has a name and the body has
    no unhashable id. *)
Definition passable (visit : Category * listing) : Prop :=
  is_Some (cat_name visit.1) /\ visit.2 <> UnhashableId.

(** Every entry counts at least one item and no more new items than
    items. *)
Definition stats_bounded (stats : gmap (option string) CategoryStat) : Prop :=
  forall slug st, stats !! slug = Some st ->
    0 < item_count st /\ new_items st <= item_count st.

(** The visit is of a category with this slug and brought items. *)
Definition yields_items (slug : option string)
    (visit : Category * response) : Prop :=
  cat_slug visit.1 = slug /\ items_of visit <> [].

Definition lone_category : list Category := [named_category "tea" "Tea"].

(** A scraper with one category at the cap and one just below. *)
Definition capped_scraper : Scraper :=
  {| all_categories := three_categories;
     all_products := ∅;
     category_stats :=
       {[Some "a" := {| stat_name := Some "A"; stat_path := Some "A";
                        item_count := 500; new_items := 480 |};
         Some "c" := {| stat_name := Some "C"; stat_path := Some "C";
                        item_count := 499; new_items := 499 |}]};
     stats_order := [Some "a"; Some "c"] |}.

(** [stats_order] lists the keys of [category_stats], each once. *)
Definition stats_ordered (self : Scraper) : Prop :=
  NoDup (stats_order self) /\
  list_to_set (stats_order self) = dom (category_stats self).

(** Six categories, and a session that answers every request with a page of
    500 items. *)
Definition six_categories : list Category :=
  [named_category "a" "A"; named_category "b" "B"; named_category "c" "C";
   named_category "d" "D"; named_category "e" "E"; named_category "f" "F"].

Definition full_pages (i : nat) : response :=
  RespOk (repeat (product "p1") page_cap).

(** The number of new items every query of the list would yield, were all
    of them issued in order with no early stop. *)
Fixpoint spec_yields (products : Store) (exchanges : list (string * response))
    : list nat :=
  match exchanges with
  | [] => []
  | (_, r) :: rest =>
      let '(products', new) := merge_items products (search_items r) in
      new :: spec_yields products' rest
  end.

(** Three queries; the second brings back what the first already did. *)
Definition three_exchanges : list (string * response) :=
  [("a", RespOk [product "p1"]);
   ("b", RespOk [product "p1"]);
   ("c", RespOk [product "p2"])].

(** The response to batch [n] has fewer than 500 items. *)
Definition short_answer (session : nat -> response) (n : nat) : Prop :=
  List.length (search_items (session n)) < 500.

(** A session that answers every batch with the same 500 items: after the
    first batch every item is a duplicate. *)
Definition same_page_session (n : nat) : response :=
  RespOk (repeat (product "p1") 500).

(** ** Notions for the properties of the remaining code *)

(** The truthy ids carried by a list of items. *)
Definition item_ids (items : list Item) : gset pyval :=
  list_to_set
    (List.filter truthy (map (fun item => item_get item "id") items)).

(** Every product is stored under its own id, and that id is truthy. *)
Definition well_keyed (products : Store) : Prop :=
  forall k p, products !! k = Some p ->
    item_get p "id" = k /\ truthy k = true.

(** The visit brought at least one item. *)
Definition has_items (visit : Category * response) : bool :=
  match items_of visit with
  | [] => false
  | _ :: _ => true
  end.

(** The sum of the [new_items] fields of a statistics dictionary. *)
Definition sum_new (stats : gmap (option string) CategoryStat) : nat :=
  map_fold (fun _ st acc => new_items st + acc) 0 stats.

(** Every node of the document has a name (a string, possibly empty). *)
Fixpoint named_nodes (c : raw_category) : bool :=
  match c with
  | RawCategory _ n _ _ _ _ subs =>
      match n with
      | Val _ => true
      | _ => false
      end && forallb named_nodes subs
  end.

(** A record of [extract_all_categories] and a record of
    [_flatten_categories] describe the same node: same fields, and the level
    of the former is the number of slashes of the parent path of the
    latter. *)
Definition same_category (b : BravoCategory) (r : Category) : Prop :=
  bcat_id b = cat_id r /\
  bcat_name b = cat_name r /\
  bcat_slug b = cat_slug r /\
  bcat_description b = cat_description r /\
  bcat_path b = cat_path r /\
  bcat_has_subcategories b = cat_has_subcategories r /\
  bcat_image_url b = cat_image_url r /\
  exists q, cat_parent_path r = Some q /\ bcat_level b = count_char slash q.

(** In the emitted sequence, a record is flagged as having subcategories
    exactly when the record after it is one level deeper. *)
Definition flags_match_children (out : list Category) : Prop :=
  forall i r, out !! i = Some r ->
    (cat_has_subcategories r = true <->
     exists q, out !! S i = Some q /\ cat_level q = S (cat_level r)).

(** The ids of a list of products, in order. *)
Definition ids_of (products : list Item) : list pyval :=
  map (fun item => item_get item "id") products.

(** The product list of the batch loop holds no id twice, every id in it is
    truthy, and [product_ids] is the set of its ids. *)
Definition batch_ok (st : WoltCompleteScraper.BatchState) : Prop :=
  NoDup (ids_of (WoltCompleteScraper.all_products st)) /\
  Forall (fun k => truthy k = true)
    (ids_of (WoltCompleteScraper.all_products st)) /\
  forall k, k ∈ WoltCompleteScraper.product_ids st <->
            k ∈ ids_of (WoltCompleteScraper.all_products st).

(** A block of the emitted sequence at depth [lvl]: its flags match, none of
    its records is above [lvl], and it starts at [lvl]. *)
Definition flat_block (lvl : nat) (out : list Category) : Prop :=
  flags_match_children out /\
  (forall i r, out !! i = Some r -> lvl <= cat_level r) /\
  (forall q, out !! 0 = Some q -> cat_level q = lvl).

(** The parent path of a record has one slash less than the record's
    level. *)
Definition parent_one_up (r : Category) : Prop :=
  exists q, cat_parent_path r = Some q /\
            count_char slash q = Nat.pred (cat_level r).

(** The counters after a visit. *)
Definition bump_tally (t : Tally) (visit : Category * response) : Tally :=
  {| total_requests := S (total_requests t);
     successful_requests :=
       successful_requests t + (if has_items visit then 1 else 0);
     categories_with_items :=
       categories_with_items t + (if has_items visit then 1 else 0) |}.

(** The same for a set of ids and a list of products taken apart. *)
Definition batch_inv (ids : gset pyval) (products : list Item) : Prop :=
  NoDup (ids_of products) /\
  Forall (fun k => truthy k = true) (ids_of products) /\
  forall k, k ∈ ids <-> k ∈ ids_of products.

(** A session whose first batch is full and whose second batch is short and
    repeats items. *)
Definition two_batches (n : nat) : response :=
  match n with
  | 1 => RespOk (repeat (product "p1") 500)
  | _ => RespOk [product "p1"; product "p2"; product "p2"]
  end.

(** * Properties *)

(** ** Category tree flattener *)

Lemma flatten_category_unfold pp lvl c :
  flatten_category pp lvl c
  = cat_info pp lvl c
      :: _flatten_categories (raw_subcategories c)
           (cat_path (cat_info pp lvl c)) (S lvl).
Proof. destruct c; reflexivity. Qed.

Lemma flatten_categories_cons c rest pp lvl :
  _flatten_categories (c :: rest) pp lvl
  = (cat_info pp lvl c
       :: _flatten_categories (raw_subcategories c)
            (cat_path (cat_info pp lvl c)) (S lvl)
       ++ _flatten_categories rest pp lvl)%list.
Proof.
  unfold _flatten_categories at 1. simpl flat_map.
  rewrite flatten_category_unfold. reflexivity.
Qed.

Lemma emitted_for_cat_info pp lvl c : emitted_for c (cat_info pp lvl c).
Proof. repeat split. Qed.

Lemma flatten_category_preorder c :
  forall pp lvl, Forall2 emitted_for (spec_preorder c) (flatten_category pp lvl c).
Proof.
  induction c as [i n s d im ids subs IH] using raw_category_rect'.
  intros pp lvl. simpl.
  constructor; [apply (emitted_for_cat_info pp lvl (RawCategory i n s d im ids subs)) |].
  generalize (make_path pp (get n)) (S lvl). intros pp' lvl'.
  induction IH as [| c subs Hc _ IHsubs]; simpl.
  - constructor.
  - apply Forall2_app; [apply Hc | apply IHsubs].
Qed.

Lemma flatten_categories_preorder cats pp lvl :
  Forall2 emitted_for (spec_preorder_nodes cats)
    (_flatten_categories cats pp lvl).
Proof.
  unfold spec_preorder_nodes, _flatten_categories.
  induction cats as [| c cats IH]; simpl.
  - constructor.
  - apply Forall2_app; [apply flatten_category_preorder | apply IH].
Qed.


Lemma complete_flatten_category c : forall pp lvl,
  WoltCompleteScraper.flatten_category pp lvl c
  = map without_has_subcategories (flatten_category pp lvl c).
Proof.
  induction c as [i n s d im ids subs IH] using raw_category_rect'.
  intros pp lvl. simpl. f_equal.
  generalize (make_path pp (get n)) (S lvl). intros pp' lvl'.
  induction IH as [| c subs Hc _ IHsubs]; simpl.
  - reflexivity.
  - rewrite map_app, Hc, IHsubs. reflexivity.
Qed.

Lemma complete_flatten_categories cats pp lvl :
  WoltCompleteScraper._flatten_categories cats pp lvl
  = map without_has_subcategories (_flatten_categories cats pp lvl).
Proof.
  unfold WoltCompleteScraper._flatten_categories, _flatten_categories.
  induction cats as [| c cats IH]; simpl.
  - reflexivity.
  - rewrite map_app, complete_flatten_category, IH. reflexivity.
Qed.

Lemma nested_under_nil pp lvl : nested_under pp lvl [].
Proof. intros i r Hi. rewrite lookup_nil in Hi. discriminate. Qed.

Lemma nested_under_app pp lvl (l1 l2 : list Category) :
  nested_under pp lvl l1 -> nested_under pp lvl l2 ->
  nested_under pp lvl (l1 ++ l2)%list.
Proof.
  intros H1 H2 i r Hi.
  apply lookup_app_Some in Hi as [Hi | [Hlen Hi]].
  - destruct (H1 i r Hi) as (Hle & Heq & Hdeep).
    split; [exact Hle | split; [exact Heq |]].
    intros Hlt. destruct (Hdeep Hlt) as (j & q & Hj & Hq & Hlev & Hpath & Hbetween).
    exists j, q. repeat split; try assumption.
    + apply lookup_app_l_Some. exact Hq.
    + intros m x Hm Hx. apply (Hbetween m x Hm).
      apply lookup_lt_Some in Hi.
      rewrite lookup_app_l in Hx by lia. exact Hx.
  - destruct (H2 _ r Hi) as (Hle & Heq & Hdeep).
    split; [exact Hle | split; [exact Heq |]].
    intros Hlt. destruct (Hdeep Hlt) as (j & q & Hj & Hq & Hlev & Hpath & Hbetween).
    exists (List.length l1 + j), q. repeat split; try assumption.
    + lia.
    + rewrite lookup_app_r by lia.
      replace (List.length l1 + j - List.length l1) with j by lia. exact Hq.
    + intros m x Hm Hx.
      rewrite lookup_app_r in Hx by lia.
      apply (Hbetween (m - List.length l1) x); [lia | exact Hx].
Qed.

Lemma nested_under_cons pp lvl info (sub : list Category) :
  cat_level info = lvl -> cat_parent_path info = pp ->
  nested_under (cat_path info) (S lvl) sub ->
  nested_under pp lvl (info :: sub).
Proof.
  intros Hlvl Hpp Hsub [| i] r Hi; simpl in Hi.
  - injection Hi as <-. split; [lia | split; [auto | lia]].
  - destruct (Hsub i r Hi) as (Hle & Heq & Hdeep).
    split; [lia | split; [lia |]].
    intros _. destruct (Nat.eq_dec (cat_level r) (S lvl)) as [Hr | Hr].
    + exists 0, info. repeat split; try lia.
      * symmetry. apply Heq. exact Hr.
      * intros [| m] x Hm Hx; [lia |]. simpl in Hx.
        destruct (Hsub m x Hx) as (Hle' & _). lia.
    + destruct Hdeep as (j & q & Hj & Hq & Hlev & Hpath & Hbetween); [lia |].
      exists (S j), q. repeat split; try assumption; try lia.
      intros [| m] x Hm Hx; [lia |]. simpl in Hx.
      apply (Hbetween m x); [lia | exact Hx].
Qed.

Lemma flatten_category_nested c :
  forall pp lvl, nested_under pp lvl (flatten_category pp lvl c).
Proof.
  induction c as [i n s d im ids subs IH] using raw_category_rect'.
  intros pp lvl. simpl.
  apply nested_under_cons; [reflexivity | reflexivity |]. simpl.
  generalize (make_path pp (get n)) (S lvl). intros pp' lvl'.
  induction IH as [| c subs Hc _ IHsubs]; simpl.
  - apply nested_under_nil.
  - apply nested_under_app; [apply Hc | apply IHsubs].
Qed.

Lemma flatten_categories_nested cats pp lvl :
  nested_under pp lvl (_flatten_categories cats pp lvl).
Proof.
  unfold _flatten_categories.
  induction cats as [| c cats IH]; simpl.
  - apply nested_under_nil.
  - apply nested_under_app; [apply flatten_category_nested | apply IH].
Qed.

Lemma count_char_app c (a b : string) :
  count_char c (a ++ b) = count_char c a + count_char c b.
Proof. induction a as [| x a IH]; simpl; [reflexivity | rewrite IH; lia]. Qed.

Lemma append_slash_nonempty (a b : string) :
  String.eqb (a ++ "/" ++ b) "" = false.
Proof. destruct a; reflexivity. Qed.

Lemma plain_path pp lvl (s : string) :
  depth_of_parent pp lvl ->
  String.eqb s "" = false -> count_char slash s = 0 ->
  exists p, make_path pp (Some s) = Some p /\
    count_char slash p = lvl /\ depth_of_parent (Some p) (S lvl).
Proof.
  intros Hd Hs Hc. destruct pp as [q |]; [| contradiction].
  unfold make_path, depth_of_parent in *. simpl.
  destruct (String.eqb q "") eqn:Hq; simpl.
  - exists s. rewrite Hs. subst lvl. repeat split; congruence.
  - exists (q ++ "/" ++ s). rewrite append_slash_nonempty.
    rewrite !count_char_app. simpl. rewrite Hc. subst lvl.
    repeat split; lia.
Qed.

Lemma flatten_category_slashes c :
  plain_names c = true ->
  forall pp lvl, depth_of_parent pp lvl ->
    Forall level_counts_slashes (flatten_category pp lvl c).
Proof.
  induction c as [i n s d im ids subs IH] using raw_category_rect'.
  intros Hplain pp lvl Hd. simpl in Hplain.
  apply andb_true_iff in Hplain as [Hn Hsubs].
  destruct n as [| | nm]; try discriminate.
  apply andb_true_iff in Hn as [Hne Hcount].
  apply negb_true_iff in Hne. apply Nat.eqb_eq in Hcount.
  destruct (plain_path pp lvl nm Hd Hne Hcount) as (p & Hp & Hpc & Hd').
  simpl. constructor.
  - exists p. split; [exact Hp | exact Hpc].
  - simpl in Hp. rewrite Hp. clear Hp.
    induction IH as [| c subs Hc _ IHsubs]; simpl.
    + constructor.
    + simpl in Hsubs. apply andb_true_iff in Hsubs as [H1 H2].
      apply Forall_app. split; [apply Hc; assumption | apply IHsubs; assumption].
Qed.

Lemma flatten_document_slashes cats :
  forallb plain_names cats = true ->
  Forall level_counts_slashes (flatten_document cats).
Proof.
  unfold flatten_document, _flatten_categories.
  induction cats as [| c cats IH]; simpl; intros H.
  - constructor.
  - apply andb_true_iff in H as [H1 H2].
    apply Forall_app. split; [| apply IH; exact H2].
    apply flatten_category_slashes; [exact H1 | reflexivity].
Qed.

(** ** Product store *)

Lemma merge_item_keeps (products : Store) n item k p :
  products !! k = Some p -> (merge_item (products, n) item).1 !! k = Some p.
Proof.
  intros Hk. unfold merge_item.
  destruct (truthy (item_get item "id")); [| exact Hk].
  destruct (products !! item_get item "id") eqn:Hid; [exact Hk |].
  simpl. rewrite lookup_insert_ne; [exact Hk | congruence].
Qed.

Lemma fold_merge_keeps items : forall (acc : Store * nat) k p,
  acc.1 !! k = Some p -> (fold_left merge_item items acc).1 !! k = Some p.
Proof.
  induction items as [| item items IH]; intros [products n] k p Hk; simpl.
  - exact Hk.
  - apply IH. apply merge_item_keeps. exact Hk.
Qed.

Lemma merge_items_keeps (products : Store) items k p :
  products !! k = Some p -> (merge_items products items).1 !! k = Some p.
Proof. intros Hk. apply fold_merge_keeps. exact Hk. Qed.

Lemma merge_item_count (products : Store) n item :
  merge_item (products, n) item
  = ((merge_item (products, 0) item).1, n + (merge_item (products, 0) item).2).
Proof.
  unfold merge_item. destruct (truthy (item_get item "id")); simpl.
  - destruct (products !! item_get item "id"); simpl; f_equal; lia.
  - f_equal; lia.
Qed.

Lemma fold_merge_count items : forall (products : Store) n,
  fold_left merge_item items (products, n)
  = ((merge_items products items).1, n + (merge_items products items).2).
Proof.
  unfold merge_items.
  induction items as [| item items IH]; intros products n; cbn [fold_left].
  - simpl. f_equal; lia.
  - rewrite (merge_item_count products n).
    destruct (merge_item (products, 0) item) as [products' m] eqn:Hm.
    cbn [fst snd].
    rewrite (IH products' (n + m)), (IH products' m). cbn [fst snd].
    f_equal. lia.
Qed.

Lemma merge_items_cons (products : Store) item items :
  merge_items products (item :: items)
  = let '(products', m) := merge_item (products, 0) item in
    ((merge_items products' items).1, m + (merge_items products' items).2).
Proof.
  unfold merge_items at 1. cbn [fold_left].
  destruct (merge_item (products, 0) item) as [products' m].
  apply fold_merge_count.
Qed.

Lemma merge_item_size (products : Store) item :
  size (merge_item (products, 0) item).1
  = size products + (merge_item (products, 0) item).2.
Proof.
  unfold merge_item. destruct (truthy (item_get item "id")); simpl; [| lia].
  destruct (products !! item_get item "id") eqn:Hid; simpl; [lia |].
  rewrite map_size_insert_None by exact Hid. lia.
Qed.

Lemma merge_items_size items : forall products : Store,
  size (merge_items products items).1
  = size products + (merge_items products items).2.
Proof.
  induction items as [| item items IH]; intros products.
  - unfold merge_items. simpl. lia.
  - rewrite merge_items_cons. pose proof (merge_item_size products item) as Hs.
    destruct (merge_item (products, 0) item) as [products' m]. simpl in *.
    rewrite IH. lia.
Qed.

Lemma merge_items_absorbed items : forall products : Store,
  Forall (fun item => truthy (item_get item "id") = true ->
                      is_Some (products !! item_get item "id")) items ->
  merge_items products items = (products, 0).
Proof.
  induction items as [| item items IH]; intros products Hall.
  - reflexivity.
  - inversion Hall as [| ? ? Hitem Hrest]; subst.
    rewrite merge_items_cons.
    assert (merge_item (products, 0) item = (products, 0)) as ->.
    { unfold merge_item. destruct (truthy (item_get item "id")); [| reflexivity].
      destruct (Hitem eq_refl) as [p ->]. reflexivity. }
    rewrite (IH products Hrest). reflexivity.
Qed.

Lemma merge_items_misses items : forall (products : Store) k,
  products !! k = None ->
  Forall (fun item => item_get item "id" <> k) items ->
  (merge_items products items).1 !! k = None.
Proof.
  induction items as [| item items IH]; intros products k Hk Hall.
  - exact Hk.
  - inversion Hall as [| ? ? Hitem Hrest]; subst.
    rewrite merge_items_cons.
    destruct (merge_item (products, 0) item) as [products' m] eqn:Hm. simpl.
    apply IH; [| exact Hrest].
    unfold merge_item in Hm. destruct (truthy (item_get item "id")).
    + destruct (products !! item_get item "id"); injection Hm as <- <-;
        [exact Hk |].
      rewrite lookup_insert_ne; [exact Hk | exact Hitem].
    + injection Hm as <- <-. exact Hk.
Qed.

Lemma merge_items_app (products : Store) l1 l2 :
  (merge_items products (l1 ++ l2)).1
  = (merge_items (merge_items products l1).1 l2).1.
Proof.
  unfold merge_items at 1. rewrite fold_left_app.
  fold (merge_items products l1).
  destruct (merge_items products l1) as [products' m].
  rewrite fold_merge_count. reflexivity.
Qed.

Lemma merge_items_first (products : Store) pre item post k :
  products !! k = None -> truthy k = true ->
  Forall (fun x => item_get x "id" <> k) pre ->
  item_get item "id" = k ->
  (merge_items products (pre ++ item :: post)).1 !! k = Some item.
Proof.
  intros Hk Ht Hpre Hid.
  rewrite merge_items_app.
  pose proof (merge_items_misses pre products k Hk Hpre) as Hmiss.
  set (mid := (merge_items products pre).1) in *.
  rewrite merge_items_cons.
  destruct (merge_item (mid, 0) item) as [products' m] eqn:Hm. simpl.
  apply merge_items_keeps.
  unfold merge_item in Hm. rewrite Hid, Ht, Hmiss in Hm.
  injection Hm as <- <-. apply lookup_insert_eq.
Qed.

(** *** Order, levels and parent paths *)

(** C6 does not hold as worded: a node without name and identifier is
    emitted, but its [name] and [id] fields are [None], not the empty
    string. *)
Lemma nameless_node_fields_cex :
  map cat_name (flatten_document [nameless_node]) = [None] /\
  map cat_id (flatten_document [nameless_node]) = [None] /\
  map cat_name (flatten_document [nameless_node]) <> [Some ""] /\
  map cat_id (flatten_document [nameless_node]) <> [Some ""].
Proof. repeat split; try reflexivity; discriminate. Qed.

(** C6, amended: the flattener emits exactly one record per node of the
    document, in pre-order: the output lines up, position by position, with
    the pre-order enumeration of the nodes (a node, then its whole subtree,
    siblings in source order), and each record carries its node's own fields.
    A node without a name or identifier is emitted all the same, with [None]
    in that field (only a missing description becomes the empty string).
    The flattener is a function of the document, so two passes over the same
    document give the same sequence.  The flattener of
    [wolt_complete_scraper.py] emits the same records in the same order,
    without the ['has_subcategories'] key. *)
Theorem flatten_preorder_one_record_per_node
    (cats : list raw_category) (pp : option string) (lvl : nat) :
  Forall2 emitted_for (spec_preorder_nodes cats)
    (_flatten_categories cats pp lvl) /\
  WoltCompleteScraper._flatten_categories cats pp lvl
    = map without_has_subcategories (_flatten_categories cats pp lvl) /\
  List.length (_flatten_categories cats pp lvl)
    = List.length (spec_preorder_nodes cats) /\
  match cats with
  | [] => _flatten_categories cats pp lvl = []
  | c :: rest =>
      _flatten_categories cats pp lvl
      = (cat_info pp lvl c
           :: _flatten_categories (raw_subcategories c)
                (cat_path (cat_info pp lvl c)) (S lvl)
           ++ _flatten_categories rest pp lvl)%list
  end.
Proof.
  pose proof (flatten_categories_preorder cats pp lvl) as H.
  split; [exact H | split; [apply complete_flatten_categories | split]].
  - symmetry. eapply Forall2_length. exact H.
  - destruct cats as [| c rest]; [reflexivity | apply flatten_categories_cons].
Qed.

(** *** Levels and parent paths against the document *)

Lemma path_along_snoc chain c :
  path_along (chain ++ [c])%list
  = make_path (path_along chain) (get (raw_name c)).
Proof. unfold path_along. rewrite fold_left_app. reflexivity. Qed.

Lemma spec_lineage_nodes c : forall anc,
  map snd (spec_lineage anc c) = spec_preorder c.
Proof.
  induction c as [i n s d im ids subs IH] using raw_category_rect'.
  intros anc. simpl. f_equal.
  generalize (anc ++ [RawCategory i n s d im ids subs])%list. intros anc'.
  induction IH as [| c subs Hc _ IHsubs]; simpl; [reflexivity |].
  rewrite map_app, Hc, IHsubs. reflexivity.
Qed.

Lemma spec_lineages_nodes cats :
  map snd (spec_lineages cats) = spec_preorder_nodes cats.
Proof.
  unfold spec_lineages, spec_preorder_nodes.
  induction cats as [| c cats IH]; simpl; [reflexivity |].
  rewrite map_app, spec_lineage_nodes, IH. reflexivity.
Qed.

Lemma flatten_category_placed c : forall anc,
  Forall2 placed (spec_lineage anc c)
    (flatten_category (path_along anc) (List.length anc) c).
Proof.
  induction c as [i n s d im ids subs IH] using raw_category_rect'.
  intros anc. simpl. constructor.
  - unfold placed. cbn [fst snd cat_level cat_parent_path cat_path cat_info].
    rewrite path_along_snoc. repeat split.
  - set (c := RawCategory i n s d im ids subs).
    replace (make_path (path_along anc) (get n))
      with (path_along (anc ++ [c])%list) by apply path_along_snoc.
    replace (S (List.length anc)) with (List.length (anc ++ [c])%list)
      by (rewrite length_app; simpl; lia).
    generalize (anc ++ [c])%list. intros anc'.
    induction IH as [| x subs Hx _ IHsubs]; simpl.
    + constructor.
    + apply Forall2_app; [apply Hx | apply IHsubs].
Qed.

Lemma flatten_document_placed cats :
  Forall2 placed (spec_lineages cats) (flatten_document cats).
Proof.
  unfold spec_lineages, flatten_document, _flatten_categories.
  induction cats as [| c cats IH]; simpl.
  - constructor.
  - apply Forall2_app; [apply (flatten_category_placed c []) | apply IH].
Qed.

Lemma lineage_forest_parent subs :
  Forall (fun c => forall anc0 i chain n,
            spec_lineage anc0 c !! i = Some (chain, n) ->
            chain = anc0 \/
            exists anc p j, chain = (anc ++ [p])%list /\ j < i /\
              spec_lineage anc0 c !! j = Some (anc, p)) subs ->
  forall anc0 i chain n,
    flat_map (spec_lineage anc0) subs !! i = Some (chain, n) ->
    chain = anc0 \/
    exists anc p j, chain = (anc ++ [p])%list /\ j < i /\
      flat_map (spec_lineage anc0) subs !! j = Some (anc, p).
Proof.
  induction 1 as [| c subs Hc _ IH]; intros anc0 i chain n Hi; simpl in Hi.
  - rewrite lookup_nil in Hi. discriminate.
  - simpl. apply lookup_app_Some in Hi as [Hi | [Hlen Hi]].
    + destruct (Hc _ _ _ _ Hi) as [-> | (anc & p & j & -> & Hj & Hp)];
        [left; reflexivity | right].
      exists anc, p, j. split; [reflexivity | split; [exact Hj |]].
      apply lookup_app_l_Some. exact Hp.
    + destruct (IH _ _ _ _ Hi) as [-> | (anc & p & j & -> & Hj & Hp)];
        [left; reflexivity | right].
      exists anc, p, (List.length (spec_lineage anc0 c) + j).
      split; [reflexivity | split; [lia |]].
      rewrite lookup_app_r by lia.
      replace (List.length (spec_lineage anc0 c) + j
               - List.length (spec_lineage anc0 c)) with j by lia.
      exact Hp.
Qed.

Lemma lineage_parent c : forall anc0 i chain n,
  spec_lineage anc0 c !! i = Some (chain, n) ->
  chain = anc0 \/
  exists anc p j, chain = (anc ++ [p])%list /\ j < i /\
    spec_lineage anc0 c !! j = Some (anc, p).
Proof.
  induction c as [id nm s d im ids subs IH] using raw_category_rect'.
  intros anc0 [| i] chain n Hi; simpl in Hi.
  - injection Hi as <- _. left. reflexivity.
  - right.
    destruct (lineage_forest_parent subs IH _ _ _ _ Hi)
      as [-> | (anc & p & j & -> & Hj & Hp)].
    + exists anc0, (RawCategory id nm s d im ids subs), 0.
      split; [reflexivity | split; [lia | reflexivity]].
    + exists anc, p, (S j). split; [reflexivity | split; [lia | exact Hp]].
Qed.

Lemma spec_lineages_parent cats i anc p n :
  spec_lineages cats !! i = Some ((anc ++ [p])%list, n) ->
  exists j, j < i /\ spec_lineages cats !! j = Some (anc, p).
Proof.
  intros Hi.
  assert (Hall : Forall (fun c => forall anc0 i chain n,
            spec_lineage anc0 c !! i = Some (chain, n) ->
            chain = anc0 \/
            exists anc p j, chain = (anc ++ [p])%list /\ j < i /\
              spec_lineage anc0 c !! j = Some (anc, p)) cats).
  { apply Forall_forall. intros c _. apply lineage_parent. }
  destruct (lineage_forest_parent cats Hall _ _ _ _ Hi)
    as [Hnil | (anc' & p' & j & Heq & Hj & Hp)].
  - destruct anc; discriminate.
  - apply app_inj_tail in Heq as [-> ->]. exists j. split; assumption.
Qed.

(** C7 does not hold as worded: a root category whose name contains a slash
    has level 0 and a path with one separator. *)
Lemma slash_in_name_cex :
  ~ Forall level_counts_slashes (flatten_document [slash_named_root]).
Proof.
  intros H. inversion H as [| r l Hr _]; subst.
  destruct Hr as (p & Hp & Hc). simpl in Hp. injection Hp as <-.
  simpl in Hc. discriminate.
Qed.

(** C7, amended: in the output of [_flatten_categories] the level of a record
    is the nesting depth of its node.  The records stand, position by
    position, for the nodes of the document in pre-order; the level of each
    is the number of ancestors of its node, and its parent path is the path
    of the record emitted for the node's parent, which comes earlier in the
    sequence, one level up.  Root records have level 0 and an empty parent
    path; every deeper record has its immediate ancestor before it as the
    nearest earlier record one level up.  When every name of the document is
    a non-empty string without a slash, the level of every record is also
    the number of slashes of its path. *)
Theorem flatten_levels_and_parents (cats : list raw_category) :
  let out := flatten_document cats in
  let nodes := spec_lineages cats in
  map snd nodes = spec_preorder_nodes cats /\
  Forall2 placed nodes out /\
  (forall i n r,
     nodes !! i = Some ([], n) -> out !! i = Some r ->
     cat_level r = 0 /\ cat_parent_path r = Some "") /\
  (forall i anc p n r,
     nodes !! i = Some ((anc ++ [p])%list, n) -> out !! i = Some r ->
     cat_level r = S (List.length anc) /\
     exists j q,
       j < i /\ nodes !! j = Some (anc, p) /\ out !! j = Some q /\
       S (cat_level q) = cat_level r /\
       cat_path q = cat_parent_path r) /\
  nested_under (Some "") 0 out /\
  (forallb plain_names cats = true -> Forall level_counts_slashes out).
Proof.
  intros out nodes.
  pose proof (flatten_document_placed cats) as Hplaced.
  fold out nodes in Hplaced.
  split; [apply spec_lineages_nodes |]. split; [exact Hplaced |].
  split; [| split; [| split]].
  - intros i n r Hn Hr.
    destruct (Forall2_lookup_lr _ _ _ _ _ _ Hplaced Hn Hr) as (Hl & Hp & _).
    cbn [fst] in Hl, Hp. split; [exact Hl | exact Hp].
  - intros i anc p n r Hn Hr.
    destruct (Forall2_lookup_lr _ _ _ _ _ _ Hplaced Hn Hr) as (Hl & Hp & _).
    cbn [fst] in Hl, Hp. rewrite length_app in Hl. cbn [List.length] in Hl.
    split; [lia |].
    destruct (spec_lineages_parent cats i anc p n Hn) as (j & Hj & Hparent).
    destruct (Forall2_lookup_l _ _ _ _ _ Hplaced Hparent)
      as (q & Hq & Hlq & _ & Hpq).
    cbn [fst snd] in Hlq, Hpq.
    exists j, q. repeat split; try assumption; [lia | congruence].
  - apply flatten_categories_nested.
  - apply flatten_document_slashes.
Qed.

Lemma flatten_levels_and_parents_witness :
  forallb plain_names two_level_document = true /\
  Forall level_counts_slashes (flatten_document two_level_document) /\
  map (fun entry => List.length entry.1) (spec_lineages two_level_document)
  = [0; 1; 1; 0] /\
  map cat_level (flatten_document two_level_document) = [0; 1; 1; 0].
Proof.
  split; [reflexivity |].
  destruct (flatten_levels_and_parents two_level_document)
    as (_ & Hplaced & _ & _ & _ & Hslashes).
  split; [apply Hslashes; reflexivity |].
  split; [reflexivity |].
  clear Hslashes. cbv zeta in Hplaced.
  assert (Hlevels : forall nodes out, Forall2 placed nodes out ->
            map cat_level out
            = map (fun entry => List.length entry.1) nodes).
  { induction 1 as [| e r nodes out (Hl & _) _ IH]; simpl;
      [reflexivity | rewrite Hl, IH; reflexivity]. }
  rewrite (Hlevels _ _ Hplaced). reflexivity.
Defined.

(** The sample document, flattened: path, level and parent path of every
    record. *)
Lemma flatten_two_level_document :
  map (fun r => (cat_path r, cat_level r, cat_parent_path r))
    (flatten_document two_level_document)
  = [(Some "Drinks", 0, Some "");
     (Some "Drinks/Juice", 1, Some "Drinks");
     (Some "Drinks/Water", 1, Some "Drinks");
     (Some "Bakery", 0, Some "")].
Proof. reflexivity. Qed.

(** A child of a nameless root: the root's path is [None], which the child
    receives as its parent path and which leaves its own path without a
    separator. *)
Lemma flatten_under_nameless_root :
  map (fun r => (cat_path r, cat_level r, cat_parent_path r))
    (flatten_document
       [RawCategory Missing Missing Missing Missing [] []
          [RawCategory (Val "2") (Val "Juice") (Val "juice") Missing [] [] []]])
  = [(None, 0, Some ""); (Some "Juice", 1, None)].
Proof. reflexivity. Qed.

(** The variant of [wolt_bravo_scraper.py] counts the slashes of the parent
    path: a child of a root gets level 0 like the root itself. *)
Lemma extract_all_categories_levels :
  option_map (map (fun r => (bcat_path r, bcat_level r)))
    (extract_all_categories two_level_document (Some ""))
  = Some [(Some "Drinks", 0); (Some "Drinks/Juice", 0);
          (Some "Drinks/Water", 0); (Some "Bakery", 0)].
Proof. reflexivity. Qed.

(** There, a category under a nameless root makes the extraction raise. *)
Lemma extract_under_nameless_root :
  extract_all_categories
    [RawCategory Missing Missing Missing Missing [] []
       [RawCategory (Val "2") (Val "Juice") (Val "juice") Missing [] [] []]]
    (Some "")
  = None.
Proof. reflexivity. Qed.

(** ** Harvest loop *)

Lemma merge_items_new_le items : forall products : Store,
  (merge_items products items).2 <= List.length items.
Proof.
  induction items as [| item items IH]; intros products.
  - unfold merge_items. simpl. lia.
  - rewrite merge_items_cons.
    destruct (merge_item (products, 0) item) as [products' m] eqn:Hm.
    cbn [snd]. specialize (IH products').
    assert (m <= 1); [| simpl; lia].
    unfold merge_item in Hm. destruct (truthy (item_get item "id")).
    + destruct (products !! item_get item "id"); injection Hm as <- <-; lia.
    + injection Hm as <- <-. lia.
Qed.

Lemma merge_items_covers items : forall (products : Store) item,
  In item items -> truthy (item_get item "id") = true ->
  is_Some ((merge_items products items).1 !! item_get item "id").
Proof.
  induction items as [| x items IH]; intros products item Hin Ht.
  - destruct Hin.
  - rewrite merge_items_cons.
    destruct (merge_item (products, 0) x) as [products' m] eqn:Hm. cbn [fst].
    destruct Hin as [-> | Hin]; [| apply IH; assumption].
    assert (is_Some (products' !! item_get item "id")) as [p Hp].
    { unfold merge_item in Hm. rewrite Ht in Hm.
      destruct (products !! item_get item "id") eqn:Hid;
        injection Hm as <- <-; [eauto |].
      rewrite lookup_insert_eq. eauto. }
    exists p. apply merge_items_keeps. exact Hp.
Qed.

(** A request that fails, by a 404, by another HTTP status or by any other
    exception, hands the caller the same empty list. *)
Lemma get_category_items_failed slug name r :
  (forall items, r <> RespOk items) -> get_category_items slug name r = [].
Proof.
  intros H. destruct r as [items | status |]; [| | reflexivity].
  - destruct (H items eq_refl).
  - simpl. destruct (Nat.eqb status 404); reflexivity.
Qed.

(** What one visit does to the scraper, when the category has a name. *)
Lemma scrape_category_named self t visit :
  is_Some (cat_name visit.1) ->
  exists t',
    scrape_category (self, t) visit = Some (after_visit self visit, t') /\
    total_requests t' = S (total_requests t).
Proof.
  destruct visit as [c r]. intros [nm Hnm]. simpl in Hnm.
  unfold scrape_category, after_visit, stat_of, items_of. cbn [fst snd]. rewrite !Hnm.
  destruct (get_category_items (cat_slug c) (Some nm) r) as [| x xs] eqn:Hitems.
  - eexists. split.
    + destruct self; reflexivity.
    + reflexivity.
  - destruct (merge_items (all_products self) (x :: xs)) as [products new].
    eexists. split.
    + reflexivity.
    + reflexivity.
Qed.

Lemma scrape_category_inv self t visit self' t' :
  scrape_category (self, t) visit = Some (self', t') ->
  is_Some (cat_name visit.1).
Proof.
  destruct visit as [c r]. unfold scrape_category. cbn [fst].
  destruct (cat_name c); [eauto | discriminate].
Qed.

Lemma scrape_loop_named visits : forall self t,
  Forall (fun visit => is_Some (cat_name visit.1)) visits ->
  exists self' t',
    scrape_loop (self, t) visits = Some (self', t') /\
    total_requests t' = total_requests t + List.length visits.
Proof.
  induction visits as [| visit visits IH]; intros self t Hall.
  - exists self, t. split; [reflexivity | simpl; lia].
  - inversion Hall as [| ? ? Hv Hrest]; subst.
    destruct (scrape_category_named self t visit Hv) as (t1 & Hstep & Ht1).
    cbn [scrape_loop]. rewrite Hstep.
    destruct (IH (after_visit self visit) t1 Hrest)
      as (self' & t' & Hloop & Ht').
    exists self', t'. split; [exact Hloop | simpl; lia].
Qed.

Lemma scrape_loop_keeps visits : forall self t self' t' k p,
  scrape_loop (self, t) visits = Some (self', t') ->
  all_products self !! k = Some p -> all_products self' !! k = Some p.
Proof.
  induction visits as [| visit visits IH]; intros self t self' t' k p Hrun Hk.
  - injection Hrun as <- <-. exact Hk.
  - cbn [scrape_loop] in Hrun.
    destruct (scrape_category (self, t) visit) as [[self1 t1] |] eqn:Hstep;
      [| discriminate].
    pose proof (scrape_category_inv _ _ _ _ _ Hstep) as Hnamed.
    destruct (scrape_category_named self t visit Hnamed) as (t2 & Hstep' & _).
    rewrite Hstep in Hstep'. injection Hstep' as -> _.
    eapply IH; [exact Hrun |]. simpl. apply merge_items_keeps. exact Hk.
Qed.

Lemma sweep_loop_keeps exchanges : forall (products : Store) k p,
  products !! k = Some p -> (sweep_loop products exchanges).1 !! k = Some p.
Proof.
  induction exchanges as [| [query r] rest IH]; intros products k p Hk.
  - exact Hk.
  - simpl.
    pose proof (merge_items_keeps products (search_items r) k p Hk) as Hm.
    destruct (merge_items products (search_items r)) as [products' new].
    destruct (Nat.eqb new 0); [exact Hm |].
    specialize (IH products' k p Hm).
    destruct (sweep_loop products' rest) as [final issued]. exact IH.
Qed.

Lemma annotate_id slug name (item : Item) :
  item_get (annotate slug name item) "id" = item_get item "id".
Proof.
  unfold item_get, annotate.
  rewrite lookup_insert_ne by discriminate.
  rewrite lookup_insert_ne by discriminate. reflexivity.
Qed.

Lemma annotate_provenance slug name (item : Item) :
  item_get (annotate slug name item) "_category_slug" = of_str slug /\
  item_get (annotate slug name item) "_category_name" = of_str name.
Proof.
  unfold item_get, annotate. split.
  - rewrite lookup_insert_ne by discriminate.
    rewrite lookup_insert_eq. reflexivity.
  - rewrite lookup_insert_eq. reflexivity.
Qed.

(** C1: first writer wins.  Let a category response be the first to carry an
    item with a given (truthy) id: the id is not yet in the store and no
    earlier item of the response has it.  Then, whatever is merged later, by
    further category visits or by sweep queries, with whatever fields, the
    store keeps under that id the item of that first response, stamped with
    the slug and name of that category.  Merging an item with that id again
    leaves the whole store as it is and counts 0 new items, and every merge
    grows the store by exactly its count of new items, so an id never has
    more than one entry. *)
Theorem first_writer_wins
    (self self' : Scraper) (t t' : Tally) (category : Category)
    (pre post : list Item) (item : Item)
    (later : list (Category * response)) (exchanges : list (string * response)) :
  truthy (item_get item "id") = true ->
  all_products self !! item_get item "id" = None ->
  Forall (fun x => item_get x "id" <> item_get item "id") pre ->
  scrape_loop (self, t) ((category, RespOk (pre ++ item :: post)) :: later)
    = Some (self', t') ->
  let stored := annotate (cat_slug category) (cat_name category) item in
  let final := (sweep_loop (all_products self') exchanges).1 in
  all_products self' !! item_get item "id" = Some stored /\
  final !! item_get item "id" = Some stored /\
  item_get stored "_category_slug" = of_str (cat_slug category) /\
  item_get stored "_category_name" = of_str (cat_name category) /\
  (forall again, item_get again "id" = item_get item "id" ->
     merge_items final [again] = (final, 0)) /\
  (forall items,
     (merge_items final items).1 !! item_get item "id" = Some stored /\
     size (merge_items final items).1
       = size final + (merge_items final items).2).
Proof.
  intros Ht Hnew Hpre Hrun stored final.
  cbn [scrape_loop] in Hrun.
  destruct (scrape_category (self, t) (category, RespOk (pre ++ item :: post)))
    as [[self1 t1] |] eqn:Hstep; [| discriminate].
  pose proof (scrape_category_inv _ _ _ _ _ Hstep) as Hnamed.
  destruct (scrape_category_named self t _ Hnamed) as (t2 & Hstep' & _).
  rewrite Hstep in Hstep'. injection Hstep' as -> _.
  assert (all_products self' !! item_get item "id" = Some stored) as Hstored.
  { eapply scrape_loop_keeps; [exact Hrun |].
    unfold after_visit, items_of. cbn [all_products fst snd get_category_items].
    rewrite map_app. cbn [map].
    rewrite <- (annotate_id (cat_slug category) (cat_name category) item).
    apply merge_items_first.
    - rewrite annotate_id. exact Hnew.
    - rewrite annotate_id. exact Ht.
    - apply Forall_forall. intros x Hx. apply in_map_iff in Hx as (y & <- & Hy).
      rewrite !annotate_id. rewrite Forall_forall in Hpre. apply Hpre.
      exact Hy.
    - reflexivity. }
  assert (final !! item_get item "id" = Some stored) as Hfinal
    by (apply sweep_loop_keeps; exact Hstored).
  split; [exact Hstored | split; [exact Hfinal |]].
  split; [apply annotate_provenance | split; [apply annotate_provenance |]].
  split.
  - intros again Hagain. apply merge_items_absorbed.
    constructor; [| constructor]. intros _. rewrite Hagain. eauto.
  - intros items. split; [apply merge_items_keeps; exact Hfinal |].
    apply merge_items_size.
Qed.

Lemma first_writer_wins_witness :
  exists self' t',
    scrape_loop (empty_scraper [], tally0)
      [(named_category "dairy" "Dairy", RespOk [milk]);
       (named_category "promo" "Promotions", RespOk [milk_promo])]
      = Some (self', t') /\
    let final :=
      (sweep_loop (all_products self') [(" ", RespOk [milk_promo])]).1 in
    final !! PStr "m1" = Some (annotate (Some "dairy") (Some "Dairy") milk) /\
    item_get (annotate (Some "dairy") (Some "Dairy") milk) "_category_slug"
      = PStr "dairy" /\
    merge_items final [milk_promo] = (final, 0).
Proof.
  destruct (scrape_loop (empty_scraper [], tally0)
              [(named_category "dairy" "Dairy", RespOk [milk]);
               (named_category "promo" "Promotions", RespOk [milk_promo])])
    as [[self' t'] |] eqn:Hrun; [| vm_compute in Hrun; discriminate].
  exists self', t'. split; [reflexivity |].
  destruct (first_writer_wins (empty_scraper []) self' tally0 t'
              (named_category "dairy" "Dairy") [] [] milk
              [(named_category "promo" "Promotions", RespOk [milk_promo])]
              [(" ", RespOk [milk_promo])]
              eq_refl eq_refl (Forall_nil _) Hrun)
    as (_ & Hfinal & Hslug & _ & Hagain & _).
  split; [exact Hfinal | split; [exact Hslug |]].
  apply Hagain. reflexivity.
Defined.

(** *** Error isolation *)

Lemma after_failed_visit self visit :
  succeeded visit = false -> after_visit self visit = self.
Proof.
  intros Hf. unfold after_visit.
  assert (items_of visit = []) as ->.
  { unfold items_of. apply get_category_items_failed. intros items Hr.
    unfold succeeded in Hf. rewrite Hr in Hf. discriminate. }
  destruct self; reflexivity.
Qed.

Lemma scrape_loop_skips_failures visits : forall self t t0 self' t',
  scrape_loop (self, t) visits = Some (self', t') ->
  exists t'',
    scrape_loop (self, t0) (List.filter succeeded visits) = Some (self', t'').
Proof.
  induction visits as [| visit visits IH]; intros self t t0 self' t' Hrun.
  - injection Hrun as <- <-. exists t0. reflexivity.
  - cbn [scrape_loop] in Hrun.
    destruct (scrape_category (self, t) visit) as [[self1 t1] |] eqn:Hstep;
      [| discriminate].
    pose proof (scrape_category_inv _ _ _ _ _ Hstep) as Hnamed.
    destruct (scrape_category_named self t visit Hnamed) as (t2 & Hstep' & _).
    rewrite Hstep in Hstep'. injection Hstep' as -> _.
    cbn [List.filter]. destruct (succeeded visit) eqn:Hs.
    + destruct (scrape_category_named self t0 visit Hnamed) as (t3 & Hstep0 & _).
      cbn [scrape_loop]. rewrite Hstep0. eapply IH. exact Hrun.
    + rewrite (after_failed_visit self visit Hs) in Hrun.
      eapply IH. exact Hrun.
Qed.

Lemma scrape_loop_covers visits : forall self t self' t' c items item,
  scrape_loop (self, t) visits = Some (self', t') ->
  In (c, RespOk items) visits -> In item items ->
  truthy (item_get item "id") = true ->
  is_Some (all_products self' !! item_get item "id").
Proof.
  induction visits as [| visit visits IH];
    intros self t self' t' c items item Hrun Hin Hitem Ht.
  - destruct Hin.
  - cbn [scrape_loop] in Hrun.
    destruct (scrape_category (self, t) visit) as [[self1 t1] |] eqn:Hstep;
      [| discriminate].
    pose proof (scrape_category_inv _ _ _ _ _ Hstep) as Hnamed.
    destruct (scrape_category_named self t visit Hnamed) as (t2 & Hstep' & _).
    rewrite Hstep in Hstep'. injection Hstep' as -> _.
    destruct Hin as [-> | Hin]; [| eapply IH; eassumption].
    assert (is_Some (all_products (after_visit self (c, RespOk items))
                       !! item_get item "id")) as [p Hp].
    { unfold after_visit, items_of.
      cbn [all_products fst snd get_category_items].
      rewrite <- (annotate_id (cat_slug c) (cat_name c) item).
      apply merge_items_covers.
      - apply in_map. exact Hitem.
      - rewrite annotate_id. exact Ht. }
    exists p. eapply scrape_loop_keeps; [exact Hrun | exact Hp].
Qed.

Lemma scrape_loop_inv visits : forall self t self' t',
  scrape_loop (self, t) visits = Some (self', t') ->
  Forall (fun visit => is_Some (cat_name visit.1)) visits.
Proof.
  induction visits as [| visit visits IH]; intros self t self' t' Hrun.
  - constructor.
  - cbn [scrape_loop] in Hrun.
    destruct (scrape_category (self, t) visit) as [[self1 t1] |] eqn:Hstep;
      [| discriminate].
    constructor.
    + eapply scrape_category_inv. exact Hstep.
    + eapply IH. exact Hrun.
Qed.

Lemma scrape_listing_passable st visit :
  is_Some (scrape_listing st visit) <-> passable visit.
Proof.
  destruct st as [self t]. destruct visit as [c [r |]];
    unfold scrape_listing, passable; cbn [fst snd].
  - split.
    + intros [[self' t'] Hstep]. split; [| discriminate].
      apply (scrape_category_inv _ _ _ _ _ Hstep).
    + intros [Hnamed _].
      destruct (scrape_category_named self t (c, r) Hnamed) as (t' & -> & _).
      eauto.
  - split; [intros [x Hx]; discriminate | intros [_ Hne]; contradiction].
Qed.

Lemma scrape_listings_passable visits : forall st,
  is_Some (scrape_listings st visits) <-> Forall passable visits.
Proof.
  induction visits as [| visit visits IH]; intros st; cbn [scrape_listings].
  - split; [constructor | eauto].
  - destruct (scrape_listing st visit) as [st' |] eqn:Hstep.
    + rewrite IH. split.
      * intros Hrest. constructor; [| exact Hrest].
        apply (scrape_listing_passable st). rewrite Hstep. eauto.
      * intros Hall. inversion Hall; assumption.
    + split; [intros [x Hx]; discriminate |].
      intros Hall. inversion Hall as [| ? ? Hv _]; subst.
      apply (scrape_listing_passable st) in Hv. rewrite Hstep in Hv.
      destruct Hv as [x Hx]. discriminate.
Qed.

Lemma scrape_listings_hashable visits : forall st,
  scrape_listings st (map (fun visit => (visit.1, Listing visit.2)) visits)
  = scrape_loop st visits.
Proof.
  induction visits as [| [c r] visits IH]; intros st; [reflexivity |].
  cbn [map scrape_listings scrape_loop]. unfold scrape_listing.
  cbn [fst snd]. destruct (scrape_category st (c, r)); [apply IH | reflexivity].
Qed.

Lemma combine_listings (categories : list Category) (session : nat -> response)
    (indices : list nat) :
  combine categories (map (fun i => Listing (session i)) indices)
  = map (fun visit => (visit.1, Listing visit.2))
      (combine categories (map session indices)).
Proof.
  revert indices. induction categories as [| c categories IH];
    intros [| i indices]; cbn [combine map]; try reflexivity.
  rewrite IH. reflexivity.
Qed.

Lemma scrape_all_listings_hashable self session :
  scrape_all_listings self (fun i => Listing (session i))
  = scrape_all_products self session.
Proof.
  unfold scrape_all_listings, scrape_all_products, visits_of.
  destruct (all_categories self) as [| c cs]; [reflexivity |].
  rewrite combine_listings, scrape_listings_hashable. reflexivity.
Qed.

(** C4, the code against the claim.  The category loop is cut short by a
    failure on one category in two cases, and in no other.  A 2xx body with
    an item whose id is a list or an object makes the deduplicating loop
    raise: with A answering, B sending such a body and C ready to answer,
    the run is aborted at B and C is never visited.  A category without a
    name makes the progress line raise before its request is made: with B
    nameless in the middle of three categories, the run is aborted as well.
    Apart from these the loop runs to its end whatever the session answers:
    it does exactly when every category has a name and no body holds an
    unhashable id, and on bodies without such ids the run is the one of
    [scrape_all_products]. *)
Theorem category_failure_aborts_run :
  scrape_all_listings (empty_scraper three_categories)
    unhashable_id_session = None /\
  scrape_all_products (empty_scraper nameless_in_the_middle)
    one_failure_session = None /\
  (forall st visits,
     is_Some (scrape_listings st visits) <-> Forall passable visits) /\
  (forall self session,
     scrape_all_listings self (fun i => Listing (session i))
     = scrape_all_products self session).
Proof.
  split; [reflexivity |]. split; [reflexivity |]. split.
  - intros st visits. apply scrape_listings_passable.
  - intros self session. apply scrape_all_listings_hashable.
Qed.

(** [scrape_all_products] is that loop over the loaded categories, each
    paired with the response to its request; with at least one category
    loaded, all of them named, it returns the store after one request per
    category. *)
Lemma scrape_all_products_runs self session :
  all_categories self <> [] ->
  Forall (fun c => is_Some (cat_name c)) (all_categories self) ->
  exists self' t',
    scrape_loop (self, tally0) (visits_of (all_categories self) session)
      = Some (self', t') /\
    scrape_all_products self session = Some (self', t', all_products self') /\
    total_requests t' = List.length (all_categories self).
Proof.
  intros Hne Hnamed.
  assert (Forall (fun visit : Category * response => is_Some (cat_name visit.1))
            (visits_of (all_categories self) session)) as Hvisits.
  { unfold visits_of. apply Forall_forall. intros [c r] Hin.
    apply in_combine_l in Hin. rewrite Forall_forall in Hnamed.
    apply Hnamed. exact Hin. }
  destruct (scrape_loop_named _ self tally0 Hvisits)
    as (self' & t' & Hrun & Hn).
  exists self', t'. split; [exact Hrun | split].
  - unfold scrape_all_products. rewrite Hrun.
    destruct (all_categories self); [contradiction | reflexivity].
  - rewrite Hn. unfold visits_of.
    rewrite length_combine, length_map, length_seq. simpl. lia.
Qed.

(** The example of the specification: A with 5 items, B failing, C with 3
    items, all ids distinct, give 8 unique products and three requests. *)
Lemma spec_example_eight_products :
  option_map (fun '(self', t', returned) =>
                (size (all_products self'), size returned, total_requests t',
                 successful_requests t'))
    (scrape_all_products (empty_scraper three_categories) one_failure_session)
  = Some (8, 8, 3, 2).
Proof. vm_compute. reflexivity. Qed.

(** *** Category statistics *)

Lemma after_visit_stats self visit slug :
  is_Some (category_stats (after_visit self visit) !! slug) <->
  is_Some (category_stats self !! slug) \/ yields_items slug visit.
Proof.
  unfold after_visit, yields_items. cbn [category_stats].
  destruct (items_of visit) as [| x xs] eqn:Hitems.
  - split; [auto | intros [H | [_ H]]; [exact H | congruence]].
  - destruct (decide (cat_slug visit.1 = slug)) as [<- | Hne].
    + rewrite lookup_insert_eq. split; [intros _; right; split; congruence | eauto].
    + rewrite lookup_insert_ne by exact Hne.
      split; [auto | intros [H | [H _]]; [exact H | congruence]].
Qed.

Lemma after_visit_bounded self visit :
  stats_bounded (category_stats self) ->
  stats_bounded (category_stats (after_visit self visit)).
Proof.
  intros Hb. unfold after_visit. cbn [category_stats].
  destruct (items_of visit) as [| x xs] eqn:Hitems; [exact Hb |].
  intros slug st Hst.
  destruct (decide (cat_slug visit.1 = slug)) as [<- | Hne].
  - rewrite lookup_insert_eq in Hst. injection Hst as <-.
    unfold stat_of. cbn [item_count new_items]. rewrite Hitems. split.
    + simpl. lia.
    + rewrite <- Hitems. apply merge_items_new_le.
  - rewrite lookup_insert_ne in Hst by exact Hne. apply (Hb slug st Hst).
Qed.

Lemma scrape_loop_stats visits : forall self t self' t',
  scrape_loop (self, t) visits = Some (self', t') ->
  (forall slug,
     is_Some (category_stats self' !! slug) <->
     is_Some (category_stats self !! slug) \/
     Exists (yields_items slug) visits) /\
  (stats_bounded (category_stats self) ->
   stats_bounded (category_stats self')).
Proof.
  induction visits as [| visit visits IH]; intros self t self' t' Hrun.
  - injection Hrun as <- <-. split; [| auto].
    intros slug. split; [auto | intros [H | H]; [exact H | inversion H]].
  - cbn [scrape_loop] in Hrun.
    destruct (scrape_category (self, t) visit) as [[self1 t1] |] eqn:Hstep;
      [| discriminate].
    pose proof (scrape_category_inv _ _ _ _ _ Hstep) as Hnamed.
    destruct (scrape_category_named self t visit Hnamed) as (t2 & Hstep' & _).
    rewrite Hstep in Hstep'. injection Hstep' as -> _.
    destruct (IH _ _ _ _ Hrun) as [Hdom Hbound]. split.
    + intros slug. rewrite Hdom, after_visit_stats, Exists_cons. tauto.
    + intros Hb. apply Hbound. apply after_visit_bounded. exact Hb.
Qed.

(** C5 does not hold as worded: a category that is queried and answered with
    404 leaves no statistics entry at all, and the run that meets a timeout
    instead ends in the very same state. *)
Lemma not_found_records_no_stat_cex :
  (exists self' t' returned,
     scrape_all_products (empty_scraper lone_category)
       (fun _ => RespHttpError 404) = Some (self', t', returned) /\
     total_requests t' = 1 /\
     category_stats self' !! Some "tea" = None) /\
  scrape_all_products (empty_scraper lone_category) (fun _ => RespHttpError 404)
  = scrape_all_products (empty_scraper lone_category) (fun _ => RespFailure).
Proof.
  split; [| reflexivity].
  do 3 eexists. split; [reflexivity | split; reflexivity].
Qed.

(** C5, amended: the category loop records a statistics entry under a slug
    exactly when some queried category with that slug came back with a
    non-empty item list; the entry holds the name, the path, the number of
    items returned and the number of new items, and no outcome.  A request
    answered with 404, with another error status or not at all returns the
    empty list, so such a category, like one whose listing is empty, gets no
    entry.  Every recorded entry has [new_items <= item_count]. *)
Theorem stats_only_for_nonempty
    (self self' : Scraper) (t t' : Tally)
    (visits : list (Category * response)) :
  scrape_loop (self, t) visits = Some (self', t') ->
  (forall slug,
     is_Some (category_stats self' !! slug) <->
     is_Some (category_stats self !! slug) \/
     Exists (yields_items slug) visits) /\
  (stats_bounded (category_stats self) ->
   stats_bounded (category_stats self')) /\
  (forall visit, In visit visits -> succeeded visit = false ->
     items_of visit = [] /\ ~ yields_items (cat_slug visit.1) visit).
Proof.
  intros Hrun. destruct (scrape_loop_stats visits self t self' t' Hrun) as [H1 H2].
  split; [exact H1 | split; [exact H2 |]].
  intros visit _ Hf.
  assert (items_of visit = []) as Hempty.
  { unfold items_of. apply get_category_items_failed. intros items Hr.
    unfold succeeded in Hf. rewrite Hr in Hf. discriminate. }
  split; [exact Hempty |]. intros [_ Hne]. contradiction.
Qed.

Lemma stats_only_for_nonempty_witness :
  exists self' t',
    scrape_loop (empty_scraper three_categories, tally0)
      (visits_of three_categories one_failure_session) = Some (self', t') /\
    is_Some (category_stats self' !! Some "a") /\
    ~ is_Some (category_stats self' !! Some "b") /\
    stats_bounded (category_stats self').
Proof.
  destruct (scrape_loop (empty_scraper three_categories, tally0)
              (visits_of three_categories one_failure_session))
    as [[self' t'] |] eqn:Hrun; [| vm_compute in Hrun; discriminate].
  exists self', t'. split; [reflexivity |].
  destruct (stats_only_for_nonempty _ _ _ _ _ Hrun) as (Hdom & Hbound & _).
  split; [| split].
  - apply Hdom. right. apply Exists_cons. left. split; [reflexivity |].
    discriminate.
  - intros Hb. apply Hdom in Hb as [[st Hst] | Hex].
    + unfold empty_scraper in Hst. cbn [category_stats] in Hst.
      rewrite lookup_empty in Hst. discriminate.
    + repeat (apply Exists_cons in Hex as [[Hs Hi] | Hex];
              [first [discriminate Hs | apply Hi; reflexivity] |]).
      inversion Hex.
  - apply Hbound. intros slug st Hst.
    unfold empty_scraper in Hst. cbn [category_stats] in Hst.
    rewrite lookup_empty in Hst. discriminate.
Defined.

(** ** Completeness verifier *)

Lemma large_categories_lookup self slug st :
  large_categories (verify_completeness self) !! slug = Some st <->
  category_stats self !! slug = Some st /\ page_cap <= item_count st.
Proof.
  unfold verify_completeness. cbn [large_categories].
  rewrite map_lookup_filter_Some. reflexivity.
Qed.

Lemma elem_of_large_items entries order slug st :
  (slug, st) ∈ large_items entries order <->
  slug ∈ order /\ entries !! slug = Some st /\ page_cap <= item_count st.
Proof.
  unfold large_items. rewrite list_elem_of_omap. split.
  - intros (k & Hk & Hf).
    destruct (entries !! k) as [s |] eqn:E; [| discriminate].
    destruct (decide (reaches_cap (k, s))) as [Hc |]; [| discriminate].
    injection Hf as <- <-. auto.
  - intros (Hin & He & Hc). exists slug. split; [exact Hin |].
    rewrite He. rewrite decide_True; [reflexivity | exact Hc].
Qed.

Lemma large_items_keys entries order :
  NoDup order -> NoDup (large_items entries order).*1.
Proof.
  induction 1 as [| k order Hk Hnd IH]; [constructor |].
  unfold large_items. cbn [omap list_omap].
  destruct (entries !! k) as [s |] eqn:E; [| exact IH].
  destruct (decide (reaches_cap (k, s))); [| exact IH].
  cbn [fmap list_fmap]. apply list.NoDup_cons. split; [| exact IH].
  intros Hin. apply list_elem_of_fmap in Hin as ([k' s'] & Heq & Hin).
  cbn in Heq. subst k'. apply elem_of_large_items in Hin. tauto.
Qed.

Lemma key_in_order (entries : gmap (option string) CategoryStat)
    (order : list (option string)) slug st :
  list_to_set order = dom entries -> entries !! slug = Some st ->
  slug ∈ order.
Proof.
  intros Hdom Hst.
  assert (slug ∈ dom entries) as Hin by (apply elem_of_dom; eauto).
  rewrite <- Hdom in Hin. apply elem_of_list_to_set in Hin. exact Hin.
Qed.

Lemma large_items_length entries order :
  NoDup order -> list_to_set order = dom entries ->
  List.length (large_items entries order) = size (filter reaches_cap entries).
Proof.
  intros Hnd Hdom.
  rewrite <- length_map_to_list. apply Permutation_length.
  apply NoDup_Permutation.
  - eapply NoDup_fmap_1. apply large_items_keys. exact Hnd.
  - apply NoDup_map_to_list.
  - intros [slug st]. rewrite elem_of_large_items, elem_of_map_to_list.
    rewrite map_lookup_filter_Some. unfold reaches_cap. cbn [snd].
    split; [tauto |]. intros [He Hc]. split; [| tauto].
    eapply key_in_order; eassumption.
Qed.

(** The key order of the statistics dictionary is kept by the harvest. *)
Lemma after_visit_ordered self visit :
  stats_ordered self -> stats_ordered (after_visit self visit).
Proof.
  intros [Hnd Hdom]. unfold stats_ordered, after_visit.
  cbn [stats_order category_stats].
  destruct (items_of visit) as [| x xs]; [split; assumption |].
  unfold keys_after_set.
  destruct (category_stats self !! cat_slug visit.1) as [s |] eqn:E.
  - split; [exact Hnd |]. rewrite dom_insert_L, Hdom.
    assert (cat_slug visit.1 ∈ dom (category_stats self)) as Hin
      by (apply elem_of_dom; eauto).
    apply set_eq. intros k. rewrite elem_of_union, elem_of_singleton.
    split; [tauto |]. intros [-> | Hk]; [exact Hin | exact Hk].
  - assert (cat_slug visit.1 ∉ dom (category_stats self)) as Hout
      by (apply not_elem_of_dom; exact E).
    split.
    + apply list.NoDup_app. split; [exact Hnd |]. split.
      * intros k Hk Hk'. apply list_elem_of_singleton in Hk'. subst k.
        apply Hout. rewrite <- Hdom. apply elem_of_list_to_set. exact Hk.
      * apply NoDup_singleton.
    + rewrite list_to_set_app_L, dom_insert_L, Hdom. cbn [list_to_set].
      apply set_eq. intros k.
      rewrite !elem_of_union, elem_of_singleton, elem_of_empty. tauto.
Qed.

Lemma scrape_loop_ordered visits : forall self t self' t',
  stats_ordered self ->
  scrape_loop (self, t) visits = Some (self', t') ->
  stats_ordered self'.
Proof.
  induction visits as [| visit visits IH]; intros self t self' t' Hord Hrun.
  - cbn [scrape_loop] in Hrun. injection Hrun as <- _. exact Hord.
  - cbn [scrape_loop] in Hrun.
    destruct (scrape_category (self, t) visit) as [[self1 t1] |] eqn:Hstep;
      [| discriminate].
    pose proof (scrape_category_inv _ _ _ _ _ Hstep) as Hnamed.
    destruct (scrape_category_named self t visit Hnamed) as (t2 & Hstep' & _).
    rewrite Hstep' in Hstep. injection Hstep as <- _.
    eapply IH; [| exact Hrun]. apply after_visit_ordered. exact Hord.
Qed.

Lemma empty_scraper_ordered categories :
  stats_ordered (empty_scraper categories).
Proof.
  split; cbn [empty_scraper stats_order category_stats]; [constructor |].
  cbn [list_to_set]. rewrite dom_empty_L. reflexivity.
Qed.

(** C2, as the code has it.  Six categories each answer with a full page of
    500 items: all six reach the cap and the warning counts six, but it names
    only the first five; the sixth, ["f"], is not among them. *)
Lemma sixth_capped_category_not_named_cex :
  exists self' t products,
    scrape_all_products (empty_scraper six_categories) full_pages
    = Some (self', t, products) /\
    completeness_verdict (verify_completeness self') = Suspect /\
    size (large_categories (verify_completeness self')) = 6 /\
    (exists st, category_stats self' !! Some "f" = Some st /\
                item_count st = 500) /\
    (listed_categories (verify_completeness self')).*1
    = [Some "a"; Some "b"; Some "c"; Some "d"; Some "e"].
Proof.
  eexists _, _, _.
  split; [vm_compute; reflexivity |].
  split; [vm_compute; reflexivity |].
  split; [vm_compute; reflexivity |].
  split.
  - eexists. split; vm_compute; reflexivity.
  - vm_compute. reflexivity.
Qed.

(** C2 (amended): the verdict of [verify_completeness] is Suspect exactly
    when some recorded statistics entry has [item_count >= 500], and
    Confident when none has.  The dictionary [large_categories], whose size
    the warning states, holds exactly the entries that reach the cap.  The
    warning names the first five of them in the order of the statistics
    dictionary: every category it names reached the cap, none is named
    twice, it names five or all of them, whichever is fewer, and when at
    most five reached the cap it names every one. *)
Theorem suspect_iff_cap_first_five_named (self : Scraper) :
  let report := verify_completeness self in
  (completeness_verdict report = Suspect <->
   exists slug st,
     category_stats self !! slug = Some st /\ 500 <= item_count st) /\
  (forall slug st,
     large_categories report !! slug = Some st <->
     category_stats self !! slug = Some st /\ 500 <= item_count st) /\
  listed_categories report
  = take 5 (large_items (category_stats self) (stats_order self)) /\
  (forall slug st,
     (slug, st) ∈ listed_categories report ->
     category_stats self !! slug = Some st /\ 500 <= item_count st) /\
  (stats_ordered self ->
   NoDup (listed_categories report).*1 /\
   List.length (listed_categories report)
   = Nat.min 5 (size (large_categories report)) /\
   (size (large_categories report) <= 5 ->
    forall slug st,
      category_stats self !! slug = Some st -> 500 <= item_count st ->
      (slug, st) ∈ listed_categories report)) /\
  ((forall slug st,
      category_stats self !! slug = Some st -> item_count st < 500) ->
   completeness_verdict report = Confident).
Proof.
  intros report.
  assert (Hverdict : completeness_verdict report = Suspect <->
     exists slug st,
       category_stats self !! slug = Some st /\ 500 <= item_count st).
  { subst report. unfold verify_completeness. cbn [completeness_verdict].
    destruct (decide (filter reaches_cap (category_stats self) = ∅))
      as [Hempty | Hne].
    - split; [discriminate |]. intros (slug & st & Hst & Hcap).
      assert (filter reaches_cap (category_stats self) !! slug = Some st)
        as Hin by (apply map_lookup_filter_Some; split; assumption).
      rewrite Hempty, lookup_empty in Hin. discriminate.
    - split; [| reflexivity]. intros _.
      destruct (map_choose _ Hne) as (slug & st & Hin).
      apply map_lookup_filter_Some in Hin. exists slug, st. exact Hin. }
  assert (Hlisted : listed_categories report
    = take 5 (large_items (category_stats self) (stats_order self)))
    by reflexivity.
  split; [exact Hverdict |].
  split; [intros slug st; apply large_categories_lookup |].
  split; [exact Hlisted |]. split; [| split].
  - intros slug st Hin. rewrite Hlisted in Hin.
    apply elem_of_take in Hin as (i & Hi & _).
    apply list_elem_of_lookup_2 in Hi. apply elem_of_large_items in Hi.
    tauto.
  - intros [Hnd Hdom].
    assert (Hlen : List.length
                     (large_items (category_stats self) (stats_order self))
                   = size (large_categories report))
      by (apply large_items_length; assumption).
    split; [| split].
    + rewrite Hlisted, fmap_take.
      eapply sublist_NoDup; [| apply sublist_take].
      apply large_items_keys. exact Hnd.
    + rewrite Hlisted, length_take, Hlen. reflexivity.
    + intros Hsmall slug st Hst Hcap. rewrite Hlisted.
      rewrite take_ge by lia. apply elem_of_large_items.
      split; [| split; [exact Hst | exact Hcap]].
      eapply key_in_order; eassumption.
  - intros Hbelow.
    destruct (completeness_verdict report) eqn:Hv; [| reflexivity].
    destruct (proj1 Hverdict eq_refl) as (slug & st & Hst & Hcap).
    specialize (Hbelow _ _ Hst). lia.
Qed.

Lemma suspect_iff_cap_first_five_named_witness :
  stats_ordered capped_scraper /\
  completeness_verdict (verify_completeness capped_scraper) = Suspect /\
  (listed_categories (verify_completeness capped_scraper)).*1 = [Some "a"] /\
  List.length (listed_categories (verify_completeness capped_scraper)) = 1 /\
  completeness_verdict (verify_completeness (empty_scraper three_categories))
  = Confident.
Proof.
  assert (Hord : stats_ordered capped_scraper).
  { split; apply (bool_decide_unpack _); vm_compute; exact I. }
  split; [exact Hord |].
  destruct (suspect_iff_cap_first_five_named capped_scraper)
    as (Hverdict & _ & Hlisted & _ & Hnamed & _).
  destruct (Hnamed Hord) as (_ & Hlen & _).
  split; [| split; [| split]].
  - apply Hverdict. exists (Some "a"). eexists. split; [reflexivity |].
    cbn. lia.
  - rewrite Hlisted. vm_compute. reflexivity.
  - rewrite Hlen. vm_compute. reflexivity.
  - destruct (suspect_iff_cap_first_five_named
                (empty_scraper three_categories))
      as (_ & _ & _ & _ & _ & Hconfident).
    apply Hconfident. intros slug st Hst.
    unfold empty_scraper in Hst. cbn [category_stats] in Hst.
    rewrite lookup_empty in Hst. discriminate.
Defined.

(** The harvest of a fresh scraper leaves the statistics dictionary with its
    keys in order, so the properties of the warning hold after every run. *)
Lemma harvest_stats_ordered categories session self' t products :
  scrape_all_products (empty_scraper categories) session
  = Some (self', t, products) ->
  stats_ordered self'.
Proof.
  unfold scrape_all_products.
  destruct (all_categories (empty_scraper categories)) as [| c cs] eqn:Hcats.
  - intros Hrun. injection Hrun as <- _ _. apply empty_scraper_ordered.
  - destruct (scrape_loop (empty_scraper categories, tally0)
                (visits_of (c :: cs) session)) as [[self1 t1] |] eqn:Hloop;
      [| discriminate].
    intros Hrun. injection Hrun as <- _ _.
    eapply scrape_loop_ordered; [| exact Hloop]. apply empty_scraper_ordered.
Qed.

(** ** Discovery sweep *)

Lemma sweep_loop_stops exchanges : forall (products : Store) k,
  spec_yields products exchanges !! k = Some 0 ->
  (forall j n, j < k -> spec_yields products exchanges !! j = Some n -> 0 < n) ->
  (sweep_loop products exchanges).2
  = take (S k) (combine (map fst exchanges) (spec_yields products exchanges)).
Proof.
  induction exchanges as [| [query r] rest IH]; intros products k Hk Hbefore.
  - simpl in Hk. discriminate.
  - cbn [sweep_loop spec_yields] in *.
    destruct (merge_items products (search_items r)) as [products' new].
    destruct k as [| k].
    + simpl in Hk. injection Hk as ->. simpl. reflexivity.
    + assert (0 < new) as Hpos by (apply (Hbefore 0 new); [lia | reflexivity]).
      destruct (Nat.eqb new 0) eqn:Hz; [apply Nat.eqb_eq in Hz; lia |].
      specialize (IH products' k Hk).
      destruct (sweep_loop products' rest) as [final issued].
      cbn [snd map fst combine take] in *. f_equal. apply IH.
      intros j n Hj Hn. apply (Hbefore (S j) n); [lia | exact Hn].
Qed.

Lemma sweep_loop_exhausts exchanges : forall products : Store,
  (forall j, spec_yields products exchanges !! j <> Some 0) ->
  (sweep_loop products exchanges).2
  = combine (map fst exchanges) (spec_yields products exchanges).
Proof.
  induction exchanges as [| [query r] rest IH]; intros products Hnone.
  - reflexivity.
  - cbn [sweep_loop spec_yields] in *.
    destruct (merge_items products (search_items r)) as [products' new].
    destruct (Nat.eqb new 0) eqn:Hz.
    + apply Nat.eqb_eq in Hz. subst new. destruct (Hnone 0). reflexivity.
    + specialize (IH products').
      destruct (sweep_loop products' rest) as [final issued].
      cbn [snd map fst combine] in *. f_equal. apply IH.
      intros j. apply (Hnone (S j)).
Qed.

Lemma spec_yields_length exchanges : forall products : Store,
  List.length (spec_yields products exchanges) = List.length exchanges.
Proof.
  induction exchanges as [| [query r] rest IH]; intros products.
  - reflexivity.
  - cbn [spec_yields].
    destruct (merge_items products (search_items r)) as [products' new].
    simpl. rewrite IH. reflexivity.
Qed.

Lemma queries_of_yields exchanges : forall products : Store,
  map fst (combine (map fst exchanges) (spec_yields products exchanges))
  = map fst exchanges.
Proof.
  induction exchanges as [| [query r] rest IH]; intros products.
  - reflexivity.
  - cbn [spec_yields].
    destruct (merge_items products (search_items r)) as [products' new].
    simpl. rewrite IH. reflexivity.
Qed.

(** C3: the sweep stops at the first query without new items.  Take the
    numbers of new items the queries of the list would yield if all were
    issued in order.  If position [k] (counting from 0) is the first that
    yields 0, the sweep issues the first [k + 1] queries of the list, in
    order, and no other.  If no position yields 0, it issues the whole
    list. *)
Theorem sweep_stops_at_first_empty_yield
    (products : Store) (exchanges : list (string * response)) :
  (forall k,
     spec_yields products exchanges !! k = Some 0 ->
     (forall j n, j < k ->
        spec_yields products exchanges !! j = Some n -> 0 < n) ->
     map fst (sweep_loop products exchanges).2
       = take (S k) (map fst exchanges) /\
     List.length (sweep_loop products exchanges).2 = S k) /\
  ((forall j, spec_yields products exchanges !! j <> Some 0) ->
   map fst (sweep_loop products exchanges).2 = map fst exchanges).
Proof.
  split.
  - intros k Hk Hbefore.
    rewrite (sweep_loop_stops exchanges products k Hk Hbefore).
    split.
    + rewrite <- (queries_of_yields exchanges products) at 2.
      apply fmap_take.
    + apply lookup_lt_Some in Hk. rewrite spec_yields_length in Hk.
      rewrite length_take, length_combine, length_map, spec_yields_length.
      lia.
  - intros Hnone. rewrite (sweep_loop_exhausts exchanges products Hnone).
    apply queries_of_yields.
Qed.

Lemma sweep_stops_at_first_empty_yield_witness :
  spec_yields ∅ three_exchanges = [1; 0; 1] /\
  map fst (sweep_loop ∅ three_exchanges).2 = ["a"; "b"] /\
  List.length (sweep_loop ∅ three_exchanges).2 = 2.
Proof.
  split; [vm_compute; reflexivity |].
  apply (proj1 (sweep_stops_at_first_empty_yield ∅ three_exchanges) 1).
  - vm_compute. reflexivity.
  - intros [| j] n Hj Hn; [| lia].
    vm_compute in Hn. injection Hn as <-. lia.
Defined.

(** [supplement_with_search] runs that loop over its fixed list of ten
    queries. *)
Lemma supplement_with_search_issued self session :
  (supplement_with_search self session).1.2
  = (sweep_loop (all_products self)
       (combine search_queries
          (map session (seq 0 (List.length search_queries))))).2.
Proof.
  unfold supplement_with_search.
  destruct (sweep_loop (all_products self) _) as [products issued].
  reflexivity.
Qed.

(** ** The batch loop of the alternate scraper *)

Module BatchLoopFacts.
Import WoltCompleteScraper.

(** A turn breaks exactly on a response with fewer than 500 items; what the
    duplicate filter keeps plays no part. *)
Lemma batch_step_breaks session st :
  (exists final, batch_step session st = inr final) <->
  short_answer session (S (batch_num st)).
Proof.
  unfold batch_step, short_answer.
  destruct (search_items (session (S (batch_num st)))) as [| x xs] eqn:Hitems.
  - split; [simpl; lia | eauto].
  - destruct (filter_duplicates (product_ids st) (x :: xs)) as [ids new_items].
    destruct (Nat.ltb (List.length (x :: xs)) 500) eqn:Hlt.
    + apply Nat.ltb_lt in Hlt. split; [intros _; exact Hlt | eauto].
    + apply Nat.ltb_ge in Hlt. split; [intros [final H]; discriminate | lia].
Qed.

Lemma batch_step_continues session st st' :
  batch_step session st = inl st' -> batch_num st' = S (batch_num st).
Proof.
  unfold batch_step.
  destruct (search_items (session (S (batch_num st)))) as [| x xs];
    [discriminate |].
  destruct (filter_duplicates (product_ids st) (x :: xs)) as [ids new_items].
  destruct (Nat.ltb (List.length (x :: xs)) 500); [discriminate |].
  intros H. injection H as <-. reflexivity.
Qed.

Lemma batch_loop_returns session fuel : forall st,
  (exists final, batch_loop fuel session st = Some final) <->
  (exists n, n < fuel /\ short_answer session (S (batch_num st + n))).
Proof.
  induction fuel as [| fuel IH]; intros st.
  - split; [intros [final H]; discriminate | intros (n & Hn & _); lia].
  - cbn [batch_loop].
    pose proof (batch_step_breaks session st) as Hbreak.
    destruct (batch_step session st) as [st' | final] eqn:Hstep.
    + pose proof (batch_step_continues session st st' Hstep) as Hnum.
      rewrite IH, Hnum. split.
      * intros (n & Hn & Hshort). exists (S n). split; [lia |].
        replace (batch_num st + S n) with (S (batch_num st) + n) by lia.
        exact Hshort.
      * intros (n & Hn & Hshort). destruct n as [| n].
        -- rewrite Nat.add_0_r in Hshort.
           destruct (proj2 Hbreak Hshort) as [final H]. discriminate.
        -- exists n. split; [lia |].
           replace (S (batch_num st) + n) with (batch_num st + S n) by lia.
           exact Hshort.
    + split; [intros _ | eauto].
      exists 0. split; [lia |]. rewrite Nat.add_0_r. apply Hbreak. eauto.
Qed.

(** C10: the batch loop of strategy 1 terminates exactly when the response
    to some batch has fewer than 500 items (an empty or failed response has
    none).  Each turn breaks or goes on by the length of the response alone,
    not by how many of its items are new; so against a session that answers
    every batch with at least 500 items the loop is still running after any
    number of turns, even if every item is a duplicate. *)
Theorem batch_loop_terminates_iff_short_answer (session : nat -> response) :
  (terminates session <-> exists n, short_answer session (S n)) /\
  (forall st,
     (exists final, batch_step session st = inr final) <->
     short_answer session (S (batch_num st))) /\
  ((forall n, 500 <= List.length (search_items (session (S n)))) ->
   forall fuel, batch_loop fuel session batch0 = None).
Proof.
  split; [| split].
  - unfold terminates. split.
    + intros (fuel & final & H).
      destruct (proj1 (batch_loop_returns session fuel batch0))
        as (n & _ & Hshort); [eauto |].
      exists n. exact Hshort.
    + intros (n & Hshort).
      destruct (proj2 (batch_loop_returns session (S n) batch0))
        as (final & H); [exists n; split; [lia | exact Hshort] |].
      exists (S n), final. exact H.
  - apply batch_step_breaks.
  - intros Hfull fuel.
    destruct (batch_loop fuel session batch0) as [final |] eqn:Hloop;
      [| reflexivity].
    destruct (proj1 (batch_loop_returns session fuel batch0))
      as (n & _ & Hshort); [eauto |].
    unfold short_answer in Hshort. specialize (Hfull (batch_num batch0 + n)).
    lia.
Qed.

Lemma batch_loop_terminates_iff_short_answer_witness :
  (forall n, 500 <= List.length (search_items (same_page_session (S n)))) /\
  (forall fuel, batch_loop fuel same_page_session batch0 = None) /\
  ~ terminates same_page_session.
Proof.
  assert (forall n,
            500 <= List.length (search_items (same_page_session (S n))))
    as Hfull.
  { intros n. unfold same_page_session, search_items.
    rewrite repeat_length. lia. }
  split; [exact Hfull | split].
  - apply (proj2 (proj2 (batch_loop_terminates_iff_short_answer
                           same_page_session))).
    exact Hfull.
  - intros Hterm.
    apply (proj1 (batch_loop_terminates_iff_short_answer same_page_session))
      in Hterm as (n & Hshort).
    unfold short_answer in Hshort. specialize (Hfull n). lia.
Defined.

(** After the first batch of that session the loop goes round without
    adding a single product. *)
Lemma same_page_adds_nothing :
  match batch_step same_page_session batch0 with
  | inl st1 =>
      List.length (all_products st1) = 1 /\
      match batch_step same_page_session st1 with
      | inl st2 => all_products st2 = all_products st1 /\ batch_num st2 = 2
      | inr _ => False
      end
  | inr _ => False
  end.
Proof. vm_compute. split; [reflexivity | split; reflexivity]. Qed.

End BatchLoopFacts.

(** ** Price normalisation *)

Module PricingFacts.
Import BravoMarketingAnalyzer.
Local Open Scope Q_scope.

Lemma priced_positive products :
  Forall (fun x => 0 < x) (priced products).
Proof.
  unfold priced. apply Forall_forall. intros x Hx.
  apply in_map_iff in Hx as (q & <- & Hq).
  apply filter_In in Hq as [_ Hq]. apply negb_true_iff in Hq.
  destruct (Qlt_le_dec 0 (price q)) as [Hlt | Hle]; [exact Hlt |].
  apply Qle_bool_iff in Hle. congruence.
Qed.

Lemma priced_app l1 l2 : priced (l1 ++ l2) = (priced l1 ++ priced l2)%list.
Proof. unfold priced. rewrite filter_app, map_app. reflexivity. Qed.

(** *** Facts on the binary64 operations *)

Lemma digits2_pos_size p : digits2_pos p = Pos.size p.
Proof. induction p as [p IH | p IH |]; simpl; [rewrite IH .. |]; reflexivity. Qed.

Lemma Zdigits2_log2 m : (0 < m)%Z -> Zdigits2 m = (Z.log2 m + 1)%Z.
Proof.
  destruct m as [| p | p]; [lia | | lia]. intros _.
  unfold Zdigits2. rewrite digits2_pos_size.
  destruct p as [p | p |]; simpl; lia.
Qed.

Lemma shr_1_m mrs :
  (0 <= shr_m mrs)%Z -> shr_m (shr_1 mrs) = (shr_m mrs / 2)%Z.
Proof.
  destruct mrs as [m r s]. cbn [shr_m]. intros Hm. unfold shr_1.
  destruct m as [| [p | p |] | p]; cbn [shr_m]; try lia.
  - reflexivity.
  - apply Z.div_unique with (r := 1%Z); lia.
  - apply Z.div_unique with (r := 0%Z); lia.
  - reflexivity.
Qed.

Lemma iter_shr_1_m p : forall mrs,
  (0 <= shr_m mrs)%Z ->
  shr_m (SpecFloat.iter_pos shr_1 p mrs) = (shr_m mrs / 2 ^ Z.pos p)%Z.
Proof.
  assert (Hhalf : forall mrs, (0 <= shr_m mrs)%Z ->
            (0 <= shr_m (shr_1 mrs))%Z).
  { intros mrs Hm. rewrite shr_1_m by exact Hm.
    apply Z.div_pos; lia. }
  induction p as [p IH | p IH |]; intros mrs Hm; cbn [SpecFloat.iter_pos].
  - assert (0 <= shr_m (SpecFloat.iter_pos shr_1 p (shr_1 mrs)))%Z as Hpos.
    { rewrite IH by auto. apply Z.div_pos; [auto | lia]. }
    rewrite IH by exact Hpos. rewrite IH by auto. rewrite shr_1_m by exact Hm.
    rewrite !Z.div_div by lia. f_equal.
    replace (Z.pos p~1) with (1 + Z.pos p + Z.pos p)%Z by lia.
    rewrite !Z.pow_add_r by lia. change (2 ^ 1)%Z with 2%Z. ring.
  - assert (0 <= shr_m (SpecFloat.iter_pos shr_1 p mrs))%Z as Hpos.
    { rewrite IH by auto. apply Z.div_pos; [auto | lia]. }
    rewrite IH by exact Hpos. rewrite IH by auto.
    rewrite !Z.div_div by lia. f_equal.
    replace (Z.pos p~0) with (Z.pos p + Z.pos p)%Z by lia.
    rewrite Z.pow_add_r by lia. ring.
  - rewrite shr_1_m by exact Hm. reflexivity.
Qed.

Lemma shr_record_of_loc_m m l : shr_m (shr_record_of_loc m l) = m.
Proof. destruct l as [| []]; reflexivity. Qed.

(** [shr_fexp] on a mantissa of at least 53 digits, above the subnormal
    range: the mantissa is cut to 53 digits. *)
Lemma shr_fexp_cut m e l :
  (0 < m)%Z -> (53 <= Zdigits2 m)%Z -> (-1021 <= Zdigits2 m + e)%Z ->
  shr_m (shr_fexp 53 1024 m e l).1 = (m / 2 ^ (Zdigits2 m - 53))%Z /\
  (shr_fexp 53 1024 m e l).2 = (e + (Zdigits2 m - 53))%Z.
Proof.
  intros Hm Hd He. unfold shr_fexp, fexp, emin.
  replace (Z.max (Zdigits2 m + e - 53) (3 - 1024 - 53) - e)%Z
    with (Zdigits2 m - 53)%Z by lia.
  unfold shr. destruct (Zdigits2 m - 53)%Z as [| n | n] eqn:Hn; try lia.
  - cbn [fst snd]. rewrite shr_record_of_loc_m.
    change (2 ^ 0)%Z with 1%Z. rewrite Z.div_1_r. split; [reflexivity | lia].
  - cbn [fst snd]. rewrite iter_shr_1_m
      by (rewrite shr_record_of_loc_m; lia).
    rewrite shr_record_of_loc_m. split; reflexivity.
Qed.

Lemma log2_cut m :
  (0 < m)%Z -> (52 <= Z.log2 m)%Z ->
  Z.log2 (m / 2 ^ (Z.log2 m - 52)) = 52%Z.
Proof.
  intros Hm Hd. rewrite <- Z.shiftr_div_pow2 by lia.
  rewrite Z.log2_shiftr by lia. lia.
Qed.

Lemma round_nearest_even_bounds m l :
  (m <= round_nearest_even m l <= m + 1)%Z.
Proof.
  unfold round_nearest_even. destruct l as [| []]; try lia.
  destruct (Z.even m); lia.
Qed.

(** Rounding a mantissa of at least 53 digits, above the subnormal range:
    the result is a finite number, or an infinity when the exponent is too
    large; it is never a zero. *)
Lemma binary_round_aux_normal sx m e l :
  (0 < m)%Z -> (53 <= Zdigits2 m)%Z -> (-1021 <= Zdigits2 m + e)%Z ->
  (exists m' e', binary_round_aux 53 1024 sx m e l = S754_finite sx m' e') \/
  (binary_round_aux 53 1024 sx m e l = S754_infinity sx /\
   (1024 <= Zdigits2 m + e)%Z).
Proof.
  intros Hm Hd He. unfold binary_round_aux.
  destruct (shr_fexp_cut m e l Hm Hd He) as [Hm1 He1].
  destruct (shr_fexp 53 1024 m e l) as [mrs1 e1]. cbn [fst snd] in Hm1, He1.
  rewrite Zdigits2_log2 in Hd, He, Hm1, He1 by exact Hm.
  replace (Z.log2 m + 1 - 53)%Z with (Z.log2 m - 52)%Z in Hm1, He1 by lia.
  assert (Hlog1 : Z.log2 (shr_m mrs1) = 52%Z)
    by (rewrite Hm1; apply log2_cut; lia).
  assert (Hpos1 : (0 < shr_m mrs1)%Z).
  { destruct (Z.le_gt_cases (shr_m mrs1) 0) as [Hle |]; [| assumption].
    rewrite (Z.log2_nonpos _ Hle) in Hlog1. discriminate. }
  pose proof (round_nearest_even_bounds (shr_m mrs1)
                (loc_of_shr_record mrs1)) as Hround.
  set (mr := round_nearest_even (shr_m mrs1) (loc_of_shr_record mrs1)) in *.
  assert (Hmr : (0 < mr)%Z) by lia.
  assert (Hlogr : (52 <= Z.log2 mr <= 53)%Z).
  { split.
    - rewrite <- Hlog1. apply Z.log2_le_mono. lia.
    - destruct (Z.log2_spec (shr_m mrs1) Hpos1) as [_ Hup].
      rewrite Hlog1 in Hup.
      assert (mr <= 2 ^ 53)%Z as Hle by (change (Z.succ 52) with 53%Z in Hup; lia).
      apply Z.log2_le_mono in Hle. rewrite Z.log2_pow2 in Hle by lia.
      exact Hle. }
  assert (Hd2 : (53 <= Zdigits2 mr)%Z) by (rewrite Zdigits2_log2; lia).
  assert (He2 : (-1021 <= Zdigits2 mr + e1)%Z)
    by (rewrite Zdigits2_log2; lia).
  destruct (shr_fexp_cut mr e1 loc_Exact Hmr Hd2 He2) as [Hm2 He2'].
  destruct (shr_fexp 53 1024 mr e1 loc_Exact) as [mrs2 e2].
  cbn [fst snd] in Hm2, He2'.
  rewrite Zdigits2_log2 in Hm2, He2' by exact Hmr.
  replace (Z.log2 mr + 1 - 53)%Z with (Z.log2 mr - 52)%Z in Hm2, He2'
    by lia.
  assert (Hlog2 : Z.log2 (shr_m mrs2) = 52%Z)
    by (rewrite Hm2; apply log2_cut; lia).
  destruct (shr_m mrs2) as [| m2 | m2] eqn:Hm2'.
  - discriminate.
  - destruct (Z.leb_spec e2 (1024 - 53)) as [Hfit | Hbig].
    + left. eauto.
    + right. split; [reflexivity |]. rewrite Zdigits2_log2 by exact Hm. lia.
  - discriminate.
Qed.

Lemma exact_int_div_100 m s :
  let '(q, e, l) := SFdiv_core_binary 53 1024 (Z.pos m) 0 100 0 in
  SFdiv 53 1024 (S754_finite s m 0) (S754_finite false 100 0)
  = binary_round_aux 53 1024 (xorb s false) q e l.
Proof.
  unfold SFdiv. destruct (SFdiv_core_binary 53 1024 (Z.pos m) 0 100 0)
    as [[q e] l]. reflexivity.
Qed.

(** The quotient and exponent the division of an integer by 100 hands to
    the rounding. *)
Lemma div_core_100 m :
  let '(q, e, l) := SFdiv_core_binary 53 1024 (Z.pos m) 0 100 0 in
  (2 ^ 52 <= q)%Z /\ (-59 <= e <= 0)%Z /\
  (Z.log2 q + e <= Z.log2 (Z.pos m) - 6)%Z.
Proof.
  unfold SFdiv_core_binary, fexp, emin.
  change (Zdigits2 100) with 7%Z.
  rewrite Zdigits2_log2 by lia.
  set (d := Z.log2 (Z.pos m)).
  assert (Hd : (0 <= d)%Z) by apply Z.log2_nonneg.
  destruct (Z.log2_spec (Z.pos m)) as [Hlo Hhi]; [lia |]. fold d in Hlo, Hhi.
  set (e := Z.min (Z.max (d + 1 + 0 - (7 + 0) - 53) (3 - 1024 - 53)) (0 - 0)).
  assert (He : (e = Z.min (d - 59) 0)%Z) by (unfold e; lia).
  assert (Hs : (0 - 0 - e = - e)%Z) by lia. rewrite Hs.
  assert (Hm' : exists m', (match (- e)%Z with
                            | Z.pos _ => Z.shiftl (Z.pos m) (- e)
                            | 0%Z => Z.pos m
                            | Z.neg _ => 0%Z
                            end = m') /\ m' = (Z.pos m * 2 ^ (- e))%Z).
  { eexists. split; [reflexivity |].
    destruct (- e)%Z as [| n | n] eqn:Hn; cbv beta iota.
    - change (2 ^ 0)%Z with 1%Z. lia.
    - rewrite Z.shiftl_mul_pow2 by lia. reflexivity.
    - lia. }
  destruct Hm' as (m' & -> & Hm').
  assert (Hbig : (2 ^ 59 <= m')%Z).
  { rewrite Hm'. destruct (Z.le_gt_cases 59 d) as [Hge | Hlt].
    - replace (- e)%Z with 0%Z by lia. change (2 ^ 0)%Z with 1%Z.
      assert (2 ^ 59 <= 2 ^ d)%Z by (apply Z.pow_le_mono_r; lia). lia.
    - replace (- e)%Z with (59 - d)%Z by lia.
      replace (2 ^ 59)%Z with (2 ^ d * 2 ^ (59 - d))%Z
        by (rewrite <- Z.pow_add_r by lia; f_equal; lia).
      apply Z.mul_le_mono_nonneg_r; [apply Z.pow_nonneg; lia | exact Hlo]. }
  assert (Hup : (m' < 2 ^ (d + 1 - e))%Z).
  { rewrite Hm'. replace (d + 1 - e)%Z with (Z.succ d + - e)%Z by lia.
    rewrite Z.pow_add_r by lia.
    apply Z.mul_lt_mono_pos_r; [apply Z.pow_pos_nonneg; lia | exact Hhi]. }
  pose proof (Z.div_eucl_eq m' 100) as Heucl.
  pose proof (Z.mod_pos_bound m' 100) as Hmod.
  unfold Z.modulo in Hmod.
  destruct (Z.div_eucl m' 100) as [q r].
  assert (Hq : (2 ^ 52 <= q)%Z).
  { assert (2 ^ 59 = 100 * 5764607523034234 + 88)%Z as H59 by reflexivity.
    assert (2 ^ 52 = 4503599627370496)%Z as H52 by reflexivity. lia. }
  split; [exact Hq |]. split; [lia |].
  assert (Hq64 : (q * 2 ^ 6 <= m')%Z)
    by (change (2 ^ 6)%Z with 64%Z; lia).
  assert (Hlt : (q < 2 ^ (d + 1 - e - 6))%Z).
  { apply Z.mul_lt_mono_pos_r with (p := (2 ^ 6)%Z); [lia |].
    rewrite <- Z.pow_add_r by lia.
    replace (d + 1 - e - 6 + 6)%Z with (d + 1 - e)%Z by lia. lia. }
  apply Z.log2_lt_pow2 in Hlt; lia.
Qed.

(** The division of an integer amount by 100 gives a finite number, which is
    not zero when the amount is not, unless the amount is beyond the range
    of the floats. *)
Lemma exact_div_100 s m :
  (exists m' e', b64_div (S754_finite s m 0) (S754_finite false 100 0)
                 = S754_finite s m' e') \/
  (b64_div (S754_finite s m 0) (S754_finite false 100 0)
   = S754_infinity s /\
   (2 ^ 1029 <= Z.pos m)%Z).
Proof.
  unfold b64_div.
  pose proof (exact_int_div_100 m s) as Hdiv.
  pose proof (div_core_100 m) as Hcore.
  destruct (SFdiv_core_binary 53 1024 (Z.pos m) 0 100 0) as [[q e] l].
  destruct Hcore as (Hq & He & Hlog).
  rewrite Hdiv. rewrite xorb_false_r.
  assert (Hpos : (0 < q)%Z) by (assert (0 < 2 ^ 52)%Z by reflexivity; lia).
  assert (Hlog52 : (52 <= Z.log2 q)%Z).
  { apply Z.log2_le_mono in Hq. rewrite Z.log2_pow2 in Hq by lia. exact Hq. }
  destruct (binary_round_aux_normal s q e l Hpos) as [Hfin | [Hinf Hbig]].
  - rewrite Zdigits2_log2 by exact Hpos. lia.
  - rewrite Zdigits2_log2 by exact Hpos. lia.
  - left. exact Hfin.
  - right. split; [exact Hinf |].
    rewrite Zdigits2_log2 in Hbig by exact Hpos.
    assert (1029 <= Z.log2 (Z.pos m))%Z as Hm by lia.
    destruct (Z.log2_spec (Z.pos m)) as [Hlo _]; [lia |].
    assert (2 ^ 1029 <= 2 ^ Z.log2 (Z.pos m))%Z
      by (apply Z.pow_le_mono_r; lia).
    lia.
Qed.

Lemma int_div_100_truthy z f :
  int_div_100 z = Some f -> z <> 0%Z -> b64_truthy f = true.
Proof.
  unfold int_div_100. intros Hf Hz.
  destruct z as [| m | m]; [contradiction | |]; cbn [exact_int] in Hf.
  - destruct (exact_div_100 false m) as [(m' & e' & Hq) | [Hq _]];
      rewrite Hq in Hf; [| discriminate].
    injection Hf as <-. reflexivity.
  - destruct (exact_div_100 true m) as [(m' & e' & Hq) | [Hq _]];
      rewrite Hq in Hf; [| discriminate].
    injection Hf as <-. reflexivity.
Qed.

Lemma int_div_100_overflow z :
  int_div_100 z = None -> (2 ^ 1029 <= Z.abs z)%Z.
Proof.
  unfold int_div_100. intros Hnone.
  destruct z as [| m | m]; cbn [exact_int] in Hnone.
  - discriminate.
  - destruct (exact_div_100 false m) as [(m' & e' & Hq) | [_ Hbig]];
      [rewrite Hq in Hnone; discriminate | exact Hbig].
  - destruct (exact_div_100 true m) as [(m' & e' & Hq) | [_ Hbig]];
      [rewrite Hq in Hnone; discriminate | exact Hbig].
Qed.

Lemma b64_price_of_cases p :
  (exists c, p_price p = Val c /\ c <> 0%Z /\
             b64_price_of p = int_div_100 c) \/
  (b64_price_of p = Some (S754_zero false) /\
   forall c, p_price p = Val c -> c = 0%Z).
Proof.
  unfold b64_price_of. destruct (p_price p) as [| | c]; simpl.
  - right. split; [reflexivity | discriminate].
  - right. split; [reflexivity | discriminate].
  - destruct (Z.eqb_spec c 0) as [-> | Hne]; simpl.
    + right. split; [reflexivity |]. intros c Hc. injection Hc as <-.
      reflexivity.
    + left. exists c. repeat split. exact Hne.
Qed.

Lemma b64_original_price_of_cases p :
  (exists o, p_original_price p = Val o /\ o <> 0%Z /\
             b64_original_price_of p = option_map Some (int_div_100 o)) \/
  (b64_original_price_of p = Some None /\
   forall o, p_original_price p = Val o -> o = 0%Z).
Proof.
  unfold b64_original_price_of.
  destruct (p_original_price p) as [| | o]; simpl.
  - right. split; [reflexivity | discriminate].
  - right. split; [reflexivity | discriminate].
  - destruct (Z.eqb_spec o 0) as [-> | Hne]; simpl.
    + right. split; [reflexivity |]. intros o Ho. injection Ho as <-.
      reflexivity.
    + left. exists o. split; [reflexivity | split; [exact Hne |]].
      destruct (int_div_100 o); reflexivity.
Qed.

(** *** The order of the rounded amounts *)

(** The value kept by the rounding of a mantissa of at least 53 digits: the
    result has a mantissa of exactly 53 digits and differs from the
    argument by at most one unit of its last kept digit. *)
Lemma binary_round_aux_value sx m e l :
  (0 < m)%Z -> (52 <= Z.log2 m)%Z ->
  (-1022 <= Z.log2 m + e)%Z -> (Z.log2 m + e <= 1021)%Z ->
  exists m' e',
    binary_round_aux 53 1024 sx m e l = S754_finite sx m' e' /\
    Z.log2 (Z.pos m') = 52%Z /\ (e <= e')%Z /\
    (m - 2 ^ (Z.log2 m - 52) < Z.pos m' * 2 ^ (e' - e)
     <= m + 2 ^ (Z.log2 m - 52))%Z.
Proof.
  intros Hm Hd He Hfit. unfold binary_round_aux.
  assert (Hd' : (53 <= Zdigits2 m)%Z) by (rewrite Zdigits2_log2; lia).
  assert (He' : (-1021 <= Zdigits2 m + e)%Z) by (rewrite Zdigits2_log2; lia).
  destruct (shr_fexp_cut m e l Hm Hd' He') as [Hm1 He1].
  destruct (shr_fexp 53 1024 m e l) as [mrs1 e1]. cbn [fst snd] in Hm1, He1.
  rewrite Zdigits2_log2 in Hm1, He1 by exact Hm.
  replace (Z.log2 m + 1 - 53)%Z with (Z.log2 m - 52)%Z in Hm1, He1 by lia.
  set (k := (Z.log2 m - 52)%Z) in *.
  assert (Hk : (0 <= k)%Z) by lia.
  assert (Hpk : (0 < 2 ^ k)%Z) by (apply Z.pow_pos_nonneg; lia).
  assert (Hlog1 : Z.log2 (shr_m mrs1) = 52%Z)
    by (rewrite Hm1; apply log2_cut; lia).
  assert (Hpos1 : (0 < shr_m mrs1)%Z).
  { destruct (Z.le_gt_cases (shr_m mrs1) 0) as [Hle |]; [| assumption].
    rewrite (Z.log2_nonpos _ Hle) in Hlog1. discriminate. }
  assert (Hfloor : (shr_m mrs1 * 2 ^ k <= m < (shr_m mrs1 + 1) * 2 ^ k)%Z).
  { rewrite Hm1. split.
    - rewrite Z.mul_comm. apply Z.mul_div_le. exact Hpk.
    - rewrite Z.mul_comm. replace (m / 2 ^ k + 1)%Z with (Z.succ (m / 2 ^ k))
        by lia. apply Z.mul_succ_div_gt. exact Hpk. }
  pose proof (round_nearest_even_bounds (shr_m mrs1)
                (loc_of_shr_record mrs1)) as Hround.
  set (mr := round_nearest_even (shr_m mrs1) (loc_of_shr_record mrs1)) in *.
  assert (Hmr : (0 < mr)%Z) by lia.
  destruct (Z.log2_spec (shr_m mrs1) Hpos1) as [Hlo1 Hup1].
  rewrite Hlog1 in Hlo1, Hup1. change (Z.succ 52) with 53%Z in Hup1.
  assert (Hlogr : (52 <= Z.log2 mr <= 53)%Z).
  { split.
    - rewrite <- Hlog1. apply Z.log2_le_mono. lia.
    - assert (mr <= 2 ^ 53)%Z as Hle by lia.
      apply Z.log2_le_mono in Hle. rewrite Z.log2_pow2 in Hle by lia.
      exact Hle. }
  assert (Hd2 : (53 <= Zdigits2 mr)%Z) by (rewrite Zdigits2_log2; lia).
  assert (He2 : (-1021 <= Zdigits2 mr + e1)%Z)
    by (rewrite Zdigits2_log2; lia).
  destruct (shr_fexp_cut mr e1 loc_Exact Hmr Hd2 He2) as [Hm2 He2'].
  destruct (shr_fexp 53 1024 mr e1 loc_Exact) as [mrs2 e2].
  cbn [fst snd] in Hm2, He2'.
  rewrite Zdigits2_log2 in Hm2, He2' by exact Hmr.
  replace (Z.log2 mr + 1 - 53)%Z with (Z.log2 mr - 52)%Z in Hm2, He2'
    by lia.
  assert (Hlog2 : Z.log2 (shr_m mrs2) = 52%Z)
    by (rewrite Hm2; apply log2_cut; lia).
  assert (Hexact : (shr_m mrs2 * 2 ^ (Z.log2 mr - 52) = mr)%Z).
  { destruct (Z.eq_dec (Z.log2 mr) 52%Z) as [H52 | H53].
    - rewrite Hm2, H52. change (2 ^ (52 - 52))%Z with 1%Z.
      rewrite Z.div_1_r. lia.
    - assert (Z.log2 mr = 53%Z) as Hr by lia.
      destruct (Z.log2_spec mr Hmr) as [Hlor _]. rewrite Hr in Hlor.
      assert (mr = 2 ^ 53)%Z as -> by lia.
      rewrite Hm2. rewrite Z.log2_pow2 by lia. reflexivity. }
  destruct (shr_m mrs2) as [| m2 | m2] eqn:Hm2'; [discriminate | | discriminate].
  destruct (Z.leb_spec e2 (1024 - 53)) as [_ | Hbig]; [| lia].
  exists m2, e2. split; [reflexivity |]. split; [exact Hlog2 |].
  split; [lia |].
  replace (e2 - e)%Z with (Z.log2 mr - 52 + k)%Z by lia.
  rewrite Z.pow_add_r by lia. rewrite Z.mul_assoc, Hexact.
  split.
  - apply Z.lt_le_trans with (m := (shr_m mrs1 * 2 ^ k)%Z); [lia |].
    apply Z.mul_le_mono_nonneg_r; lia.
  - apply Z.le_trans with (m := ((shr_m mrs1 + 1) * 2 ^ k)%Z); [| lia].
    apply Z.mul_le_mono_nonneg_r; lia.
Qed.

(** The quotient handed to the rounding when an amount below [2^59] is
    divided by 100. *)
Lemma div_core_100_small m :
  (Z.pos m < 2 ^ 59)%Z ->
  let d := Z.log2 (Z.pos m) in
  let '(q, e, l) := SFdiv_core_binary 53 1024 (Z.pos m) 0 100 0 in
  e = (d - 59)%Z /\
  (100 * q <= Z.pos m * 2 ^ (59 - d) < 100 * q + 100)%Z /\
  (2 ^ 52 <= q < 2 ^ 54)%Z.
Proof.
  intros Hsmall d. unfold SFdiv_core_binary, fexp, emin.
  change (Zdigits2 100) with 7%Z.
  rewrite Zdigits2_log2 by lia. fold d.
  assert (Hd : (0 <= d)%Z) by apply Z.log2_nonneg.
  destruct (Z.log2_spec (Z.pos m)) as [Hlo Hhi]; [lia |]. fold d in Hlo, Hhi.
  assert (Hd58 : (d <= 58)%Z).
  { apply Z.log2_lt_pow2 in Hsmall; [| lia]. fold d in Hsmall. lia. }
  replace (Z.min (Z.max (d + 1 + 0 - (7 + 0) - 53) (3 - 1024 - 53)) (0 - 0))
    with (d - 59)%Z by lia.
  replace (0 - 0 - (d - 59))%Z with (59 - d)%Z by lia.
  destruct (59 - d)%Z as [| s | s] eqn:Hs; [lia | | lia].
  rewrite Z.shiftl_mul_pow2 by lia.
  set (m' := (Z.pos m * 2 ^ Z.pos s)%Z).
  assert (Hbig : (2 ^ 59 <= m')%Z).
  { unfold m'. replace (2 ^ 59)%Z with (2 ^ d * 2 ^ Z.pos s)%Z
      by (rewrite <- Z.pow_add_r by lia; f_equal; lia).
    apply Z.mul_le_mono_nonneg_r; [apply Z.pow_nonneg; lia | exact Hlo]. }
  assert (Hup : (m' < 2 ^ 60)%Z).
  { unfold m'. replace (2 ^ 60)%Z with (2 ^ Z.succ d * 2 ^ Z.pos s)%Z
      by (rewrite <- Z.pow_add_r by lia; f_equal; lia).
    apply Z.mul_lt_mono_pos_r; [apply Z.pow_pos_nonneg; lia | exact Hhi]. }
  pose proof (Z.div_eucl_eq m' 100) as Heucl.
  pose proof (Z.mod_pos_bound m' 100) as Hmod.
  unfold Z.modulo in Hmod.
  destruct (Z.div_eucl m' 100) as [q r].
  assert (2 ^ 59 = 576460752303423488)%Z as H59 by reflexivity.
  assert (2 ^ 60 = 1152921504606846976)%Z as H60 by reflexivity.
  assert (2 ^ 52 = 4503599627370496)%Z as H52 by reflexivity.
  assert (2 ^ 54 = 18014398509481984)%Z as H54 by reflexivity.
  split; [reflexivity |]. split; lia.
Qed.

(** The division of a positive amount below [2^59] by 100: a number with a
    mantissa of 53 digits, within [600 * z / 2^60] of a hundredth of the
    amount [z]. *)
Lemma int_div_100_value m :
  (Z.pos m < 2 ^ 59)%Z ->
  exists m' e',
    int_div_100 (Z.pos m) = Some (S754_finite false m' e') /\
    Z.log2 (Z.pos m') = 52%Z /\ (-59 <= e')%Z /\
    (Z.pos m * 2 ^ 60 - 600 * Z.pos m
     < 100 * (Z.pos m' * 2 ^ (e' + 60))
     <= Z.pos m * 2 ^ 60 + 600 * Z.pos m)%Z.
Proof.
  intros Hsmall. unfold int_div_100, b64_div. cbn [exact_int].
  pose proof (exact_int_div_100 m false) as Hdiv.
  pose proof (div_core_100_small m Hsmall) as Hcore. cbv zeta in Hcore.
  destruct (SFdiv_core_binary 53 1024 (Z.pos m) 0 100 0) as [[q e] l].
  destruct Hcore as (He & Hq & Hrange).
  set (d := Z.log2 (Z.pos m)) in *.
  assert (Hd : (0 <= d)%Z) by apply Z.log2_nonneg.
  destruct (Z.log2_spec (Z.pos m)) as [Hlo Hhi]; [lia |]. fold d in Hlo, Hhi.
  assert (Hd58 : (d <= 58)%Z).
  { apply Z.log2_lt_pow2 in Hsmall; [| lia]. fold d in Hsmall. lia. }
  rewrite Hdiv. cbn [xorb].
  assert (Hpos : (0 < q)%Z) by (assert (0 < 2 ^ 52)%Z by reflexivity; lia).
  assert (Hlogq : (52 <= Z.log2 q <= 53)%Z).
  { destruct Hrange as [Hql Hqu]. split.
    - apply Z.log2_le_mono in Hql. rewrite Z.log2_pow2 in Hql by lia.
      exact Hql.
    - apply Z.log2_lt_pow2 in Hqu; lia. }
  destruct (binary_round_aux_value false q e l Hpos)
    as (m' & e' & Hres & Hlog & Hee & Hval); try lia.
  rewrite Hres. exists m', e'. split; [reflexivity |].
  split; [exact Hlog |]. split; [lia |].
  assert (Hk : (2 ^ (Z.log2 q - 52) <= 2)%Z).
  { destruct (Z.eq_dec (Z.log2 q) 52%Z) as [-> | Hne].
    - change (2 ^ (52 - 52))%Z with 1%Z. lia.
    - replace (Z.log2 q) with 53%Z by lia. change (2 ^ (53 - 52))%Z with 2%Z.
      lia. }
  set (w := (Z.pos m' * 2 ^ (e' - e))%Z) in *.
  assert (Hw : (Z.pos m' * 2 ^ (e' + 60) = w * 2 ^ (d + 1))%Z).
  { unfold w. rewrite <- Z.mul_assoc, <- Z.pow_add_r by lia.
    f_equal. f_equal. lia. }
  rewrite Hw.
  assert (Hz : (Z.pos m * 2 ^ 60
                = Z.pos m * 2 ^ (59 - d) * 2 ^ (d + 1))%Z).
  { rewrite <- Z.mul_assoc, <- Z.pow_add_r by lia. f_equal. f_equal. lia. }
  rewrite Hz.
  assert (Hp : (0 < 2 ^ (d + 1) <= 2 * Z.pos m)%Z).
  { split; [apply Z.pow_pos_nonneg; lia |].
    rewrite Z.pow_add_r by lia. change (2 ^ 1)%Z with 2%Z. lia. }
  set (zs := (Z.pos m * 2 ^ (59 - d))%Z) in *.
  set (p := (2 ^ (d + 1))%Z) in *.
  clearbody w zs p.
  assert (Hlow : (zs - 300 < 100 * w)%Z) by lia.
  assert (Hhigh : (100 * w <= zs + 200)%Z) by lia.
  split.
  - apply Z.le_lt_trans with (m := ((zs - 300) * p)%Z); [nia |]. nia.
  - apply Z.le_trans with (m := ((zs + 200) * p)%Z); [nia |]. nia.
Qed.

(** Numbers with mantissas of 53 digits compare as their values do. *)
Lemma SFltb_normal m1 e1 m2 e2 :
  Z.log2 (Z.pos m1) = 52%Z -> Z.log2 (Z.pos m2) = 52%Z ->
  (-59 <= e1)%Z -> (-59 <= e2)%Z ->
  SFltb (S754_finite false m1 e1) (S754_finite false m2 e2) = true <->
  (Z.pos m1 * 2 ^ (e1 + 60) < Z.pos m2 * 2 ^ (e2 + 60))%Z.
Proof.
  intros H1 H2 He1 He2.
  destruct (Z.log2_spec (Z.pos m1)) as [Hl1 Hu1]; [lia |].
  destruct (Z.log2_spec (Z.pos m2)) as [Hl2 Hu2]; [lia |].
  rewrite H1 in Hl1, Hu1. rewrite H2 in Hl2, Hu2.
  change (Z.succ 52) with 53%Z in Hu1, Hu2.
  assert (2 ^ 52 = 4503599627370496)%Z as H52 by reflexivity.
  assert (2 ^ 53 = 9007199254740992)%Z as H53 by reflexivity.
  unfold SFltb, SFcompare.
  destruct (Z.compare_spec e1 e2) as [Heq | Hlt | Hgt].
  - subst e2. rewrite Pos.compare_cont_spec. cbn [Pos.switch_Eq].
    assert (Hp : (0 < 2 ^ (e1 + 60))%Z) by (apply Z.pow_pos_nonneg; lia).
    destruct (Pos.compare_spec m1 m2) as [Hm | Hm | Hm].
    + subst m2. split; [discriminate | lia].
    + split; [intros _ | reflexivity].
      apply Z.mul_lt_mono_pos_r; [exact Hp | lia].
    + split; [discriminate |]. intros Hv.
      apply Z.mul_lt_mono_pos_r in Hv; [lia | exact Hp].
  - split; [intros _ | reflexivity].
    replace (e2 + 60)%Z with (e1 + 60 + (e2 - e1))%Z by lia.
    rewrite (Z.pow_add_r 2 (e1 + 60) (e2 - e1)) by lia.
    assert (Hp : (0 < 2 ^ (e1 + 60))%Z) by (apply Z.pow_pos_nonneg; lia).
    assert (Hq : (2 <= 2 ^ (e2 - e1))%Z).
    { change 2%Z with (2 ^ 1)%Z at 1. apply Z.pow_le_mono_r; lia. }
    assert (Hm : (Z.pos m1 < Z.pos m2 * 2 ^ (e2 - e1))%Z) by nia.
    rewrite (Z.mul_comm (2 ^ (e1 + 60))), Z.mul_assoc.
    apply Z.mul_lt_mono_pos_r; [exact Hp | exact Hm].
  - split; [discriminate |]. intros Hv. exfalso.
    replace (e1 + 60)%Z with (e2 + 60 + (e1 - e2))%Z in Hv by lia.
    rewrite (Z.pow_add_r 2 (e2 + 60) (e1 - e2)) in Hv by lia.
    assert (Hp : (0 < 2 ^ (e2 + 60))%Z) by (apply Z.pow_pos_nonneg; lia).
    assert (Hq : (2 <= 2 ^ (e1 - e2))%Z).
    { change 2%Z with (2 ^ 1)%Z at 1. apply Z.pow_le_mono_r; lia. }
    assert (Hm : (Z.pos m2 < Z.pos m1 * 2 ^ (e1 - e2))%Z) by nia.
    rewrite (Z.mul_comm (2 ^ (e2 + 60))), Z.mul_assoc in Hv.
    apply Z.mul_lt_mono_pos_r in Hv; [lia | exact Hp].
Qed.

(** Below [2^49] minor units the rounded amounts are ordered as the
    amounts are. *)
Lemma int_div_100_order c o fc fo :
  (0 < c < 2 ^ 49)%Z -> (0 < o < 2 ^ 49)%Z ->
  int_div_100 c = Some fc -> int_div_100 o = Some fo ->
  SFltb fc fo = true <-> (c < o)%Z.
Proof.
  intros Hc Ho Hfc Hfo.
  assert (2 ^ 49 = 562949953421312)%Z as H49 by reflexivity.
  assert (2 ^ 59 = 576460752303423488)%Z as H59 by reflexivity.
  assert (2 ^ 60 = 1152921504606846976)%Z as H60 by reflexivity.
  destruct c as [| mc | mc]; try lia. destruct o as [| mo | mo]; try lia.
  destruct (int_div_100_value mc) as (m1 & e1 & Hv1 & Hl1 & He1 & Hb1);
    [lia |].
  destruct (int_div_100_value mo) as (m2 & e2 & Hv2 & Hl2 & He2 & Hb2);
    [lia |].
  rewrite Hv1 in Hfc. injection Hfc as <-.
  rewrite Hv2 in Hfo. injection Hfo as <-.
  rewrite (SFltb_normal m1 e1 m2 e2 Hl1 Hl2 He1 He2).
  rewrite H60 in Hb1, Hb2.
  set (w1 := (Z.pos m1 * 2 ^ (e1 + 60))%Z) in *.
  set (w2 := (Z.pos m2 * 2 ^ (e2 + 60))%Z) in *.
  split.
  - intros Hw. destruct (Z.lt_trichotomy (Z.pos mc) (Z.pos mo))
      as [Hlt | [Heq | Hgt]]; [exact Hlt | | lia].
    injection Heq as ->. rewrite Hv1 in Hv2. injection Hv2 as -> ->. lia.
  - intros Hlt. lia.
Qed.

(** C8 does not hold as worded: a product whose price and original price are
    both present, with the original price above the price, gets no discount
    value when the price is 0. *)
Lemma free_item_no_discount_cex :
  p_price free_item = Val 0%Z /\
  p_original_price free_item = Val 600%Z /\
  (0 < 600)%Z /\
  option_map amount_discount_percent (b64_normalize_product free_item)
  = Some None.
Proof. repeat split. Qed.

(** Nor is the comparison one of the amounts in minor units: the amounts
    [10^17 + 1] and [10^17] are the same binary64 number after the division
    by 100, and no discount is computed. *)
Lemma equal_after_division_no_discount :
  p_price huge_item = Val 100000000000000000%Z /\
  p_original_price huge_item = Val 100000000000000001%Z /\
  int_div_100 100000000000000001 = int_div_100 100000000000000000 /\
  option_map amount_discount_percent (b64_normalize_product huge_item)
  = Some None.
Proof. repeat split. Qed.

(** C8, amended: normalisation computes the discount
    [(original - price) / original * 100], in binary64 arithmetic on the
    amounts [original / 100] and [price / 100], exactly when the original
    price and the price are both present and not zero and the original
    amount is greater than the price amount as binary64 numbers; in every
    other case, among them a product without original price, the discount
    is [None], not zero.  For positive amounts below [2^49] minor units the
    binary64 amounts compare as the amounts in minor units do: there is a
    discount exactly when the original price is above the price.  The
    normalisation raises only when an amount is beyond the range of the
    floats. *)
Theorem discount_exactly_when (p : RawProduct) :
  match b64_normalize_product p with
  | Some amounts =>
      (forall d,
         amount_discount_percent amounts = Some d <->
         exists o c original_price price,
           p_original_price p = Val o /\ p_price p = Val c /\
           o <> 0%Z /\ c <> 0%Z /\
           int_div_100 o = Some original_price /\
           int_div_100 c = Some price /\
           SFltb price original_price = true /\
           d = b64_mul (b64_div (b64_sub original_price price)
                          original_price) b64_hundred) /\
      (forall o c,
         p_original_price p = Val o -> p_price p = Val c ->
         (0 < c < 2 ^ 49)%Z -> (0 < o < 2 ^ 49)%Z ->
         (is_Some (amount_discount_percent amounts) <-> (c < o)%Z)) /\
      (get (p_original_price p) = None ->
       amount_discount_percent amounts = None)
  | None =>
      exists c,
        (p_price p = Val c \/ p_original_price p = Val c) /\
        (2 ^ 1029 <= Z.abs c)%Z
  end.
Proof.
  unfold b64_normalize_product.
  destruct (b64_price_of_cases p) as [(c & Hc & Hcne & Hpc) | [Hpc Hzero]];
    rewrite Hpc.
  - destruct (int_div_100 c) as [price |] eqn:Hprice.
    2:{ exists c. split; [left; exact Hc |].
        apply int_div_100_overflow. exact Hprice. }
    destruct (b64_original_price_of_cases p)
      as [(o & Ho & Hone & Hop) | [Hop Hnone]]; rewrite Hop.
    + destruct (int_div_100 o) as [original_price |] eqn:Horiginal;
        cbn [option_map].
      2:{ exists o. split; [right; exact Ho |].
          apply int_div_100_overflow. exact Horiginal. }
      cbn [amount_discount_percent]. unfold b64_discount_of.
      rewrite (int_div_100_truthy o original_price Horiginal Hone).
      rewrite (int_div_100_truthy c price Hprice Hcne).
      cbn [andb]. split; [| split].
      * intros d. split.
        -- destruct (SFltb price original_price) eqn:Hlt; [| discriminate].
           intros Hd. injection Hd as <-.
           exists o, c, original_price, price. repeat split; assumption.
        -- intros (o' & c' & fo & fc & Ho' & Hc' & _ & _ & Hfo & Hfc
                   & Hlt & ->).
           rewrite Ho in Ho'. injection Ho' as <-.
           rewrite Hc in Hc'. injection Hc' as <-.
           rewrite Horiginal in Hfo. injection Hfo as <-.
           rewrite Hprice in Hfc. injection Hfc as <-.
           rewrite Hlt. reflexivity.
      * intros o' c' Ho' Hc' Hcpos Hopos.
        rewrite Ho in Ho'. injection Ho' as <-.
        rewrite Hc in Hc'. injection Hc' as <-.
        rewrite <- (int_div_100_order c o price original_price
                      Hcpos Hopos Hprice Horiginal).
        destruct (SFltb price original_price).
        -- split; [reflexivity | eauto].
        -- split; [intros [x Hx]; discriminate | discriminate].
      * rewrite Ho. discriminate.
    + cbn [amount_discount_percent b64_discount_of]. split; [| split].
      * intros d. split; [discriminate |].
        intros (o' & _ & _ & _ & Ho' & _ & Hone & _).
        destruct Hone. apply Hnone. exact Ho'.
      * intros o' c' Ho' _ _ Hopos. apply Hnone in Ho'. lia.
      * reflexivity.
  - destruct (b64_original_price_of_cases p)
      as [(o & Ho & Hone & Hop) | [Hop Hnone]]; rewrite Hop.
    + destruct (int_div_100 o) as [original_price |] eqn:Horiginal;
        cbn [option_map].
      2:{ exists o. split; [right; exact Ho |].
          apply int_div_100_overflow. exact Horiginal. }
      cbn [amount_discount_percent]. split; [| split].
      * intros d. unfold b64_discount_of. cbn [b64_truthy].
        rewrite andb_false_r. cbn [andb]. split; [discriminate |].
        intros (_ & c' & _ & _ & _ & Hc' & _ & Hcne & _).
        destruct Hcne. apply Hzero. exact Hc'.
      * intros o' c' _ Hc' Hcpos _. apply Hzero in Hc'. lia.
      * rewrite Ho. discriminate.
    + cbn [amount_discount_percent b64_discount_of]. split; [| split].
      * intros d. split; [discriminate |].
        intros (o' & _ & _ & _ & Ho' & _ & Hone & _).
        destruct Hone. apply Hnone. exact Ho'.
      * intros o' c' Ho' _ _ Hopos. apply Hnone in Ho'. lia.
      * reflexivity.
Qed.

Lemma discount_exactly_when_witness :
  (exists amounts d q,
     b64_normalize_product discounted_item = Some amounts /\
     amount_discount_percent amounts = Some d /\
     b64_value d = Some q /\ q == 25) /\
  option_map amount_discount_percent (b64_normalize_product regular_item)
  = Some None.
Proof.
  split.
  - pose proof (discount_exactly_when discounted_item) as H.
    destruct (b64_normalize_product discounted_item) as [amounts |] eqn:Hn;
      [| vm_compute in Hn; discriminate].
    destruct H as (Hiff & _ & _).
    exists amounts,
      (b64_mul
         (b64_div (b64_sub (S754_finite false 6755399441055744 (-50))
                           (S754_finite false 5066549580791808 (-50)))
                  (S754_finite false 6755399441055744 (-50)))
         b64_hundred).
    eexists. split; [reflexivity |]. split; [| split].
    + apply Hiff.
      exists 600%Z, 450%Z, (S754_finite false 6755399441055744 (-50)),
        (S754_finite false 5066549580791808 (-50)).
      repeat split; try reflexivity; lia.
    + vm_compute. reflexivity.
    + vm_compute. reflexivity.
  - pose proof (discount_exactly_when regular_item) as H.
    destruct (b64_normalize_product regular_item) as [amounts |] eqn:Hn;
      [| vm_compute in Hn; discriminate].
    destruct H as (_ & _ & Hnone). cbn [option_map]. f_equal.
    apply Hnone. reflexivity.
Defined.

(** The example of the specification, and a discount that is not a round
    number: [(3.0 - 2.0) / 3.0 * 100] is the binary64 number
    [4691249611844266 / 2^47], a little under [100/3]. *)
Lemma b64_discount_examples :
  b64_discount_of (int_div_100 600)
    (default (S754_zero false) (int_div_100 450))
  = Some (S754_finite false 7036874417766400 (-48)) /\
  inject_Z 7036874417766400 / inject_Z (2 ^ 48) == 25 /\
  b64_discount_of (int_div_100 300)
    (default (S754_zero false) (int_div_100 200))
  = Some (S754_finite false 4691249611844266 (-47)).
Proof. repeat split; vm_compute; reflexivity. Qed.

(** On binary64 numbers the example of the specification comes out as
    exactly 25.0 as well. *)
Lemma float_discount_example :
  PrimFloat.eqb (float_discount 600 450) 25%float = true.
Proof. vm_compute. reflexivity. Qed.

(** C9 does not hold as worded, in its first half: a product without a price
    is normalised to the price 0, the very value a product priced at 0 gets;
    there is no separate unknown value. *)
Lemma absent_price_is_zero_cex :
  p_price unpriced_item = Missing /\
  price (normalize_product unpriced_item) = 0 /\
  price (normalize_product unpriced_item)
    = price (normalize_product zero_priced_item).
Proof. repeat split. Qed.

(** C9, amended: a product without a price (key missing or null) is
    normalised to the price 0, like a product priced at 0, and the pricing
    statistics leave it out: the list of prices that the average, the median,
    the minimum and the maximum are computed from holds only prices above 0,
    and it is the same list, with the same figures, as for the product set
    without that product. *)
Theorem priceless_products_do_not_count
    (before after : list RawProduct) (p : RawProduct) :
  (forall c, p_price p <> Val c) ->
  price (normalize_product p) = 0 /\
  priced (normalize_products (before ++ p :: after))
    = priced (normalize_products (before ++ after)) /\
  Forall (fun x => 0 < x)
    (priced (normalize_products (before ++ p :: after))) /\
  option_map price_figures
    (pricing_analysis (normalize_products (before ++ p :: after)))
  = option_map price_figures
      (pricing_analysis (normalize_products (before ++ after))).
Proof.
  intros Habsent.
  assert (price (normalize_product p) = 0) as Hzero.
  { unfold normalize_product. cbn [price]. unfold price_of.
    destruct (p_price p) as [| | c]; [reflexivity | reflexivity |].
    destruct (Habsent c eq_refl). }
  assert (priced (normalize_products (before ++ p :: after))
          = priced (normalize_products (before ++ after))) as Hsame.
  { unfold normalize_products. rewrite !map_app. cbn [map].
    rewrite !priced_app. f_equal.
    change (normalize_product p :: map normalize_product after)
      with ([normalize_product p] ++ map normalize_product after)%list.
    rewrite priced_app. unfold priced at 1. cbn [List.filter].
    rewrite Hzero. reflexivity. }
  split; [exact Hzero | split; [exact Hsame | split]].
  - apply priced_positive.
  - unfold pricing_analysis. rewrite Hsame.
    destruct (priced (normalize_products (before ++ after))); reflexivity.
Qed.

Lemma priceless_products_do_not_count_witness :
  (forall c, p_price unpriced_item <> Val c) /\
  priced (normalize_products [discounted_item; unpriced_item; regular_item])
    = priced (normalize_products [discounted_item; regular_item]) /\
  option_map price_figures
    (pricing_analysis
       (normalize_products [discounted_item; unpriced_item; regular_item]))
  = option_map price_figures
      (pricing_analysis (normalize_products [discounted_item; regular_item])).
Proof.
  assert (forall c, p_price unpriced_item <> Val c) as Habsent
    by (intros c; discriminate).
  split; [exact Habsent |].
  destruct (priceless_products_do_not_count [discounted_item] [regular_item]
              unpriced_item Habsent) as (_ & Hsame & _ & Hfig).
  split; [exact Hsame | exact Hfig].
Defined.

End PricingFacts.

(** * Further properties of the harvest code *)

Set Warnings "-clear-no-such-hyp".

(** ** The deduplicating merge *)

(** X1: merging a batch a second time changes nothing: the store after the
    first merge comes back as it is, with 0 new items. *)
Theorem merge_items_idempotent (products : Store) (items : list Item) :
  merge_items (merge_items products items).1 items
  = ((merge_items products items).1, 0).
Proof.
  apply merge_items_absorbed. apply Forall_forall. intros item Hin Ht.
  apply merge_items_covers; assumption.
Qed.

(** X2: merging two batches one after the other is merging their
    concatenation: the stores agree and the counts of new items add up. *)
Theorem merge_items_concat (products : Store) (first second : list Item) :
  merge_items products (first ++ second)
  = ((merge_items (merge_items products first).1 second).1,
     (merge_items products first).2
     + (merge_items (merge_items products first).1 second).2).
Proof.
  unfold merge_items at 1. rewrite fold_left_app.
  fold (merge_items products first).
  destruct (merge_items products first) as [products' m].
  apply fold_merge_count.
Qed.

Lemma item_ids_cons item items :
  item_ids (item :: items)
  = if truthy (item_get item "id")
    then {[item_get item "id"]} ∪ item_ids items
    else item_ids items.
Proof.
  unfold item_ids. cbn [map List.filter].
  destruct (truthy (item_get item "id")); reflexivity.
Qed.

Lemma merge_items_ids items : forall products : Store,
  dom (merge_items products items).1 = dom products ∪ item_ids items /\
  (merge_items products items).2 = size (item_ids items ∖ dom products).
Proof.
  induction items as [| item items IH]; intros products.
  - unfold merge_items, item_ids. simpl. split; [set_solver |].
    replace (∅ ∖ dom products) with (∅ : gset pyval) by set_solver.
    reflexivity.
  - rewrite merge_items_cons, item_ids_cons. unfold merge_item.
    destruct (truthy (item_get item "id")) eqn:Ht.
    + destruct (products !! item_get item "id") as [p |] eqn:Hid.
      * destruct (IH products) as [Hdom Hnew]. cbn [fst snd].
        assert (item_get item "id" ∈ dom products) as Hin
          by (apply elem_of_dom; eauto).
        split; [rewrite Hdom; set_solver |].
        rewrite Hnew. simpl. f_equal. set_solver.
      * destruct (IH (<[item_get item "id" := item]> products))
          as [Hdom Hnew]. cbn [fst snd].
        assert (item_get item "id" ∉ dom products) as Hnotin
          by (apply not_elem_of_dom; exact Hid).
        split; [rewrite Hdom, dom_insert_L; set_solver |].
        rewrite Hnew, dom_insert_L.
        replace (({[item_get item "id"]} ∪ item_ids items) ∖ dom products)
          with ({[item_get item "id"]}
                ∪ item_ids items ∖ ({[item_get item "id"]} ∪ dom products)).
        -- assert (size ({[item_get item "id"]}
                         ∪ item_ids items
                           ∖ ({[item_get item "id"]} ∪ dom products))
                   = size ({[item_get item "id"]} : gset pyval)
                     + size (item_ids items
                             ∖ ({[item_get item "id"]} ∪ dom products)))
             as -> by (apply size_union; set_solver).
           rewrite size_singleton. lia.
        -- apply set_eq. intros k. rewrite !elem_of_union, !elem_of_difference,
             !elem_of_union, !elem_of_singleton.
           destruct (decide (k = item_get item "id")) as [-> | Hne]; tauto.
    + destruct (IH products) as [Hdom Hnew]. cbn [fst snd].
      split; [exact Hdom |]. rewrite Hnew. simpl. reflexivity.
Qed.

(** X3: after a merge the store holds the ids it held before and the truthy
    ids of the batch, no other; and the count of new items is the number of
    distinct truthy ids of the batch that the store did not hold.  Items
    without a truthy id leave no trace. *)
Theorem merge_items_new_ids (products : Store) (items : list Item) :
  dom (merge_items products items).1 = dom products ∪ item_ids items /\
  (merge_items products items).2 = size (item_ids items ∖ dom products).
Proof. apply merge_items_ids. Qed.

Lemma merge_item_well_keyed (products : Store) n item :
  well_keyed products -> well_keyed (merge_item (products, n) item).1.
Proof.
  intros Hw. unfold merge_item.
  destruct (truthy (item_get item "id")) eqn:Ht; [| exact Hw].
  destruct (products !! item_get item "id") eqn:Hid; [exact Hw |].
  cbn [fst]. intros k p Hk.
  destruct (decide (item_get item "id" = k)) as [<- | Hne].
  - rewrite lookup_insert_eq in Hk. injection Hk as <-. split; [reflexivity | exact Ht].
  - rewrite lookup_insert_ne in Hk by exact Hne. apply (Hw k p Hk).
Qed.

Lemma merge_items_well_keyed items : forall products : Store,
  well_keyed products -> well_keyed (merge_items products items).1.
Proof.
  induction items as [| item items IH]; intros products Hw.
  - exact Hw.
  - rewrite merge_items_cons.
    pose proof (merge_item_well_keyed products 0 item Hw) as Hw'.
    destruct (merge_item (products, 0) item) as [products' m]. cbn [fst] in *.
    apply IH. exact Hw'.
Qed.

Lemma scrape_loop_well_keyed visits : forall self t self' t',
  scrape_loop (self, t) visits = Some (self', t') ->
  well_keyed (all_products self) -> well_keyed (all_products self').
Proof.
  induction visits as [| visit visits IH]; intros self t self' t' Hrun Hw.
  - injection Hrun as <- <-. exact Hw.
  - cbn [scrape_loop] in Hrun.
    destruct (scrape_category (self, t) visit) as [[self1 t1] |] eqn:Hstep;
      [| discriminate].
    pose proof (scrape_category_inv _ _ _ _ _ Hstep) as Hnamed.
    destruct (scrape_category_named self t visit Hnamed) as (t2 & Hstep' & _).
    rewrite Hstep in Hstep'. injection Hstep' as -> _.
    eapply IH; [exact Hrun |]. unfold after_visit. cbn [all_products].
    apply merge_items_well_keyed. exact Hw.
Qed.

Lemma sweep_loop_well_keyed exchanges : forall products : Store,
  well_keyed products -> well_keyed (sweep_loop products exchanges).1.
Proof.
  induction exchanges as [| [query r] rest IH]; intros products Hw.
  - exact Hw.
  - cbn [sweep_loop].
    pose proof (merge_items_well_keyed (search_items r) products Hw) as Hm.
    destruct (merge_items products (search_items r)) as [products' new].
    cbn [fst] in Hm. destruct (Nat.eqb new 0); [exact Hm |].
    specialize (IH products' Hm).
    destruct (sweep_loop products' rest) as [final issued]. exact IH.
Qed.

(** X4: through the category loop and the sweep after it, every product sits
    in the store under its own id, and that id is truthy: an item whose id
    is missing, [None], empty or 0 is never stored, and the stamping of the
    category does not touch the id. *)
Theorem harvest_well_keyed
    (self self' : Scraper) (t t' : Tally)
    (visits : list (Category * response))
    (exchanges : list (string * response)) :
  well_keyed (all_products self) ->
  scrape_loop (self, t) visits = Some (self', t') ->
  well_keyed (all_products self') /\
  well_keyed (sweep_loop (all_products self') exchanges).1.
Proof.
  intros Hw Hrun.
  pose proof (scrape_loop_well_keyed visits self t self' t' Hrun Hw) as Hw'.
  split; [exact Hw' | apply sweep_loop_well_keyed; exact Hw'].
Qed.

Lemma harvest_well_keyed_witness :
  well_keyed (all_products (empty_scraper three_categories)) /\
  exists self' t',
    scrape_loop (empty_scraper three_categories, tally0)
      (visits_of three_categories one_failure_session) = Some (self', t') /\
    well_keyed (sweep_loop (all_products self') three_exchanges).1.
Proof.
  assert (well_keyed (all_products (empty_scraper three_categories))) as Hw.
  { intros k p Hk. unfold empty_scraper in Hk. cbn [all_products] in Hk.
    rewrite lookup_empty in Hk. discriminate. }
  split; [exact Hw |].
  destruct (scrape_loop (empty_scraper three_categories, tally0)
              (visits_of three_categories one_failure_session))
    as [[self' t'] |] eqn:Hrun; [| vm_compute in Hrun; discriminate].
  exists self', t'. split; [reflexivity |].
  apply (harvest_well_keyed _ _ _ _ _ three_exchanges Hw Hrun).
Defined.

(** ** The category loop *)

Lemma scrape_category_step self t visit self' t' :
  scrape_category (self, t) visit = Some (self', t') ->
  self' = after_visit self visit /\ t' = bump_tally t visit.
Proof.
  intros Hstep.
  pose proof (scrape_category_inv _ _ _ _ _ Hstep) as Hnamed.
  destruct (scrape_category_named self t visit Hnamed) as (t2 & Hstep' & _).
  split; [congruence |].
  destruct visit as [c r]. unfold scrape_category in Hstep.
  unfold bump_tally, has_items, items_of. cbn [fst snd] in *.
  destruct (cat_name c) as [nm |]; [| discriminate].
  destruct (get_category_items (cat_slug c) (Some nm) r) as [| x xs].
  - injection Hstep as _ <-. f_equal; lia.
  - destruct (merge_items (all_products self) (x :: xs)) as [products new].
    injection Hstep as _ <-. f_equal; lia.
Qed.

Lemma scrape_loop_cons self t visit visits self' t' :
  scrape_loop (self, t) (visit :: visits) = Some (self', t') ->
  is_Some (cat_name visit.1) /\
  scrape_loop (after_visit self visit, bump_tally t visit) visits
  = Some (self', t').
Proof.
  cbn [scrape_loop]. intros Hrun.
  destruct (scrape_category (self, t) visit) as [[self1 t1] |] eqn:Hstep;
    [| discriminate].
  split; [eapply scrape_category_inv; exact Hstep |].
  destruct (scrape_category_step _ _ _ _ _ Hstep) as [-> ->]. exact Hrun.
Qed.

Lemma scrape_loop_tally visits : forall self t self' t',
  scrape_loop (self, t) visits = Some (self', t') ->
  total_requests t' = total_requests t + List.length visits /\
  successful_requests t'
    = successful_requests t + List.length (List.filter has_items visits) /\
  categories_with_items t'
    = categories_with_items t + List.length (List.filter has_items visits).
Proof.
  induction visits as [| visit visits IH]; intros self t self' t' Hrun.
  - injection Hrun as <- <-. simpl. lia.
  - apply scrape_loop_cons in Hrun as [_ Hrun].
    destruct (IH _ _ _ _ Hrun) as (H1 & H2 & H3).
    cbn [List.filter List.length]. unfold bump_tally in *.
    cbn [total_requests successful_requests categories_with_items] in *.
    destruct (has_items visit); simpl; lia.
Qed.

(** X5: the counters of the category loop.  Every visit counts as a request;
    a visit counts as a successful call, and as a category with items, only
    when it brought at least one item.  So the two counters always move
    together, and a 2xx response with an empty listing is not counted as a
    successful call. *)
Theorem scrape_loop_counters
    (self self' : Scraper) (t t' : Tally)
    (visits : list (Category * response)) :
  scrape_loop (self, t) visits = Some (self', t') ->
  total_requests t' = total_requests t + List.length visits /\
  successful_requests t'
    = successful_requests t + List.length (List.filter has_items visits) /\
  categories_with_items t'
    = categories_with_items t + List.length (List.filter has_items visits) /\
  successful_requests t' - successful_requests t
    <= total_requests t' - total_requests t.
Proof.
  intros Hrun. destruct (scrape_loop_tally visits self t self' t' Hrun)
    as (H1 & H2 & H3).
  split; [exact H1 | split; [exact H2 | split; [exact H3 |]]].
  pose proof (filter_length_le has_items visits). lia.
Qed.

Lemma scrape_loop_counters_witness :
  exists self' t',
    scrape_loop (empty_scraper three_categories, tally0)
      (visits_of three_categories one_failure_session) = Some (self', t') /\
    total_requests t' = 3 /\ successful_requests t' = 2 /\
    categories_with_items t' = 2.
Proof.
  destruct (scrape_loop (empty_scraper three_categories, tally0)
              (visits_of three_categories one_failure_session))
    as [[self' t'] |] eqn:Hrun; [| vm_compute in Hrun; discriminate].
  exists self', t'. split; [reflexivity |].
  destruct (scrape_loop_counters _ _ _ _ _ Hrun) as (H1 & H2 & H3 & _).
  split; [exact H1 | split; [exact H2 | exact H3]].
Defined.

Lemma sum_new_insert (stats : gmap (option string) CategoryStat) slug st :
  stats !! slug = None ->
  sum_new (<[slug := st]> stats) = new_items st + sum_new stats.
Proof.
  intros Hfresh. unfold sum_new.
  rewrite map_fold_insert_L; [reflexivity | | exact Hfresh].
  intros. lia.
Qed.

Lemma after_visit_empty self visit :
  has_items visit = false -> after_visit self visit = self.
Proof.
  unfold has_items, after_visit. intros Hf.
  destruct (items_of visit); [| discriminate].
  destruct self; reflexivity.
Qed.

Lemma after_visit_full self visit :
  has_items visit = true ->
  category_stats (after_visit self visit)
  = <[cat_slug visit.1 := stat_of (all_products self) visit]>
      (category_stats self).
Proof.
  unfold has_items, after_visit. cbn [category_stats].
  destruct (items_of visit); [discriminate | reflexivity].
Qed.

Lemma scrape_loop_sum_new visits : forall self t self' t',
  scrape_loop (self, t) visits = Some (self', t') ->
  NoDup (map (fun visit => cat_slug visit.1) (List.filter has_items visits)) ->
  Forall (fun visit => has_items visit = true ->
                       category_stats self !! cat_slug visit.1 = None)
    visits ->
  sum_new (category_stats self') + size (all_products self)
  = sum_new (category_stats self) + size (all_products self').
Proof.
  induction visits as [| visit visits IH];
    intros self t self' t' Hrun Hdistinct Hfresh.
  - injection Hrun as <- <-. lia.
  - apply scrape_loop_cons in Hrun as [_ Hrun].
    inversion Hfresh as [| ? ? Hv Hrest]; subst.
    cbn [List.filter] in Hdistinct.
    destruct (has_items visit) eqn:Hitems.
    + cbn [map] in Hdistinct.
      apply list.NoDup_cons in Hdistinct as [Hnotin Hnodup].
      specialize (IH _ _ _ _ Hrun Hnodup).
      rewrite (after_visit_full self visit Hitems) in IH.
      rewrite sum_new_insert in IH by (apply Hv; reflexivity).
      unfold after_visit in IH at 1. cbn [all_products] in IH.
      rewrite merge_items_size in IH. unfold stat_of in IH.
      cbn [new_items] in IH.
      assert (Forall (fun v => has_items v = true ->
                <[cat_slug visit.1 := stat_of (all_products self) visit]>
                  (category_stats self) !! cat_slug v.1 = None) visits) as Hf.
      { apply Forall_forall. intros v Hin Hvi.
        rewrite Forall_forall in Hrest.
        rewrite lookup_insert_ne; [apply Hrest; assumption |].
        intros Heq. apply Hnotin. apply list_elem_of_In.
        apply in_map_iff. exists v. split; [symmetry; exact Heq |].
        apply filter_In. split; assumption. }
      specialize (IH Hf). lia.
    + rewrite (after_visit_empty self visit Hitems) in Hrun.
      apply (IH _ _ _ _ Hrun Hdistinct Hrest).
Qed.

(** X6: the statistics account for the store.  Run the category loop from a
    scraper without statistics; if the categories that bring items have
    pairwise different slugs, the [new_items] counts of the statistics add up
    to the number of products the store gained. *)
Theorem stats_account_for_store
    (self self' : Scraper) (t t' : Tally)
    (visits : list (Category * response)) :
  category_stats self = ∅ ->
  NoDup (map (fun visit => cat_slug visit.1) (List.filter has_items visits)) ->
  scrape_loop (self, t) visits = Some (self', t') ->
  size (all_products self) + sum_new (category_stats self')
  = size (all_products self').
Proof.
  intros Hempty Hdistinct Hrun.
  pose proof (scrape_loop_sum_new visits self t self' t' Hrun Hdistinct) as H.
  rewrite Hempty in H. unfold sum_new at 2 in H. rewrite map_fold_empty in H.
  assert (Forall (fun visit : Category * response =>
                    has_items visit = true ->
                    (∅ : gmap (option string) CategoryStat)
                      !! cat_slug visit.1 = None) visits) as Hfresh.
  { apply Forall_forall. intros v _ _. apply lookup_empty. }
  specialize (H Hfresh). lia.
Qed.

Lemma stats_account_for_store_witness :
  exists self' t',
    scrape_loop (empty_scraper three_categories, tally0)
      (visits_of three_categories one_failure_session) = Some (self', t') /\
    sum_new (category_stats self') = size (all_products self').
Proof.
  destruct (scrape_loop (empty_scraper three_categories, tally0)
              (visits_of three_categories one_failure_session))
    as [[self' t'] |] eqn:Hrun; [| vm_compute in Hrun; discriminate].
  exists self', t'. split; [reflexivity |].
  apply (stats_account_for_store (empty_scraper three_categories) self'
           tally0 t' (visits_of three_categories one_failure_session)).
  - reflexivity.
  - vm_compute. repeat constructor; set_solver.
  - exact Hrun.
Defined.

Lemma scrape_loop_stats_size visits : forall self t self' t',
  scrape_loop (self, t) visits = Some (self', t') ->
  all_categories self' = all_categories self /\
  size (category_stats self')
    <= size (category_stats self)
       + List.length (List.filter has_items visits).
Proof.
  induction visits as [| visit visits IH]; intros self t self' t' Hrun.
  - injection Hrun as <- <-. simpl. split; [reflexivity | lia].
  - apply scrape_loop_cons in Hrun as [_ Hrun].
    destruct (IH _ _ _ _ Hrun) as [Hcats Hsize]. split; [exact Hcats |].
    cbn [List.filter]. destruct (has_items visit) eqn:Hitems.
    + rewrite (after_visit_full self visit Hitems) in Hsize.
      cbn [List.length].
      destruct (category_stats self !! cat_slug visit.1) eqn:Hslug.
      * rewrite map_size_insert_Some in Hsize by eauto. lia.
      * rewrite map_size_insert_None in Hsize by exact Hslug. lia.
    + rewrite (after_visit_empty self visit Hitems) in Hsize. exact Hsize.
Qed.

(** X7: the figures of the completeness report after a harvest.  For a
    scraper without statistics, after [scrape_all_products] the number of
    categories with items reported by [verify_completeness] is at most the
    number of categories (it is smaller than the loop's own counter when two
    categories with items share a slug), so the number of empty categories
    is not negative, and the flagged dictionary is no larger than the
    statistics. *)
Theorem completeness_counts_after_harvest
    (self self' : Scraper) (t' : Tally) (returned : Store)
    (session : nat -> response) :
  category_stats self = ∅ ->
  scrape_all_products self session = Some (self', t', returned) ->
  with_items (verify_completeness self') <= categories_with_items t' /\
  categories_with_items t' <= total_categories (verify_completeness self') /\
  (0 <= empty_categories (verify_completeness self'))%Z /\
  size (large_categories (verify_completeness self'))
    <= with_items (verify_completeness self').
Proof.
  intros Hempty Hrun. unfold verify_completeness.
  cbn [with_items total_categories empty_categories large_categories].
  assert (size (filter reaches_cap (category_stats self'))
          <= size (category_stats self')) as Hlarge.
  { apply map_subseteq_size, map_filter_subseteq. }
  unfold scrape_all_products in Hrun.
  destruct (all_categories self) as [| c cs] eqn:Hcats.
  - injection Hrun as <- <- _. rewrite Hempty, Hcats, map_size_empty in *.
    simpl. repeat split; lia.
  - destruct (scrape_loop (self, tally0) (visits_of (c :: cs) session))
      as [[self1 t1] |] eqn:Hloop; [| discriminate].
    injection Hrun as <- <- _.
    destruct (scrape_loop_stats_size _ _ _ _ _ Hloop) as [Hsame Hsize].
    destruct (scrape_loop_tally _ _ _ _ _ Hloop) as (_ & _ & Hwith).
    rewrite Hempty, map_size_empty in Hsize. rewrite Hsame, Hcats.
    cbn [categories_with_items tally0] in Hwith.
    pose proof (filter_length_le has_items (visits_of (c :: cs) session))
      as Hle.
    assert (List.length (visits_of (c :: cs) session) = List.length (c :: cs))
      as Hlen.
    { unfold visits_of. rewrite length_combine, length_map, length_seq. lia. }
    repeat split; lia.
Qed.

Lemma completeness_counts_after_harvest_witness :
  exists self' t' returned,
    scrape_all_products (empty_scraper three_categories) one_failure_session
      = Some (self', t', returned) /\
    (0 <= empty_categories (verify_completeness self'))%Z /\
    with_items (verify_completeness self') <= categories_with_items t'.
Proof.
  destruct (scrape_all_products (empty_scraper three_categories)
              one_failure_session)
    as [[[self' t'] returned] |] eqn:Hrun; [| vm_compute in Hrun; discriminate].
  exists self', t', returned. split; [reflexivity |].
  destruct (completeness_counts_after_harvest
              (empty_scraper three_categories) self' t' returned
              one_failure_session eq_refl Hrun) as (H1 & _ & H3 & _).
  split; [exact H3 | exact H1].
Defined.

Lemma item_ids_app l1 l2 : item_ids (l1 ++ l2) = item_ids l1 ∪ item_ids l2.
Proof.
  unfold item_ids. rewrite map_app, filter_app, list_to_set_app_L.
  reflexivity.
Qed.

Lemma scrape_loop_dom visits : forall self t self' t',
  scrape_loop (self, t) visits = Some (self', t') ->
  dom (all_products self')
  = dom (all_products self) ∪ item_ids (concat (map items_of visits)).
Proof.
  induction visits as [| visit visits IH]; intros self t self' t' Hrun.
  - injection Hrun as <- <-. simpl. unfold item_ids. simpl. set_solver.
  - apply scrape_loop_cons in Hrun as [_ Hrun].
    rewrite (IH _ _ _ _ Hrun). unfold after_visit at 1. cbn [all_products].
    destruct (merge_items_ids (items_of visit) (all_products self)) as [-> _].
    cbn [map concat]. rewrite item_ids_app. set_solver.
Qed.

(** X8: after the category loop the store holds exactly the ids it held
    before and the truthy ids of the items the visits brought; nothing else
    is ever added and nothing is removed. *)
Theorem harvested_ids_exact
    (self self' : Scraper) (t t' : Tally)
    (visits : list (Category * response)) :
  scrape_loop (self, t) visits = Some (self', t') ->
  dom (all_products self')
  = dom (all_products self) ∪ item_ids (concat (map items_of visits)).
Proof. apply scrape_loop_dom. Qed.

Lemma harvested_ids_exact_witness :
  exists self' t',
    scrape_loop (empty_scraper three_categories, tally0)
      (visits_of three_categories one_failure_session) = Some (self', t') /\
    dom (all_products self')
    = item_ids (map product ["a1"; "a2"; "a3"; "a4"; "a5"; "c1"; "c2"; "c3"]).
Proof.
  destruct (scrape_loop (empty_scraper three_categories, tally0)
              (visits_of three_categories one_failure_session))
    as [[self' t'] |] eqn:Hrun; [| vm_compute in Hrun; discriminate].
  exists self', t'. split; [reflexivity |].
  rewrite (harvested_ids_exact _ _ _ _ _ Hrun).
  vm_compute. reflexivity.
Defined.

Lemma elem_of_item_ids k items :
  k ∈ item_ids items <->
  truthy k = true /\ exists item, In item items /\ item_get item "id" = k.
Proof.
  unfold item_ids. rewrite elem_of_list_to_set, list_elem_of_In, filter_In,
    in_map_iff.
  split.
  - intros [(item & Hid & Hin) Ht]. split; [exact Ht | eauto].
  - intros [Ht (item & Hin & Hid)]. split; [eauto | exact Ht].
Qed.

Lemma item_ids_visits_perm (visits visits' : list (Category * response)) :
  Permutation visits visits' ->
  item_ids (concat (map items_of visits))
  = item_ids (concat (map items_of visits')).
Proof.
  intros Hperm. apply set_eq. intros k. rewrite !elem_of_item_ids.
  assert (forall l l' : list (Category * response), Permutation l l' ->
            forall item, In item (concat (map items_of l)) ->
                         In item (concat (map items_of l'))) as Hin.
  { intros l l' Hp item Hi. apply in_concat in Hi as (batch & Hb & Hi).
    apply in_map_iff in Hb as (v & <- & Hv). apply in_concat.
    exists (items_of v). split; [| exact Hi]. apply in_map.
    eapply Permutation_in; eassumption. }
  split; intros [Ht (item & Hi & Hid)]; (split; [exact Ht |]);
    exists item; (split; [| exact Hid]).
  - eapply Hin; eassumption.
  - eapply Hin; [symmetry; eassumption | eassumption].
Qed.

(** X9: which products are found does not depend on the order of the
    categories.  If the loop ends on a list of visits, it ends on every
    rearrangement of it, with the same ids in the store and hence the same
    number of products; the order decides only which category's copy of an
    item is kept. *)
Theorem harvested_ids_order_independent
    (self self' : Scraper) (t t' : Tally)
    (visits visits' : list (Category * response)) :
  Permutation visits visits' ->
  scrape_loop (self, t) visits = Some (self', t') ->
  exists self'' t'',
    scrape_loop (self, t) visits' = Some (self'', t'') /\
    dom (all_products self'') = dom (all_products self') /\
    size (all_products self'') = size (all_products self').
Proof.
  intros Hperm Hrun.
  pose proof (scrape_loop_inv visits self t self' t' Hrun) as Hnamed.
  assert (Forall (fun visit : Category * response =>
                    is_Some (cat_name visit.1)) visits') as Hnamed'.
  { rewrite Forall_forall in Hnamed. apply Forall_forall. intros v Hv.
    apply Hnamed. eapply Permutation_in; [symmetry; exact Hperm | exact Hv]. }
  destruct (scrape_loop_named visits' self t Hnamed')
    as (self'' & t'' & Hrun' & _).
  exists self'', t''. split; [exact Hrun' |].
  assert (dom (all_products self'') = dom (all_products self')) as Hdom.
  { rewrite (scrape_loop_dom _ _ _ _ _ Hrun), (scrape_loop_dom _ _ _ _ _ Hrun').
    rewrite (item_ids_visits_perm visits visits' Hperm). reflexivity. }
  split; [exact Hdom |].
  rewrite <- !size_dom, Hdom. reflexivity.
Qed.

Lemma harvested_ids_order_independent_witness :
  exists self' t' self'' t'',
    scrape_loop (empty_scraper [], tally0)
      [(named_category "dairy" "Dairy", RespOk [milk]);
       (named_category "promo" "Promotions", RespOk [milk_promo])]
      = Some (self', t') /\
    scrape_loop (empty_scraper [], tally0)
      [(named_category "promo" "Promotions", RespOk [milk_promo]);
       (named_category "dairy" "Dairy", RespOk [milk])]
      = Some (self'', t'') /\
    dom (all_products self'') = dom (all_products self').
Proof.
  destruct (scrape_loop (empty_scraper [], tally0)
              [(named_category "dairy" "Dairy", RespOk [milk]);
               (named_category "promo" "Promotions", RespOk [milk_promo])])
    as [[self' t'] |] eqn:Hrun; [| vm_compute in Hrun; discriminate].
  destruct (harvested_ids_order_independent _ _ _ _ _
              [(named_category "promo" "Promotions", RespOk [milk_promo]);
               (named_category "dairy" "Dairy", RespOk [milk])]
              (perm_swap _ _ []) Hrun)
    as (self'' & t'' & Hrun' & Hdom & _).
  exists self', t', self'', t''.
  split; [reflexivity | split; [exact Hrun' | exact Hdom]].
Defined.

Lemma scrape_loop_app first : forall second self t self' t',
  scrape_loop (self, t) (first ++ second) = Some (self', t') ->
  exists self1 t1,
    scrape_loop (self, t) first = Some (self1, t1) /\
    scrape_loop (self1, t1) second = Some (self', t').
Proof.
  induction first as [| visit first IH]; intros second self t self' t' Hrun.
  - exists self, t. split; [reflexivity | exact Hrun].
  - cbn [app scrape_loop] in *.
    destruct (scrape_category (self, t) visit) as [[self0 t0] |];
      [| discriminate].
    apply IH. exact Hrun.
Qed.

Lemma scrape_loop_stat_kept visits : forall self t self' t' slug,
  scrape_loop (self, t) visits = Some (self', t') ->
  Forall (fun visit => cat_slug visit.1 = slug -> has_items visit = false)
    visits ->
  category_stats self' !! slug = category_stats self !! slug.
Proof.
  induction visits as [| visit visits IH]; intros self t self' t' slug Hrun Hq.
  - injection Hrun as <- <-. reflexivity.
  - apply scrape_loop_cons in Hrun as [_ Hrun].
    inversion Hq as [| ? ? Hv Hrest]; subst.
    rewrite (IH _ _ _ _ slug Hrun Hrest).
    destruct (has_items visit) eqn:Hitems.
    + rewrite (after_visit_full self visit Hitems).
      apply lookup_insert_ne. intros Heq. specialize (Hv Heq). congruence.
    + rewrite (after_visit_empty self visit Hitems). reflexivity.
Qed.

(** X10: the statistics are kept per slug, last writer wins.  After the
    loop, the entry under a slug is the one written by the last visit with
    that slug that brought items: it holds that category's name and path,
    the number of items of that response and the number of them that were
    new to the store at that moment.  Earlier entries under the same slug
    are overwritten. *)
Theorem stats_last_writer_wins
    (self self' : Scraper) (t t' : Tally)
    (before later : list (Category * response))
    (visit : Category * response) :
  has_items visit = true ->
  Forall (fun w => cat_slug w.1 = cat_slug visit.1 -> has_items w = false)
    later ->
  scrape_loop (self, t) (before ++ visit :: later) = Some (self', t') ->
  exists self1 t1,
    scrape_loop (self, t) before = Some (self1, t1) /\
    category_stats self' !! cat_slug visit.1
    = Some {| stat_name := cat_name visit.1;
              stat_path := cat_path visit.1;
              item_count := List.length (items_of visit);
              new_items :=
                (merge_items (all_products self1) (items_of visit)).2 |}.
Proof.
  intros Hitems Hlater Hrun.
  apply scrape_loop_app in Hrun as (self1 & t1 & Hbefore & Hrest).
  exists self1, t1. split; [exact Hbefore |].
  apply scrape_loop_cons in Hrest as [_ Hrest].
  rewrite (scrape_loop_stat_kept later _ _ _ _ _ Hrest Hlater).
  rewrite (after_visit_full self1 visit Hitems). apply lookup_insert_eq.
Qed.

Lemma stats_last_writer_wins_witness :
  exists self' t',
    scrape_loop (empty_scraper [], tally0)
      [(named_category "dairy" "Dairy", RespOk [milk]);
       (named_category "dairy" "Dairy again", RespOk [milk_promo])]
      = Some (self', t') /\
    category_stats self' !! Some "dairy"
    = Some {| stat_name := Some "Dairy again"; stat_path := Some "Dairy again";
              item_count := 1; new_items := 0 |}.
Proof.
  destruct (scrape_loop (empty_scraper [], tally0)
              [(named_category "dairy" "Dairy", RespOk [milk]);
               (named_category "dairy" "Dairy again", RespOk [milk_promo])])
    as [[self' t'] |] eqn:Hrun; [| vm_compute in Hrun; discriminate].
  exists self', t'. split; [reflexivity |].
  destruct (stats_last_writer_wins (empty_scraper []) self' tally0 t'
              [(named_category "dairy" "Dairy", RespOk [milk])] []
              (named_category "dairy" "Dairy again", RespOk [milk_promo])
              eq_refl (Forall_nil _) Hrun)
    as (self1 & t1 & Hbefore & Hstat).
  refine (eq_trans Hstat _). vm_compute in Hbefore.
  injection Hbefore as <- _. vm_compute. reflexivity.
Defined.

(** X27: isolation of failed requests.  On a run of the category loop that
    comes to its end, a request that failed (HTTP error status, timeout,
    body that does not parse) leaves no trace: the items of every category
    that answered are in the store, and the scraper the run leaves, store
    and statistics, is the one the same loop leaves when run over the
    categories that answered alone. *)
Theorem failed_requests_leave_no_trace
    (self : Scraper) (t : Tally) (visits : list (Category * response))
    (self' : Scraper) (t' : Tally) :
  scrape_loop (self, t) visits = Some (self', t') ->
  (forall c items item,
     In (c, RespOk items) visits -> In item items ->
     truthy (item_get item "id") = true ->
     is_Some (all_products self' !! item_get item "id")) /\
  exists t'',
    scrape_loop (self, t) (List.filter succeeded visits) = Some (self', t'').
Proof.
  intros Hrun. split.
  - intros c items item. apply (scrape_loop_covers visits self t self' t').
    exact Hrun.
  - apply (scrape_loop_skips_failures visits self t t self' t'). exact Hrun.
Qed.

Lemma failed_requests_leave_no_trace_witness :
  exists self' t' t'',
    scrape_loop (empty_scraper three_categories, tally0)
      (visits_of three_categories one_failure_session) = Some (self', t') /\
    is_Some (all_products self' !! PStr "c3") /\
    scrape_loop (empty_scraper three_categories, tally0)
      (List.filter succeeded
         (visits_of three_categories one_failure_session)) = Some (self', t'').
Proof.
  destruct (scrape_loop (empty_scraper three_categories, tally0)
              (visits_of three_categories one_failure_session))
    as [[self' t'] |] eqn:Hrun; [| vm_compute in Hrun; discriminate].
  destruct (failed_requests_leave_no_trace _ _ _ _ _ Hrun)
    as (Hcov & t'' & Hfiltered).
  exists self', t', t''.
  split; [reflexivity | split; [| exact Hfiltered]].
  apply (Hcov (named_category "c" "C") (map product ["c1"; "c2"; "c3"])
           (product "c3")).
  - right. right. left. reflexivity.
  - right. right. left. reflexivity.
  - reflexivity.
Defined.

(** ** The discovery sweep *)

Lemma sweep_loop_size exchanges : forall products : Store,
  size (sweep_loop products exchanges).1
  = size products + sum_list (map snd (sweep_loop products exchanges).2).
Proof.
  induction exchanges as [| [query r] rest IH]; intros products.
  - simpl. lia.
  - cbn [sweep_loop].
    pose proof (merge_items_size (search_items r) products) as Hm.
    destruct (merge_items products (search_items r)) as [products' new].
    cbn [fst snd] in Hm. destruct (Nat.eqb new 0).
    + simpl. lia.
    + specialize (IH products').
      destruct (sweep_loop products' rest) as [final issued].
      cbn [fst snd map sum_list] in *. simpl. lia.
Qed.

Lemma sweep_loop_grows exchanges : forall products : Store,
  dom products ⊆ dom (sweep_loop products exchanges).1.
Proof.
  induction exchanges as [| [query r] rest IH]; intros products.
  - reflexivity.
  - cbn [sweep_loop].
    destruct (merge_items_ids (search_items r) products) as [Hdom _].
    destruct (merge_items products (search_items r)) as [products' new].
    cbn [fst] in Hdom. destruct (Nat.eqb new 0).
    + cbn [fst]. rewrite Hdom. set_solver.
    + specialize (IH products').
      destruct (sweep_loop products' rest) as [final issued].
      cbn [fst] in *. rewrite Hdom in IH. set_solver.
Qed.

Lemma sweep_loop_issues_first (products : Store) exchange rest :
  (sweep_loop products (exchange :: rest)).2 <> [].
Proof.
  destruct exchange as [query r]. cbn [sweep_loop].
  destruct (merge_items products (search_items r)) as [products' new].
  destruct (Nat.eqb new 0); [discriminate |].
  destruct (sweep_loop products' rest) as [final issued]. discriminate.
Qed.

(** X11: the result of [supplement_with_search].  The number [added] it
    reports is the sum of the new-item counts printed for the issued queries,
    so it is never negative; the store only grows; the categories and the
    statistics are left as they were; and at least one query is issued. *)
Theorem supplement_with_search_added (self : Scraper) (session : nat -> response) :
  (supplement_with_search self session).2
    = Z.of_nat (sum_list (map snd (supplement_with_search self session).1.2)) /\
  dom (all_products self)
    ⊆ dom (all_products (supplement_with_search self session).1.1) /\
  all_categories (supplement_with_search self session).1.1
    = all_categories self /\
  category_stats (supplement_with_search self session).1.1
    = category_stats self /\
  (supplement_with_search self session).1.2 <> [].
Proof.
  unfold supplement_with_search.
  remember (combine search_queries
              (map session (seq 0 (List.length search_queries))))
    as exchanges eqn:Hex.
  pose proof (sweep_loop_size exchanges (all_products self)) as Hsize.
  pose proof (sweep_loop_grows exchanges (all_products self)) as Hgrow.
  assert ((sweep_loop (all_products self) exchanges).2 <> []) as Hne.
  { subst exchanges. cbn [search_queries List.length seq map combine].
    apply sweep_loop_issues_first. }
  destruct (sweep_loop (all_products self) exchanges) as [products issued].
  cbn [fst snd all_products all_categories category_stats] in *.
  repeat split; try assumption; try reflexivity. lia.
Qed.

Lemma sweep_loop_cut pre : forall (products : Store) query r post,
  search_items r = [] ->
  sweep_loop products (pre ++ (query, r) :: post)
  = sweep_loop products (pre ++ [(query, r)]).
Proof.
  induction pre as [| [q0 r0] pre IH]; intros products query r post Hempty.
  - cbn [app sweep_loop]. rewrite Hempty. reflexivity.
  - cbn [app sweep_loop].
    destruct (merge_items products (search_items r0)) as [products' new].
    destruct (Nat.eqb new 0); [reflexivity |].
    rewrite (IH products' query r post Hempty). reflexivity.
Qed.

(** X12: a search request that fails ends the sweep.  A failed request (any
    exception, any error status) counts as a query without new items: the
    sweep never issues a query that comes after it in the list, and ends in
    the state it would reach if the list stopped there. *)
Theorem failed_search_ends_sweep
    (products : Store) (pre post : list (string * response))
    (query : string) (r : response) :
  (forall items, r <> RespOk items) ->
  sweep_loop products (pre ++ (query, r) :: post)
    = sweep_loop products (pre ++ [(query, r)]) /\
  List.length (sweep_loop products (pre ++ (query, r) :: post)).2
    <= S (List.length pre).
Proof.
  intros Hfailed.
  assert (search_items r = []) as Hempty.
  { destruct r as [items | |]; [destruct (Hfailed items eq_refl) | |];
      reflexivity. }
  rewrite (sweep_loop_cut pre products query r post Hempty).
  split; [reflexivity |].
  assert (forall ex (st : Store),
            List.length (sweep_loop st ex).2 <= List.length ex) as Hbound.
  { induction ex as [| [q0 r0] ex IH]; intros st; cbn [sweep_loop].
    - simpl. lia.
    - destruct (merge_items st (search_items r0)) as [st' new].
      destruct (Nat.eqb new 0); [simpl; lia |].
      specialize (IH st'). destruct (sweep_loop st' ex) as [final issued].
      simpl in *. lia. }
  specialize (Hbound (pre ++ [(query, r)])%list products).
  rewrite length_app in Hbound. simpl in Hbound. lia.
Qed.

Lemma failed_search_ends_sweep_witness :
  (forall items, RespHttpError 503 <> RespOk items) /\
  map fst (sweep_loop ∅ [("a", RespOk [product "p1"]);
                            ("b", RespHttpError 503);
                            ("c", RespOk [product "p2"])]).2
  = ["a"; "b"].
Proof.
  assert (forall items, RespHttpError 503 <> RespOk items) as Hfailed
    by (intros items; discriminate).
  split; [exact Hfailed |].
  rewrite (proj1 (failed_search_ends_sweep ∅ [("a", RespOk [product "p1"])]
                    [("c", RespOk [product "p2"])] "b" (RespHttpError 503)
                    Hfailed)).
  vm_compute. reflexivity.
Defined.

(** ** Where the stored products come from *)

Lemma merge_items_source items : forall (products : Store) k p,
  (merge_items products items).1 !! k = Some p ->
  products !! k = Some p \/ In p items.
Proof.
  induction items as [| item items IH]; intros products k p Hk.
  - left. exact Hk.
  - rewrite merge_items_cons in Hk.
    destruct (merge_item (products, 0) item) as [products' m] eqn:Hm.
    cbn [fst] in Hk. destruct (IH products' k p Hk) as [Hin | Hin];
      [| right; right; exact Hin].
    unfold merge_item in Hm.
    destruct (truthy (item_get item "id"));
      [| injection Hm as <- _; left; exact Hin].
    destruct (products !! item_get item "id") eqn:Hid;
      injection Hm as <- _; [left; exact Hin |].
    destruct (decide (item_get item "id" = k)) as [<- | Hne].
    + rewrite lookup_insert_eq in Hin. injection Hin as <-. right. left.
      reflexivity.
    + rewrite lookup_insert_ne in Hin by exact Hne. left. exact Hin.
Qed.

Lemma items_of_source visit p :
  In p (items_of visit) ->
  exists raw_items raw,
    visit.2 = RespOk raw_items /\ In raw raw_items /\
    p = annotate (cat_slug visit.1) (cat_name visit.1) raw.
Proof.
  destruct visit as [c r]. unfold items_of. cbn [fst snd].
  destruct r as [raw_items | status |]; cbn [get_category_items].
  - intros Hin. apply in_map_iff in Hin as (raw & <- & Hraw).
    exists raw_items, raw. repeat split. exact Hraw.
  - destruct (Nat.eqb status 404); intros [].
  - intros [].
Qed.

Lemma scrape_loop_source visits : forall self t self' t' k p,
  scrape_loop (self, t) visits = Some (self', t') ->
  all_products self' !! k = Some p ->
  all_products self !! k = Some p \/
  exists visit, In visit visits /\ In p (items_of visit).
Proof.
  induction visits as [| visit visits IH];
    intros self t self' t' k p Hrun Hk.
  - injection Hrun as <- <-. left. exact Hk.
  - apply scrape_loop_cons in Hrun as [_ Hrun].
    destruct (IH _ _ _ _ k p Hrun Hk) as [Hin | (v & Hv & Hp)].
    + unfold after_visit in Hin. cbn [all_products] in Hin.
      apply merge_items_source in Hin as [Hin | Hin]; [left; exact Hin |].
      right. exists visit. split; [left; reflexivity | exact Hin].
    + right. exists v. split; [right; exact Hv | exact Hp].
Qed.

Lemma sweep_loop_source exchanges : forall (products : Store) k p,
  (sweep_loop products exchanges).1 !! k = Some p ->
  products !! k = Some p \/
  exists query r, In (query, r) exchanges /\ In p (search_items r).
Proof.
  induction exchanges as [| [query r] rest IH]; intros products k p Hk.
  - left. exact Hk.
  - cbn [sweep_loop] in Hk.
    pose proof (merge_items_source (search_items r) products k p) as Hm.
    destruct (merge_items products (search_items r)) as [products' new].
    cbn [fst] in Hm.
    assert (products' !! k = Some p ->
            products !! k = Some p \/
            exists query0 r0,
              In (query0, r0) ((query, r) :: rest) /\ In p (search_items r0))
      as Hhere.
    { intros H. destruct (Hm H) as [Hin | Hin]; [left; exact Hin |].
      right. exists query, r. split; [left; reflexivity | exact Hin]. }
    destruct (Nat.eqb new 0); [apply Hhere; exact Hk |].
    specialize (IH products' k p).
    destruct (sweep_loop products' rest) as [final issued]. cbn [fst] in *.
    destruct (IH Hk) as [Hin | (q0 & r0 & Hq & Hp)]; [apply Hhere; exact Hin |].
    right. exists q0, r0. split; [right; exact Hq | exact Hp].
Qed.

(** X25: nothing is made up and nothing is altered.  Every product in the
    store after the category loop and the sweep was in the store before, or
    is an item of a category's 2xx response with the slug and name of that
    category stamped on it, or is an item of a search response exactly as
    it was received (without any category stamp of the harvest). *)
Theorem stored_products_have_a_source
    (self self' : Scraper) (t t' : Tally)
    (visits : list (Category * response))
    (exchanges : list (string * response)) (k : pyval) (p : Item) :
  scrape_loop (self, t) visits = Some (self', t') ->
  (sweep_loop (all_products self') exchanges).1 !! k = Some p ->
  all_products self !! k = Some p \/
  (exists c raw_items raw,
     In (c, RespOk raw_items) visits /\ In raw raw_items /\
     p = annotate (cat_slug c) (cat_name c) raw) \/
  (exists query items,
     In (query, RespOk items) exchanges /\ In p items).
Proof.
  intros Hrun Hk.
  destruct (sweep_loop_source exchanges _ k p Hk)
    as [Hin | (query & r & Hq & Hp)].
  - destruct (scrape_loop_source visits _ _ _ _ k p Hrun Hin)
      as [Hold | (visit & Hv & Hp)]; [left; exact Hold |].
    right. left. destruct (items_of_source visit p Hp)
      as (raw_items & raw & Hr & Hraw & ->).
    destruct visit as [c r]. cbn [fst snd] in *. subst r.
    exists c, raw_items, raw. repeat split; assumption.
  - right. right. destruct r as [items | |]; cbn [search_items] in Hp;
      [| destruct Hp | destruct Hp].
    exists query, items. split; assumption.
Qed.

Lemma stored_products_have_a_source_witness :
  exists self' t',
    scrape_loop (empty_scraper [], tally0)
      [(named_category "dairy" "Dairy", RespOk [milk])] = Some (self', t') /\
    (sweep_loop (all_products self') [(" ", RespOk [product "p2"])]).1
      !! PStr "p2" = Some (product "p2") /\
    (exists query items,
       In (query, RespOk items) [(" ", RespOk [product "p2"])] /\
       In (product "p2") items).
Proof.
  destruct (scrape_loop (empty_scraper [], tally0)
              [(named_category "dairy" "Dairy", RespOk [milk])])
    as [[self' t'] |] eqn:Hrun; [| vm_compute in Hrun; discriminate].
  exists self', t'. split; [reflexivity |].
  assert ((sweep_loop (all_products self') [(" ", RespOk [product "p2"])]).1
            !! PStr "p2" = Some (product "p2")) as Hk.
  { pose proof Hrun as Hrun'. vm_compute in Hrun'. injection Hrun' as <- _.
    vm_compute. reflexivity. }
  split; [exact Hk |].
  destruct (stored_products_have_a_source _ _ _ _ _ _ _ _ Hrun Hk)
    as [Hold | [(c & raw_items & raw & Hin & Hraw & Heq) | Hsearch]].
  - discriminate Hold.
  - exfalso. destruct Hin as [Hin | []]. injection Hin as <- <-.
    destruct Hraw as [<- | []]. apply (f_equal (fun m : Item => m !! "name")) in Heq.
    vm_compute in Heq. discriminate.
  - exact Hsearch.
Defined.

(** X26: what the stamping of [get_category_items] touches.  For a 2xx
    response it returns as many items as the response holds, in the same
    order, and each differs from the received item in the two keys
    ['_category_slug'] and ['_category_name'] only, which hold the slug and
    the name the call was made with, whatever the item held there before. *)
Theorem stamping_keeps_payload
    (slug name : option string) (items : list Item) :
  List.length (get_category_items slug name (RespOk items))
    = List.length items /\
  Forall2
    (fun raw stamped : Item =>
       item_get stamped "_category_slug" = of_str slug /\
       item_get stamped "_category_name" = of_str name /\
       forall k : string,
         k <> "_category_slug" -> k <> "_category_name" ->
         stamped !! k = raw !! k)
    items (get_category_items slug name (RespOk items)).
Proof.
  cbn [get_category_items]. split; [apply length_map |].
  induction items as [| item items IH]; cbn [map]; constructor; [| exact IH].
  destruct (annotate_provenance slug name item) as [Hs Hn].
  split; [exact Hs | split; [exact Hn |]].
  intros k Hk1 Hk2. unfold annotate.
  rewrite lookup_insert_ne by congruence.
  rewrite lookup_insert_ne by congruence. reflexivity.
Qed.

(** ** The flatteners *)

Lemma make_path_named s nm :
  exists p, make_path (Some s) (Some nm) = Some p.
Proof.
  unfold make_path. destruct (truthy_str (Some s)); eauto.
Qed.

Lemma extract_category_agrees c :
  named_nodes c = true ->
  forall s lvl,
    exists out,
      extract_category (Some s) c = Some out /\
      Forall2 same_category out (flatten_category (Some s) lvl c).
Proof.
  induction c as [i n sl d im ids subs IH] using raw_category_rect'.
  intros Hnamed s lvl. cbn [named_nodes] in Hnamed.
  apply andb_true_iff in Hnamed as [Hn Hsubs].
  destruct n as [| | nm]; try discriminate.
  destruct (make_path_named s nm) as [p Hp].
  cbn [extract_category flatten_category get]. rewrite Hp.
  assert (exists below,
            (fix extract_list (l : list raw_category) :
                 option (list BravoCategory) :=
               match l with
               | [] => Some []
               | c :: r =>
                   match extract_category (Some p) c with
                   | Some here =>
                       match extract_list r with
                       | Some rest => Some (here ++ rest)%list
                       | None => None
                       end
                   | None => None
                   end
               end) subs = Some below /\
            Forall2 same_category below
              (flat_map (flatten_category (Some p) (S lvl)) subs))
    as (below & Hbelow & Hagree).
  { clear Hp. induction IH as [| c subs Hc _ IHsubs].
    - exists []. split; [reflexivity | constructor].
    - cbn [forallb] in Hsubs. apply andb_true_iff in Hsubs as [H1 H2].
      destruct (Hc H1 p (S lvl)) as (here & Hhere & Hagree1).
      destruct (IHsubs H2) as (rest & Hrest & Hagree2).
      exists (here ++ rest)%list. rewrite Hhere, Hrest.
      split; [reflexivity |]. cbn [flat_map]. apply Forall2_app; assumption. }
  rewrite Hbelow. eexists. split; [reflexivity |].
  constructor; [| exact Hagree].
  unfold same_category, cat_info. cbn. rewrite Hp.
  repeat split. exists s. split; reflexivity.
Qed.

Lemma extract_all_categories_agrees cats : forall s lvl,
  forallb named_nodes cats = true ->
  exists out,
    extract_all_categories cats (Some s) = Some out /\
    Forall2 same_category out (_flatten_categories cats (Some s) lvl).
Proof.
  induction cats as [| c cats IH]; intros s lvl Hnamed.
  - exists []. split; [reflexivity | constructor].
  - cbn [forallb] in Hnamed. apply andb_true_iff in Hnamed as [H1 H2].
    destruct (extract_category_agrees c H1 s lvl) as (here & Hhere & Ha1).
    destruct (IH s lvl H2) as (rest & Hrest & Ha2).
    exists (here ++ rest)%list. cbn [extract_all_categories].
    rewrite Hhere, Hrest. split; [reflexivity |].
    unfold _flatten_categories. cbn [flat_map]. apply Forall2_app; assumption.
Qed.

(** X13: the two category extractors agree.  On a document in which every
    node has a name, [extract_all_categories] of [wolt_bravo_scraper.py]
    does not raise and emits, in the same order, records with the same id,
    name, slug, description, path, image URL and subcategory flag as
    [_flatten_categories]; its level is the number of slashes of the parent
    path. *)
Theorem extractors_agree (cats : list raw_category) :
  forallb named_nodes cats = true ->
  exists out,
    extract_all_categories cats (Some "") = Some out /\
    Forall2 same_category out (flatten_document cats).
Proof. intros Hnamed. apply extract_all_categories_agrees. exact Hnamed. Qed.

Lemma extractors_agree_witness :
  forallb named_nodes two_level_document = true /\
  exists out,
    extract_all_categories two_level_document (Some "") = Some out /\
    map bcat_path out = map cat_path (flatten_document two_level_document).
Proof.
  split; [reflexivity |].
  destruct (extractors_agree two_level_document eq_refl)
    as (out & Hout & Hagree).
  exists out. split; [exact Hout |].
  vm_compute in Hout. injection Hout as <-. reflexivity.
Defined.

Lemma plain_names_named c : plain_names c = true -> named_nodes c = true.
Proof.
  induction c as [i n s d im ids subs IH] using raw_category_rect'.
  cbn [plain_names named_nodes]. intros H.
  apply andb_true_iff in H as [Hn Hsubs]. apply andb_true_iff. split.
  - destruct n; [discriminate | discriminate | reflexivity].
  - clear Hn. induction IH as [| c subs Hc _ IHsubs]; [reflexivity |].
    cbn [forallb] in *. apply andb_true_iff in Hsubs as [H1 H2].
    apply andb_true_iff. split; [apply Hc; exact H1 | apply IHsubs; exact H2].
Qed.

Lemma depth_of_parent_pred pp lvl :
  depth_of_parent pp lvl ->
  exists q, pp = Some q /\ count_char slash q = Nat.pred lvl.
Proof.
  destruct pp as [q |]; [| contradiction]. unfold depth_of_parent.
  intros H. exists q. split; [reflexivity |].
  destruct q as [| a q]; simpl in H; subst lvl; reflexivity.
Qed.

Lemma flatten_category_parent_one_up c :
  plain_names c = true ->
  forall pp lvl, depth_of_parent pp lvl ->
    Forall parent_one_up (flatten_category pp lvl c).
Proof.
  induction c as [i n s d im ids subs IH] using raw_category_rect'.
  intros Hplain pp lvl Hd. simpl in Hplain.
  apply andb_true_iff in Hplain as [Hn Hsubs].
  destruct n as [| | nm]; try discriminate.
  apply andb_true_iff in Hn as [Hne Hcount].
  apply negb_true_iff in Hne. apply Nat.eqb_eq in Hcount.
  destruct (plain_path pp lvl nm Hd Hne Hcount) as (p & Hp & Hpc & Hd').
  simpl. constructor.
  - apply depth_of_parent_pred. exact Hd.
  - simpl in Hp. rewrite Hp. clear Hp.
    induction IH as [| c subs Hc _ IHsubs]; simpl.
    + constructor.
    + simpl in Hsubs. apply andb_true_iff in Hsubs as [H1 H2].
      apply Forall_app. split; [apply Hc; assumption | apply IHsubs; assumption].
Qed.

Lemma flatten_document_parent_one_up cats :
  forallb plain_names cats = true ->
  Forall parent_one_up (flatten_document cats).
Proof.
  unfold flatten_document, _flatten_categories.
  induction cats as [| c cats IH]; simpl; intros H.
  - constructor.
  - apply andb_true_iff in H as [H1 H2].
    apply Forall_app. split; [| apply IH; exact H2].
    apply flatten_category_parent_one_up; [exact H1 | reflexivity].
Qed.

Lemma forallb_plain_named cats :
  forallb plain_names cats = true -> forallb named_nodes cats = true.
Proof.
  induction cats as [| c cats IH]; [reflexivity |].
  cbn [forallb]. intros H. apply andb_true_iff in H as [H1 H2].
  apply andb_true_iff. split; [apply plain_names_named; exact H1 | auto].
Qed.

(** X14: the levels of [extract_all_categories] are one short.  On a
    document whose names are non-empty and free of slashes, the level it
    gives a record is the predecessor of the nesting depth that
    [_flatten_categories] gives the same node: root categories and their
    children both get level 0, grandchildren level 1, and so on. *)
Theorem extract_levels_one_short (cats : list raw_category) :
  forallb plain_names cats = true ->
  exists out,
    extract_all_categories cats (Some "") = Some out /\
    Forall2 (fun b r => bcat_level b = Nat.pred (cat_level r))
      out (flatten_document cats).
Proof.
  intros Hplain.
  destruct (extract_all_categories_agrees cats "" 0
              (forallb_plain_named cats Hplain)) as (out & Hout & Hagree).
  exists out. split; [exact Hout |]. clear Hout.
  pose proof (flatten_document_parent_one_up cats Hplain) as Hup.
  fold (flatten_document cats) in Hagree.
  revert Hup. induction Hagree as [| b r out flat Hbr _ IH]; intros Hup.
  - constructor.
  - inversion Hup as [| ? ? Hr Hrest]; subst. constructor; [| apply IH; exact Hrest].
    destruct Hbr as (_ & _ & _ & _ & _ & _ & _ & q & Hq & Hlevel).
    destruct Hr as (q' & Hq' & Hcount). congruence.
Qed.

Lemma extract_levels_one_short_witness :
  forallb plain_names two_level_document = true /\
  exists out,
    extract_all_categories two_level_document (Some "") = Some out /\
    Forall2 (fun b r => bcat_level b = Nat.pred (cat_level r))
      out (flatten_document two_level_document).
Proof.
  split; [reflexivity |].
  apply (extract_levels_one_short two_level_document). reflexivity.
Defined.

Lemma flat_block_nil lvl : flat_block lvl [].
Proof.
  split; [| split].
  - intros i r H. rewrite lookup_nil in H. discriminate.
  - intros i r H. rewrite lookup_nil in H. discriminate.
  - intros q H. rewrite lookup_nil in H. discriminate.
Qed.

Lemma flat_block_app lvl (o1 o2 : list Category) :
  flat_block lvl o1 -> flat_block lvl o2 -> flat_block lvl (o1 ++ o2)%list.
Proof.
  intros (Hf1 & Hl1 & Hh1) (Hf2 & Hl2 & Hh2). split; [| split].
  - intros i r Hi. apply lookup_app_Some in Hi as [Hi | [Hlen Hi]].
    + rewrite (Hf1 i r Hi). pose proof (lookup_lt_Some _ _ _ Hi) as Hlt.
      destruct (decide (S i < List.length o1)) as [Hin | Hout].
      * rewrite lookup_app_l by exact Hin. reflexivity.
      * assert (o1 !! S i = None) as Hnone by (apply lookup_ge_None; lia).
        rewrite Hnone, lookup_app_r by lia.
        replace (S i - List.length o1) with 0 by lia.
        split; [intros (q & Hq & _); discriminate |].
        intros (q & Hq & Hlev). specialize (Hh2 q Hq).
        specialize (Hl1 i r Hi). lia.
    + rewrite (Hf2 _ r Hi). rewrite lookup_app_r by lia.
      replace (S i - List.length o1) with (S (i - List.length o1)) by lia.
      reflexivity.
  - intros i r Hi. apply lookup_app_Some in Hi as [Hi | [_ Hi]];
      [eapply Hl1 | eapply Hl2]; exact Hi.
  - intros q Hq. apply lookup_app_Some in Hq as [Hq | [Hlen Hq]].
    + apply Hh1. exact Hq.
    + apply Hh2. replace (0 - List.length o1) with 0 in Hq by lia. exact Hq.
Qed.

Lemma flat_block_cons lvl info (sub : list Category) :
  cat_level info = lvl ->
  (cat_has_subcategories info = true <-> sub <> []) ->
  flat_block (S lvl) sub ->
  flat_block lvl (info :: sub).
Proof.
  intros Hlvl Hflag (Hf & Hl & Hh). split; [| split].
  - intros [| i] r Hi; simpl in Hi.
    + injection Hi as <-. rewrite Hflag. simpl. split.
      * intros Hne. destruct sub as [| q sub]; [contradiction |].
        exists q. split; [reflexivity |]. rewrite (Hh q eq_refl). lia.
      * intros (q & Hq & _) ->. discriminate.
    + apply (Hf i r Hi).
  - intros [| i] r Hi; simpl in Hi.
    + injection Hi as <-. lia.
    + specialize (Hl i r Hi). lia.
  - intros q Hq. simpl in Hq. injection Hq as <-. exact Hlvl.
Qed.

Lemma flatten_category_block c :
  forall pp lvl, flat_block lvl (flatten_category pp lvl c).
Proof.
  induction c as [i n s d im ids subs IH] using raw_category_rect'.
  intros pp lvl. simpl. apply flat_block_cons.
  - reflexivity.
  - simpl. destruct subs as [| c subs]; simpl.
    + split; [discriminate | intros H; contradiction].
    + split; [intros _ | reflexivity]. destruct c. discriminate.
  - generalize (make_path pp (get n)) (S lvl). intros pp' lvl'.
    induction IH as [| c subs Hc _ IHsubs]; simpl.
    + apply flat_block_nil.
    + apply flat_block_app; [apply Hc | apply IHsubs].
Qed.

(** X15: the subcategory flag agrees with the emitted sequence.  In the
    output of [_flatten_categories] a record has [has_subcategories] set
    exactly when the record right after it is one level deeper, that is,
    when it is followed by its first child; the last record is never
    flagged. *)
Theorem flags_follow_children
    (cats : list raw_category) (pp : option string) (lvl : nat) :
  flags_match_children (_flatten_categories cats pp lvl).
Proof.
  assert (flat_block lvl (_flatten_categories cats pp lvl)) as [H _].
  { unfold _flatten_categories.
    induction cats as [| c cats IH]; simpl.
    - apply flat_block_nil.
    - apply flat_block_app; [apply flatten_category_block | apply IH]. }
  exact H.
Qed.

Lemma flags_follow_children_witness :
  exists r q,
    flatten_document two_level_document !! 0 = Some r /\
    cat_has_subcategories r = true /\
    flatten_document two_level_document !! 1 = Some q /\
    cat_level q = S (cat_level r).
Proof.
  destruct (flatten_document two_level_document !! 0) as [r |] eqn:Hr;
    [| discriminate].
  assert (cat_has_subcategories r = true) as Hflag.
  { pose proof Hr as Hr'. vm_compute in Hr'. injection Hr' as <-.
    reflexivity. }
  destruct (proj1 (flags_follow_children two_level_document (Some "") 0 0 r Hr)
              Hflag) as (q & Hq & Hlevel).
  exists r, q. split; [reflexivity | split; [exact Hflag |]].
  split; [exact Hq | exact Hlevel].
Defined.

(** ** The batch loop of the alternate scraper, continued *)

Module BatchLoopMore.
Import WoltCompleteScraper.

Lemma filter_item_inv base ids acc item :
  batch_inv ids (base ++ acc) ->
  batch_inv (filter_item (ids, acc) item).1
    (base ++ (filter_item (ids, acc) item).2).
Proof.
  intros Hinv. pose proof Hinv as (Hnodup & Htruthy & Hids).
  unfold filter_item.
  destruct (truthy (item_get item "id")) eqn:Ht; [| exact Hinv].
  destruct (bool_decide (item_get item "id" ∉ ids)) eqn:Hnew;
    [| exact Hinv].
  apply bool_decide_eq_true in Hnew. cbn [andb fst snd].
  rewrite app_assoc. unfold batch_inv, ids_of in *. rewrite map_app.
  cbn [map].
  split; [| split].
  - apply list.NoDup_app. split; [exact Hnodup | split].
    + intros k Hk Hk'. apply list_elem_of_singleton in Hk'. subst k.
      apply Hnew. apply Hids. exact Hk.
    + apply NoDup_singleton.
  - apply Forall_app. split; [exact Htruthy |]. constructor; [exact Ht | constructor].
  - intros k. rewrite elem_of_union, elem_of_singleton, elem_of_app,
      list_elem_of_singleton, Hids. tauto.
Qed.

Lemma fold_filter_inv base items : forall ids acc,
  batch_inv ids (base ++ acc) ->
  batch_inv (fold_left filter_item items (ids, acc)).1
    (base ++ (fold_left filter_item items (ids, acc)).2).
Proof.
  induction items as [| item items IH]; intros ids acc Hinv.
  - exact Hinv.
  - cbn [fold_left].
    pose proof (filter_item_inv base ids acc item Hinv) as Hstep.
    destruct (filter_item (ids, acc) item) as [ids' acc']. apply IH.
    exact Hstep.
Qed.

Lemma batch_step_ok session st :
  batch_ok st ->
  match batch_step session st with
  | inl st' => batch_ok st'
  | inr final => batch_ok final
  end.
Proof.
  intros Hok. unfold batch_step.
  destruct (search_items (session (S (batch_num st)))) as [| x xs];
    [exact Hok |].
  assert (batch_inv (product_ids st) (all_products st ++ [])) as Hinv
    by (rewrite app_nil_r; exact Hok).
  pose proof (fold_filter_inv (all_products st) (x :: xs) (product_ids st) []
                Hinv) as Hfold.
  fold (filter_duplicates (product_ids st) (x :: xs)) in Hfold.
  destruct (filter_duplicates (product_ids st) (x :: xs)) as [ids new_items].
  destruct (Nat.ltb (List.length (x :: xs)) 500); exact Hfold.
Qed.

Lemma batch_loop_ok session fuel : forall st final,
  batch_ok st -> batch_loop fuel session st = Some final -> batch_ok final.
Proof.
  induction fuel as [| fuel IH]; intros st final Hok Hrun; [discriminate |].
  cbn [batch_loop] in Hrun. pose proof (batch_step_ok session st Hok) as Hstep.
  destruct (batch_step session st) as [st' | last].
  - apply (IH st' final Hstep Hrun).
  - injection Hrun as <-. exact Hstep.
Qed.

(** X16: the duplicate filter keeps the product list clean.  When the batch
    loop returns, no id occurs twice in the list of products, every product
    in it has a truthy id, and [product_ids] is exactly the set of the ids
    in the list. *)
Theorem batch_products_unique
    (session : nat -> response) (fuel : nat) (final : BatchState) :
  batch_loop fuel session batch0 = Some final ->
  NoDup (ids_of (all_products final)) /\
  Forall (fun k => truthy k = true) (ids_of (all_products final)) /\
  (forall k, k ∈ product_ids final <-> k ∈ ids_of (all_products final)).
Proof.
  intros Hrun. apply (batch_loop_ok session fuel batch0 final); [| exact Hrun].
  split; [constructor | split; [constructor |]].
  intros k. simpl. set_solver.
Qed.

Lemma batch_products_unique_witness :
  exists final,
    batch_loop 2 two_batches batch0 = Some final /\
    ids_of (all_products final) = [PStr "p1"; PStr "p2"] /\
    NoDup (ids_of (all_products final)).
Proof.
  destruct (batch_loop 2 two_batches batch0) as [final |] eqn:Hrun;
    [| vm_compute in Hrun; discriminate].
  exists final. split; [reflexivity |].
  split; [| apply (batch_products_unique two_batches 2 final Hrun)].
  vm_compute in Hrun. injection Hrun as <-. reflexivity.
Defined.

Lemma batch_loop_count session fuel : forall st final,
  batch_loop fuel session st = Some final ->
  batch_num st < batch_num final /\
  short_answer session (batch_num final) /\
  forall m, batch_num st < m < batch_num final -> ~ short_answer session m.
Proof.
  induction fuel as [| fuel IH]; intros st final Hrun; [discriminate |].
  cbn [batch_loop] in Hrun.
  pose proof (BatchLoopFacts.batch_step_breaks session st) as Hbreak.
  destruct (batch_step session st) as [st' | last] eqn:Hstep.
  - pose proof (BatchLoopFacts.batch_step_continues session st st' Hstep)
      as Hnum.
    destruct (IH st' final Hrun) as (Hlt & Hshort & Hbefore).
    split; [lia | split; [exact Hshort |]].
    intros m Hm. destruct (decide (m = S (batch_num st))) as [-> | Hne].
    + intros Hs. destruct (proj2 Hbreak Hs) as [x Hx]. discriminate.
    + apply Hbefore. lia.
  - injection Hrun as <-.
    assert (batch_num last = S (batch_num st)) as Hnum.
    { unfold batch_step in Hstep.
      destruct (search_items (session (S (batch_num st)))) as [| x xs].
      - injection Hstep as <-. reflexivity.
      - destruct (filter_duplicates (product_ids st) (x :: xs))
          as [ids new_items].
        destruct (Nat.ltb (List.length (x :: xs)) 500);
          [injection Hstep as <-; reflexivity | discriminate]. }
    rewrite Hnum. split; [lia | split].
    + apply Hbreak. eauto.
    + intros m Hm. lia.
Qed.

(** X17: how many requests the batch loop makes.  When it returns, the
    number of batches requested is the position of the first response with
    fewer than 500 items: that response is short and every earlier one was
    full. *)
Theorem batch_loop_stops_at_first_short
    (session : nat -> response) (fuel : nat) (final : BatchState) :
  batch_loop fuel session batch0 = Some final ->
  1 <= batch_num final /\
  short_answer session (batch_num final) /\
  forall m, 1 <= m < batch_num final -> ~ short_answer session m.
Proof.
  intros Hrun.
  destruct (batch_loop_count session fuel batch0 final Hrun)
    as (Hlt & Hshort & Hbefore).
  simpl in Hlt. split; [lia | split; [exact Hshort |]].
  intros m Hm. apply Hbefore. simpl. lia.
Qed.

Lemma batch_loop_stops_at_first_short_witness :
  exists final,
    batch_loop 2 two_batches batch0 = Some final /\
    batch_num final = 2 /\
    short_answer two_batches (batch_num final).
Proof.
  destruct (batch_loop 2 two_batches batch0) as [final |] eqn:Hrun;
    [| vm_compute in Hrun; discriminate].
  exists final. split; [reflexivity |].
  split; [| apply (batch_loop_stops_at_first_short two_batches 2 final Hrun)].
  vm_compute in Hrun. injection Hrun as <-. reflexivity.
Defined.

(** X18: every request of the batch loop is the same (empty query, limit
    500, no offset).  Against an endpoint that answers equal requests
    equally the loop therefore makes exactly one request when that answer
    has fewer than 500 items, and otherwise never returns. *)
Theorem batch_loop_one_request_or_none
    (session : nat -> response) (r : response) :
  (forall n, session n = r) ->
  (List.length (search_items r) < 500 ->
   exists final, batch_loop 1 session batch0 = Some final /\
                 batch_num final = 1) /\
  (500 <= List.length (search_items r) ->
   forall fuel, batch_loop fuel session batch0 = None).
Proof.
  intros Hsame. split.
  - intros Hshort.
    destruct (proj2 (BatchLoopFacts.batch_loop_returns session 1 batch0))
      as [final Hrun].
    { exists 0. split; [lia |]. unfold short_answer. rewrite Hsame.
      exact Hshort. }
    exists final. split; [exact Hrun |].
    destruct (batch_loop_count session 1 batch0 final Hrun) as (Hlt & _ & _).
    cbn [batch_loop] in Hrun.
    destruct (batch_step session batch0) as [st' | last] eqn:Hstep;
      [discriminate |].
    injection Hrun as <-. unfold batch_step in Hstep.
    destruct (search_items (session (S (batch_num batch0)))) as [| x xs].
    + injection Hstep as <-. reflexivity.
    + destruct (filter_duplicates (product_ids batch0) (x :: xs)).
      destruct (Nat.ltb (List.length (x :: xs)) 500);
        [injection Hstep as <-; reflexivity | discriminate].
  - intros Hfull fuel.
    destruct (batch_loop fuel session batch0) as [final |] eqn:Hrun;
      [| reflexivity].
    destruct (batch_loop_count session fuel batch0 final Hrun)
      as (_ & Hshort & _).
    unfold short_answer in Hshort. rewrite Hsame in Hshort. lia.
Qed.

Lemma batch_loop_one_request_or_none_witness :
  (forall n, same_page_session n = RespOk (repeat (product "p1") 500)) /\
  (forall fuel, batch_loop fuel same_page_session batch0 = None) /\
  exists final,
    batch_loop 1 (fun _ => RespOk [product "p1"]) batch0 = Some final /\
    batch_num final = 1.
Proof.
  split; [intros n; reflexivity | split].
  - apply (proj2 (batch_loop_one_request_or_none same_page_session
                    (RespOk (repeat (product "p1") 500))
                    (fun n => eq_refl))).
    unfold search_items. rewrite repeat_length. lia.
  - apply (proj1 (batch_loop_one_request_or_none
                    (fun _ => RespOk [product "p1"])
                    (RespOk [product "p1"]) (fun n => eq_refl))).
    simpl. lia.
Defined.

End BatchLoopMore.

(** ** Pricing statistics, continued *)

Module PricingMore.
Import BravoMarketingAnalyzer.
Local Open Scope Q_scope.

Lemma Qle_bool_false x y : Qle_bool x y = false -> y <= x.
Proof.
  intros H. destruct (Qlt_le_dec y x) as [Hlt | Hle].
  - apply Qlt_le_weak. exact Hlt.
  - apply Qle_bool_iff in Hle. congruence.
Qed.

Lemma py_min_spec l : forall m,
  In (py_min m l) (m :: l) /\
  py_min m l <= m /\ forall y, In y l -> py_min m l <= y.
Proof.
  unfold py_min. induction l as [| x l IH]; intros m; cbn [fold_left].
  - split; [left; reflexivity | split; [apply Qle_refl | intros y []]].
  - destruct (Qle_bool m x) eqn:Hmx.
    + destruct (IH m) as (Hin & Hle & Hall). apply Qle_bool_iff in Hmx.
      split; [destruct Hin as [<- | Hin]; [left; reflexivity | right; right; exact Hin] |].
      split; [exact Hle |]. intros y [<- | Hy]; [| apply Hall; exact Hy].
      eapply Qle_trans; eassumption.
    + destruct (IH x) as (Hin & Hle & Hall). apply Qle_bool_false in Hmx.
      split; [right; exact Hin |].
      split; [eapply Qle_trans; eassumption |].
      intros y [<- | Hy]; [exact Hle | apply Hall; exact Hy].
Qed.

Lemma py_max_spec l : forall m,
  In (py_max m l) (m :: l) /\
  m <= py_max m l /\ forall y, In y l -> y <= py_max m l.
Proof.
  unfold py_max. induction l as [| x l IH]; intros m; cbn [fold_left].
  - split; [left; reflexivity | split; [apply Qle_refl | intros y []]].
  - destruct (Qle_bool x m) eqn:Hxm.
    + destruct (IH m) as (Hin & Hle & Hall). apply Qle_bool_iff in Hxm.
      split; [destruct Hin as [<- | Hin]; [left; reflexivity | right; right; exact Hin] |].
      split; [exact Hle |]. intros y [<- | Hy]; [| apply Hall; exact Hy].
      eapply Qle_trans; eassumption.
    + destruct (IH x) as (Hin & Hle & Hall). apply Qle_bool_false in Hxm.
      split; [right; exact Hin |].
      split; [eapply Qle_trans; eassumption |].
      intros y [<- | Hy]; [exact Hle | apply Hall; exact Hy].
Qed.

Lemma insert_sorted_in x l y :
  In y (insert_sorted x l) <-> y = x \/ In y l.
Proof.
  induction l as [| z l IH]; cbn [insert_sorted].
  - simpl. intuition.
  - destruct (Qle_bool x z); cbn [In]; [intuition |]. rewrite IH. intuition.
Qed.

Lemma insert_sorted_length x l :
  List.length (insert_sorted x l) = S (List.length l).
Proof.
  induction l as [| z l IH]; cbn [insert_sorted]; [reflexivity |].
  destruct (Qle_bool x z); simpl; [reflexivity | rewrite IH; reflexivity].
Qed.

Lemma sorted_in l y : In y (sorted l) <-> In y l.
Proof.
  unfold sorted. induction l as [| x l IH]; cbn [fold_right].
  - reflexivity.
  - rewrite insert_sorted_in, IH. simpl. intuition.
Qed.

Lemma sorted_length l : List.length (sorted l) = List.length l.
Proof.
  unfold sorted. induction l as [| x l IH]; cbn [fold_right]; [reflexivity |].
  rewrite insert_sorted_length, IH. reflexivity.
Qed.

(** X19: the figures of [pricing_analysis] are sound.  When it reports
    figures, the minimum, the maximum and the median are prices of the list
    it aggregates, every price of that list lies between the minimum and the
    maximum, the minimum is above 0, and the number of products with prices
    is at least 1 and at most the number of products. *)
Theorem pricing_figures_sound (products : list Product) (s : PricingSummary) :
  pricing_analysis products = Some s ->
  In (min_price s) (priced products) /\
  In (max_price s) (priced products) /\
  In (median_price s) (priced products) /\
  (forall x, In x (priced products) -> min_price s <= x <= max_price s) /\
  0 < min_price s /\
  (1 <= with_prices s <= of_products s)%nat.
Proof.
  unfold pricing_analysis. intros Hs.
  pose proof (PricingFacts.priced_positive products) as Hpos.
  assert (List.length (priced products) <= List.length products)%nat as Hlen.
  { unfold priced. rewrite length_map. apply filter_length_le. }
  destruct (priced products) as [| x rest] eqn:Hpriced; [discriminate |].
  injection Hs as <-.
  cbn [min_price max_price median_price avg_price with_prices of_products].
  destruct (py_min_spec rest x) as (Hmin_in & Hmin_x & Hmin_all).
  destruct (py_max_spec rest x) as (Hmax_in & Hmax_x & Hmax_all).
  assert (forall y, In y (x :: rest) -> py_min x rest <= y <= py_max x rest)
    as Hbounds.
  { intros y [<- | Hy]; split; auto. }
  split; [exact Hmin_in | split; [exact Hmax_in | split]].
  - assert (Nat.div (List.length (x :: rest)) 2 < List.length (x :: rest))%nat
      as Hmid by (apply Nat.div_lt; simpl; lia).
    apply sorted_in. apply nth_In. rewrite sorted_length. exact Hmid.
  - split; [exact Hbounds | split].
    + rewrite Forall_forall in Hpos. apply Hpos. exact Hmin_in.
    + split; [simpl; lia | exact Hlen].
Qed.

Lemma pricing_figures_sound_witness :
  exists s,
    pricing_analysis
      (normalize_products [discounted_item; unpriced_item; regular_item])
      = Some s /\
    In (median_price s)
      (priced (normalize_products
                 [discounted_item; unpriced_item; regular_item])) /\
    (1 <= with_prices s <= of_products s)%nat.
Proof.
  destruct (pricing_analysis
              (normalize_products [discounted_item; unpriced_item; regular_item]))
    as [s |] eqn:Hs; [| vm_compute in Hs; discriminate].
  exists s. split; [reflexivity |].
  destruct (pricing_figures_sound _ s Hs) as (_ & _ & Hmed & _ & _ & Hn).
  split; [exact Hmed | exact Hn].
Defined.

Lemma discount_of_nonzero o price d :
  discount_of o price = Some d -> truthy_num d = true.
Proof.
  unfold discount_of. destruct o as [q |]; [| discriminate].
  destruct (truthy_num q) eqn:Hq; [| discriminate].
  destruct (truthy_num price) eqn:Hp; [| discriminate].
  destruct (negb (Qle_bool q price)) eqn:Hgt; [| discriminate].
  cbn [andb]. intros Hd. injection Hd as <-.
  unfold truthy_num in *. apply negb_true_iff in Hq, Hgt.
  apply negb_true_iff.
  destruct (Qeq_bool ((q - price) / q * 100) 0) eqn:Hz; [| reflexivity].
  apply Qeq_bool_iff in Hz.
  assert (~ q == 0) as Hq0.
  { intros H0. apply Qeq_bool_iff in H0. congruence. }
  assert (q - price == 0) as Hdiff.
  { assert ((q - price) / q * 100 * (q / 100) == q - price) as <-
      by (field; exact Hq0).
    rewrite Hz. ring. }
  assert (Qle_bool q price = true); [| congruence].
  apply Qle_bool_iff.
  assert (q == price) as -> by (rewrite <- (Qplus_0_l price), <- Hdiff; ring).
  apply Qle_refl.
Qed.

(** X21: a computed discount is never 0, whatever the amounts.  So the
    truthiness test that selects the discounted products for the discount
    statistics selects exactly the products that have a discount value. *)
Theorem discounted_are_those_with_discount (products : list RawProduct) :
  discounted (normalize_products products)
  = with_discount (normalize_products products).
Proof.
  unfold discounted, with_discount, normalize_products.
  induction products as [| p products IH]; [reflexivity |].
  cbn [map List.filter]. rewrite IH.
  destruct (discount_percent (normalize_product p)) as [d |] eqn:Hd;
    [| reflexivity].
  unfold normalize_product in Hd. cbn [discount_percent] in Hd.
  rewrite (discount_of_nonzero _ _ _ Hd). reflexivity.
Qed.

Lemma Qltb_to_azn c n d :
  Qltb (to_azn c) (n # d) = Z.ltb (c * Zpos d) (100 * n).
Proof.
  unfold Qltb. destruct (Qle_bool (n # d) (to_azn c)) eqn:Hle; cbn [negb].
  - apply Qle_bool_iff in Hle. unfold Qle, to_azn, Qdiv, Qmult, Qinv in Hle.
    simpl in Hle. symmetry. apply Z.ltb_ge. lia.
  - symmetry. apply Z.ltb_lt.
    destruct (Z_lt_le_dec (c * Zpos d) (100 * n)) as [Hlt | Hge];
      [exact Hlt |].
    assert (Qle_bool (n # d) (to_azn c) = true); [| congruence].
    apply Qle_bool_iff. unfold Qle, to_azn, Qdiv, Qmult, Qinv. simpl. lia.
Qed.

(** X22: the price ranges in minor units.  A price of [c] minor units is
    counted in the range given by the thresholds 50, 100, 300, 500, 1000,
    2000 and 5000: each range includes its lower bound and excludes its
    upper bound. *)
Theorem range_of_amount (c : Z) :
  range_of (to_azn c) = range_of_cents c.
Proof.
  unfold range_of, range_of_cents. rewrite !Qltb_to_azn.
  repeat match goal with
         | |- context [Z.ltb ?a ?b] => destruct (Z.ltb_spec a b)
         end; try reflexivity; lia.
Qed.

Lemma bump_counts (label : string) (f : string -> nat) labels :
  bump label (map (fun l => (l, f l)) labels)
  = map (fun l => (l, (f l + (if String.eqb l label then 1 else 0))%nat))
      labels.
Proof.
  unfold bump. rewrite map_map. apply map_ext. intros l. cbn [fst snd].
  destruct (String.eqb l label); f_equal; lia.
Qed.

Lemma fold_counts prices : forall (f : string -> nat) labels,
  fold_left (fun ranges price => bump (range_of price) ranges) prices
    (map (fun l => (l, f l)) labels)
  = map (fun l => (l, (f l + in_range l prices)%nat)) labels.
Proof.
  induction prices as [| price prices IH]; intros f labels; cbn [fold_left].
  - apply map_ext. intros l. unfold in_range. simpl. f_equal. lia.
  - rewrite bump_counts, IH. apply map_ext. intros l. f_equal.
    unfold in_range. cbn [List.filter]. rewrite (String.eqb_sym l).
    destruct (String.eqb (range_of price) l); simpl; lia.
Qed.

Lemma range_of_one_label price :
  sum_list (map (fun l => if String.eqb (range_of price) l then 1%nat else 0%nat)
              range_labels) = 1%nat.
Proof.
  unfold range_of.
  repeat match goal with
         | |- context [Qltb ?a ?b] => destruct (Qltb a b)
         end; reflexivity.
Qed.

Lemma sum_list_map_plus (f g : string -> nat) labels :
  sum_list (map (fun l => (f l + g l)%nat) labels)
  = (sum_list (map f labels) + sum_list (map g labels))%nat.
Proof.
  induction labels as [| l labels IH]; [reflexivity |].
  cbn [map sum_list]. simpl. rewrite IH. lia.
Qed.

Lemma in_range_total prices :
  sum_list (map (fun l => in_range l prices) range_labels)
  = List.length prices.
Proof.
  induction prices as [| price prices IH]; [reflexivity |].
  cbn [List.length]. rewrite <- IH.
  transitivity
    (sum_list
       (map (fun l => ((if String.eqb (range_of price) l then 1 else 0)
                       + in_range l prices)%nat) range_labels)).
  - f_equal. apply map_ext. intros l. unfold in_range. cbn [List.filter].
    destruct (String.eqb (range_of price) l); reflexivity.
  - rewrite sum_list_map_plus, range_of_one_label. reflexivity.
Qed.

(** X23: the price distribution is a partition.  The dictionary of ranges
    keeps its eight keys in their order; the count of each range is the
    number of prices whose chain of comparisons ends in that range; and the
    counts add up to the number of prices, so every price is counted exactly
    once. *)
Theorem price_distribution_partition (prices : list Q) :
  price_distribution prices
    = map (fun label => (label, in_range label prices)) range_labels /\
  sum_list (map snd (price_distribution prices)) = List.length prices.
Proof.
  assert (price_distribution prices
          = map (fun label => (label, in_range label prices)) range_labels)
    as Hdist.
  { unfold price_distribution, ranges0.
    rewrite (fold_counts prices (fun _ => 0%nat) range_labels).
    apply map_ext. intros l. reflexivity. }
  split; [exact Hdist |].
  rewrite Hdist, map_map. cbn [snd]. apply in_range_total.
Qed.

Lemma to_azn_nonpositive c : Qle_bool (to_azn c) 0 = Z.leb c 0.
Proof.
  destruct (Qle_bool (to_azn c) 0) eqn:Hle.
  - apply Qle_bool_iff in Hle. unfold Qle, to_azn, Qdiv, Qmult, Qinv in Hle.
    simpl in Hle. symmetry. apply Z.leb_le. lia.
  - symmetry. apply Z.leb_gt.
    destruct (Z_lt_le_dec 0 c) as [Hlt | Hge]; [exact Hlt |].
    assert (Qle_bool (to_azn c) 0 = true); [| congruence].
    apply Qle_bool_iff. unfold Qle, to_azn, Qdiv, Qmult, Qinv. simpl. lia.
Qed.

Lemma price_of_positive p :
  match positive_cents p with
  | Some c => price_of p = to_azn c /\ Qle_bool (price_of p) 0 = false
  | None => Qle_bool (price_of p) 0 = true
  end.
Proof.
  unfold price_of, positive_cents.
  destruct (p_price p) as [| | c]; cbn [get_default];
    [reflexivity | reflexivity |].
  destruct (Z.eqb_spec c 0) as [-> | Hne]; [reflexivity |].
  rewrite to_azn_nonpositive.
  destruct (Z.ltb_spec 0 c); destruct (Z.leb_spec c 0);
    first [lia | split; reflexivity | reflexivity].
Qed.

(** X24: which products enter the pricing statistics.  The list of prices
    that [pricing_analysis] aggregates holds, in the order of the products,
    the amount divided by 100 of exactly the products whose price is a
    positive integer; a missing, null, zero or negative price leaves the
    product out. *)
Theorem priced_are_positive_amounts (products : list RawProduct) :
  priced (normalize_products products)
  = flat_map (fun p => match positive_cents p with
                       | Some c => [to_azn c]
                       | None => []
                       end) products.
Proof.
  unfold priced, normalize_products.
  induction products as [| p products IH]; [reflexivity |].
  cbn [map List.filter flat_map]. rewrite <- IH.
  change (price (normalize_product p)) with (price_of p).
  pose proof (price_of_positive p) as Hp.
  destruct (positive_cents p) as [c |].
  - destruct Hp as [Hprice Hle]. rewrite Hle. cbn [negb map app].
    change (price (normalize_product p)) with (price_of p).
    rewrite Hprice. reflexivity.
  - rewrite Hp. reflexivity.
Qed.

End PricingMore.
